(** * YouTube transcript service: identifier parsing, transcript
    normalisation, input expansion and archive assembly.

    Shallow embedding of [youtube_transcript_app/backend/services.py] and of
    the two endpoints of [backend/main.py].

    Conventions.
    - A Python [str] is a Rocq [string]; its characters are the code points
      below 256.
    - A Python value that may or may not be a string is a [pyval].
    - A raised exception is the [Raise] case of [result].
    - The network and the process environment are an explicit [world]: the
      two credential variables and the queue of answers that the metadata
      provider gives to the successive HTTP requests. *)

From Stdlib Require Import ZArith QArith Qround Qabs Lqa Ascii.
From stdpp Require Import gmap strings list fin_maps sorting.

Local Open Scope Z_scope.

(** ** Python values *)

Inductive pyval :=
| PyNone
| PyBool (b : bool)
| PyInt (z : Z)
| PyStr (s : string)
| PyOther (type_name : string) (truthy : bool) (repr : string).
(* [PyOther] stands for every other object (float, list, dict, ...): all the
   code observes of it is the name of its type, its truth value and its
   [str()] rendering. *)

Inductive exn :=
| ValueError (msg : string)
| TypeError (msg : string)
| AttributeError (msg : string).

(** [str(ex)] *)
Definition exn_msg (e : exn) : string :=
  match e with
  | ValueError msg | TypeError msg | AttributeError msg => msg
  end.

Inductive result (A : Type) :=
| Ok (a : A)
| Raise (e : exn).
Arguments Ok {A} a.
Arguments Raise {A} e.

(** Sequencing: an exception raised by [r] passes through [k]. *)
Definition bind {A B : Type} (r : result A) (k : A -> result B) : result B :=
  match r with
  | Ok a => k a
  | Raise e => Raise e
  end.

Notation "x <- r ;; k" := (bind r (fun x => k))
  (at level 100, r at next level, right associativity).

Definition str_nonempty (s : string) : bool :=
  match s with EmptyString => false | String _ _ => true end.

(** [bool(v)] *)
Definition truthy_val (v : pyval) : bool :=
  match v with
  | PyNone => false
  | PyBool b => b
  | PyInt z => negb (z =? 0)
  | PyStr s => str_nonempty s
  | PyOther _ t _ => t
  end.

Definition truthy_opt (o : option string) : bool :=
  match o with Some s => str_nonempty s | None => false end.

(** ** Decimal rendering of integers *)

Definition digit_char (d : nat) : ascii := ascii_of_nat (48 + d).

Fixpoint digits_fuel (fuel n : nat) (acc : string) : string :=
  match fuel with
  | O => acc
  | S f =>
      let acc' := String (digit_char (n mod 10)) acc in
      if (n / 10 =? 0)%nat then acc' else digits_fuel f (n / 10) acc'
  end.

Definition nat_to_str (n : nat) : string := digits_fuel (S n) n EmptyString.

Definition Z_to_str (z : Z) : string :=
  if z <? 0 then String "-"%char (nat_to_str (Z.to_nat (- z)))
  else nat_to_str (Z.to_nat z).

(** [str(v)], as an f-string renders [v]. *)
Definition py_str (v : pyval) : string :=
  match v with
  | PyNone => "None"
  | PyBool true => "True"
  | PyBool false => "False"
  | PyInt z => Z_to_str z
  | PyStr s => s
  | PyOther _ _ r => r
  end.

(** [type(v).__name__] *)
Definition py_type (v : pyval) : string :=
  match v with
  | PyNone => "NoneType"
  | PyBool _ => "bool"
  | PyInt _ => "int"
  | PyStr _ => "str"
  | PyOther n _ _ => n
  end.

(** ** [str.strip()] *)

Definition code (c : ascii) : N := N_of_ascii c.

(** [str.isspace] on the code points below 256. *)
Definition isspace (c : ascii) : bool :=
  let n := code c in
  (((9 <=? n) && (n <=? 13)) || ((28 <=? n) && (n <=? 32))
   || (n =? 133) || (n =? 160))%N.

Fixpoint lstrip (s : string) : string :=
  match s with
  | EmptyString => EmptyString
  | String c s' => if isspace c then lstrip s' else s
  end.

Fixpoint rstrip (s : string) : string :=
  match s with
  | EmptyString => EmptyString
  | String c s' =>
      match rstrip s' with
      | EmptyString => if isspace c then EmptyString else String c EmptyString
      | r => String c r
      end
  end.

Definition strip (s : string) : string := rstrip (lstrip s).

(** ** Regular expressions

    The fragment of [re] syntax that the seven patterns of the module use.
    Every pattern has the form [prefix(group)suffix] with exactly one
    capturing group, so a pattern is kept as these three parts and a match
    is identified with its [group(1)]. *)

Inductive class_item :=
| One (c : ascii)
| Range (lo hi : ascii).

Inductive regex :=
| Eps
| Bol                                   (* ^ *)
| Eol                                   (* $ *)
| Lit (s : string)                      (* literal characters *)
| Cls (cs : list class_item)            (* [...] *)
| ClsRep (cs : list class_item) (n : nat)   (* [...]{n} *)
| ClsPlus (cs : list class_item)        (* [...]+ *)
| Cat (r1 r2 : regex)
| Alt (r1 r2 : regex).                  (* r1|r2 *)

Record pattern := Pattern { pre : regex; grp : regex; post : regex }.

Definition item_has (c : ascii) (i : class_item) : bool :=
  match i with
  | One d => (code c =? code d)%N
  | Range lo hi => ((code lo <=? code c) && (code c <=? code hi))%N
  end.

Definition in_class (cs : list class_item) (c : ascii) : bool :=
  existsb (item_has c) cs.

Fixpoint strip_prefix (t s : string) : option string :=
  match t with
  | EmptyString => Some s
  | String a t' =>
      match s with
      | String b s' => if (code a =? code b)%N then strip_prefix t' s' else None
      | EmptyString => None
      end
  end.

(** [$] without [re.MULTILINE]: at the end, or just before a final newline. *)
Definition at_eol (s : string) : bool :=
  match s with
  | EmptyString => true
  | String c EmptyString => (code c =? 10)%N
  | _ => false
  end.

Section Matcher.
Context {A : Type}.

Fixpoint rep_cls (cs : list class_item) (n : nat) (s : string)
    (k : string -> option A) : option A :=
  match n with
  | O => k s
  | S n' =>
      match s with
      | String c s' => if in_class cs c then rep_cls cs n' s' k else None
      | EmptyString => None
      end
  end.

(** Greedy [[...]*]: the longest run first, shorter ones on backtracking. *)
Fixpoint star_cls (cs : list class_item) (s : string)
    (k : string -> option A) : option A :=
  match s with
  | String c s' =>
      if in_class cs c then
        match star_cls cs s' k with
        | Some a => Some a
        | None => k s
        end
      else k s
  | EmptyString => k s
  end.

(** Backtracking matcher: [bol] tells whether the current position is the
    start of the subject, [k] is what remains to be matched. *)
Fixpoint rmatch (r : regex) (bol : bool) (s : string)
    (k : bool -> string -> option A) : option A :=
  match r with
  | Eps => k bol s
  | Bol => if bol then k bol s else None
  | Eol => if at_eol s then k bol s else None
  | Lit t =>
      match strip_prefix t s with
      | Some s' => k (bol && negb (str_nonempty t)) s'
      | None => None
      end
  | Cls cs =>
      match s with
      | String c s' => if in_class cs c then k false s' else None
      | EmptyString => None
      end
  | ClsRep cs n => rep_cls cs n s (k (bol && (n =? 0)%nat))
  | ClsPlus cs =>
      match s with
      | String c s' => if in_class cs c then star_cls cs s' (k false) else None
      | EmptyString => None
      end
  | Cat r1 r2 => rmatch r1 bol s (fun b' s' => rmatch r2 b' s' k)
  | Alt r1 r2 =>
      match rmatch r1 bol s k with
      | Some a => Some a
      | None => rmatch r2 bol s k
      end
  end.
End Matcher.

(** The text of [s1] up to where [s2] starts, [s2] being a suffix of [s1]. *)
Definition consumed (s1 s2 : string) : string :=
  String.substring 0 (String.length s1 - String.length s2) s1.

Definition match_here (p : pattern) (bol : bool) (s : string) : option string :=
  rmatch (pre p) bol s (fun b1 s1 =>
    rmatch (grp p) b1 s1 (fun b2 s2 =>
      rmatch (post p) b2 s2 (fun _ _ => Some (consumed s1 s2)))).

Fixpoint search_from (p : pattern) (bol : bool) (s : string) : option string :=
  match match_here p bol s with
  | Some g => Some g
  | None =>
      match s with
      | String _ s' => search_from p false s'
      | EmptyString => None
      end
  end.

(** [re.search(p, s)] followed by [.group(1)]; [None] when nothing matches. *)
Definition re_search (p : pattern) (s : string) : option string :=
  search_from p true s.

(** ** Identifier parser *)

(** [[0-9A-Za-z_-]] *)
Definition id_class : list class_item :=
  [Range "0" "9"; Range "A" "Z"; Range "a" "z"; One "_"; One "-"].

(** [[A-Za-z0-9._-]] *)
Definition handle_class : list class_item :=
  [Range "A" "Z"; Range "a" "z"; Range "0" "9"; One "."; One "_"; One "-"].

Definition pat_v : pattern :=       (* (?:[?&]v=|v=)([0-9A-Za-z_-]{11}) *)
  Pattern (Alt (Cat (Cls [One "?"; One "&"]) (Lit "v=")) (Lit "v="))
          (ClsRep id_class 11) Eps.
Definition pat_be : pattern :=      (* (?:be/)([0-9A-Za-z_-]{11}) *)
  Pattern (Lit "be/") (ClsRep id_class 11) Eps.
Definition pat_embed : pattern :=   (* (?:embed/)([0-9A-Za-z_-]{11}) *)
  Pattern (Lit "embed/") (ClsRep id_class 11) Eps.
Definition pat_shorts : pattern :=  (* (?:shorts/)([0-9A-Za-z_-]{11}) *)
  Pattern (Lit "shorts/") (ClsRep id_class 11) Eps.
Definition pat_bare : pattern :=    (* ^([0-9A-Za-z_-]{11})$ *)
  Pattern Bol (ClsRep id_class 11) Eol.

Definition patterns : list pattern :=
  [pat_v; pat_be; pat_embed; pat_shorts; pat_bare].

(** [for pattern in patterns: m = re.search(pattern, url); if m: return ...] *)
Fixpoint first_match (ps : list pattern) (url : string) : option string :=
  match ps with
  | [] => None
  | p :: ps' =>
      match re_search p url with
      | Some g => Some g
      | None => first_match ps' url
      end
  end.

(** [isinstance(v, str)] *)
Definition is_str (v : pyval) : bool :=
  match v with PyStr _ => true | _ => false end.

(** [v.strip()]: only a string has the method. *)
Definition py_strip (v : pyval) : result string :=
  match v with
  | PyStr s => Ok (strip s)
  | _ =>
      Raise (AttributeError
               ("'" +:+ py_type v +:+ "' object has no attribute 'strip'"))
  end.

(** [m = re.search(p, v)] then [m.group(1) if m else None]: [re.search]
    raises [TypeError] on a value that is not a string. *)
Definition py_re_search (p : pattern) (v : pyval) : result (option string) :=
  match v with
  | PyStr s => Ok (re_search p s)
  | _ => Raise (TypeError "expected string or bytes-like object")
  end.

Definition empty_input_msg : string := "URL must be a non-empty string".

Definition parse_video_id (url : pyval) : result string :=
  blank <- (if negb (is_str url) then Ok true
            else s <- py_strip url ;; Ok (negb (str_nonempty s))) ;;
  if blank : bool then Raise (ValueError empty_input_msg)
  else
    url <- py_strip url ;;
    match first_match patterns url with
    | Some g => Ok g
    | None =>
        Raise (ValueError
          ("Could not extract a valid YouTube video ID from: " +:+ url))
    end.

Definition pat_list : pattern :=     (* [?&]list=([0-9A-Za-z_-]+) *)
  Pattern (Cat (Cls [One "?"; One "&"]) (Lit "list=")) (ClsPlus id_class) Eps.
Definition pat_channel : pattern :=  (* /channel/(UC[0-9A-Za-z_-]{22}) *)
  Pattern (Lit "/channel/") (Cat (Lit "UC") (ClsRep id_class 22)) Eps.
Definition pat_handle : pattern :=   (* /@([A-Za-z0-9._-]+) *)
  Pattern (Lit "/@") (ClsPlus handle_class) Eps.

Definition parse_playlist_id (url : pyval) : result (option string) :=
  if negb (is_str url) then Ok None else py_re_search pat_list url.

Definition parse_channel_id (url : pyval) : result (option string) :=
  if negb (is_str url) then Ok None else py_re_search pat_channel url.

Definition parse_channel_handle (url : pyval) : result (option string) :=
  if negb (is_str url) then Ok None else py_re_search pat_handle url.

(** ** Transcript normaliser *)

(** A raw segment: [seg.get("text")] and [seg.get("start")], [None] when the
    key is absent or null. A start time is a finite double, kept as its
    exact rational value. *)
Record segment := Segment { seg_text : option string; seg_start : option Q }.

(** *** Arithmetic of doubles

    The operations of Python floats on finite values, with the rounding of
    IEEE 754 binary64 (to nearest, ties to even, gradual underflow) written
    out. Results stay below the greatest double in what follows, their
    magnitude being at most that of the operands or 60. *)

(** [2^z] *)
Definition pow2 (z : Z) : Q :=
  if 0 <=? z then inject_Z (2 ^ z) else / inject_Z (2 ^ (- z)).

(** The binary exponent of a positive rational: [2^e <= q < 2^(e+1)]. *)
Definition ilog2 (q : Q) : Z :=
  let l := Z.log2 (Qnum q) - Z.log2 (Zpos (Qden q)) in
  if Qle_bool (pow2 l) q then l else l - 1.

(** The integer nearest to [t], the even one of two equally near. *)
Definition round_half_even (t : Q) : Z :=
  let n := Qfloor t in
  match (t - inject_Z n ?= 1 # 2)%Q with
  | Lt => n
  | Gt => n + 1
  | Eq => if Z.even n then n else n + 1
  end.

(** The double nearest to [q]: 53 significant bits, the least exponent of
    the last bit being [-1074]. *)
Definition fround (q : Q) : Q :=
  if Qeq_bool q 0 then 0%Q
  else
    let a := Qabs q in
    let u := Z.max (ilog2 a - 52) (-1074) in
    let m := round_half_even (a / pow2 u) in
    ((if Qle_bool 0 q then 1 else -1) * inject_Z m * pow2 u)%Q.

(** [int(x)]: truncation towards zero *)
Definition int_of_float (x : Q) : Z :=
  if Qle_bool 0 x then Qfloor x else Qceiling x.

(** C's [fmod]: the remainder with the sign of [x], which is exact. *)
Definition fmod (x y : Q) : Q := (x - y * inject_Z (int_of_float (x / y)))%Q.

(** [x < 0] *)
Definition is_neg (x : Q) : bool := negb (Qle_bool 0 x).

(** [x % y] on floats: [fmod], moved by [y] when its sign is not that of
    [y]; the sum is rounded. *)
Definition float_mod (x y : Q) : Q :=
  let m := fmod x y in
  if Qeq_bool m 0 then 0%Q
  else if xorb (is_neg y) (is_neg m) then fround (m + y) else m.

(** [x // y] on floats: the quotient of [x - fmod(x, y)] by [y], each step
    rounded, lowered by one when the remainder was moved, then snapped to
    the nearest whole number. *)
Definition float_floordiv (x y : Q) : Q :=
  let m := fmod x y in
  let div := fround (fround (x - m) / y) in
  let div :=
    if negb (Qeq_bool m 0) && xorb (is_neg y) (is_neg m)
    then fround (div - 1) else div in
  if Qeq_bool div 0 then 0%Q
  else
    let floordiv := inject_Z (Qfloor div) in
    match (div - floordiv ?= 1 # 2)%Q with
    | Gt => fround (floordiv + 1)
    | _ => floordiv
    end.

(** [f"{n:02d}"]: zero padding to width two, the sign counting. *)
Definition fmt_02d (n : Z) : string :=
  if n <? 0 then String "-"%char (nat_to_str (Z.to_nat (- n)))
  else
    let d := nat_to_str (Z.to_nat n) in
    if (String.length d <? 2)%nat then String "0"%char d else d.

Definition newline : string := String (ascii_of_nat 10) EmptyString.

(** [sep.join(l)] *)
Fixpoint str_join (sep : string) (l : list string) : string :=
  match l with
  | [] => EmptyString
  | [x] => x
  | x :: l' => x +:+ sep +:+ str_join sep l'
  end.

(** One pass of the [for seg in segments] body over the list [lines]. *)
Definition normalize_step (include_timestamps : bool)
    (lines : list string) (seg : segment) : list string :=
  let text := strip (default EmptyString (seg_text seg)) in
  if negb (str_nonempty text) then lines
  else if include_timestamps then
    let start_seconds := default (0 # 1)%Q (seg_start seg) in
    let minutes := int_of_float (float_floordiv start_seconds (60 # 1)) in
    let seconds := int_of_float (float_mod start_seconds (60 # 1)) in
    lines ++ ["[" +:+ fmt_02d minutes +:+ ":" +:+ fmt_02d seconds +:+ "] " +:+ text]
  else lines ++ [text].

Definition normalize_transcript (segments : list segment)
    (include_timestamps : bool) : string :=
  str_join newline (fold_left (normalize_step include_timestamps) segments []).

(** ** The metadata provider and the environment *)

Record env_t := Env { YOUTUBE_API_KEY : option string; YT_API_KEY : option string }.

(** One element of [data["items"]], read along the three paths the code
    follows: [contentDetails.videoId],
    [contentDetails.relatedPlaylists.uploads], [snippet.channelId]. *)
Record yt_item := Item {
  videoId : option string;
  uploads : option string;
  channelId : option string }.

Record yt_data := Data { items : list yt_item; nextPageToken : option string }.

(** [responses]: what the successive [requests.get] calls will yield, [Some]
    for a 200 answer with its JSON body, [None] for any other status or a
    [RequestException]; a request made after the last one fails. *)
Record world := World { env : env_t; responses : list (option yt_data) }.

(** Python's [a or b] on optional strings *)
Definition py_or (a b : option string) : option string :=
  if truthy_opt a then a else b.

Definition _api_key (e : env_t) : option string :=
  py_or (YOUTUBE_API_KEY e) (YT_API_KEY e).

Definition _yt_api_get (endpoint : string) (w : world) : option yt_data * world :=
  if negb (truthy_opt (_api_key (env w))) then (None, w)
  else
    match responses w with
    | r :: rest => (r, World (env w) rest)
    | [] => (None, w)
    end.

(** ** Playlist and channel expansion *)

(** The [for it in data.get("items", [])] loop; the flag tells that the
    [return results] inside the loop was taken. *)
Fixpoint collect_items (limit : Z) (its : list yt_item) (results : list string)
    : list string * bool :=
  match its with
  | [] => (results, false)
  | it :: its' =>
      if truthy_opt (videoId it) then
        let results' := results ++ [default EmptyString (videoId it)] in
        if Z.of_nat (length results') >=? limit then (results', true)
        else collect_items limit its' results'
      else collect_items limit its' results
  end.

Definition empty_data : yt_data := Data [] None.

(** One pass of the [while True] body up to the decision to fetch the next
    page: the results so far and whether the loop goes on. *)
Definition page_pass (limit : Z) (data : yt_data) (results : list string)
    : list string * bool :=
  let '(results', returned) := collect_items limit (items data) results in
  if returned then (results', false)
  else if negb (truthy_opt (nextPageToken data))
          || (Z.of_nat (length results') >=? limit)
  then (results', false)
  else (results', true).

(** The [while True] loop, the credential being known to be set; it also
    yields the answers not yet consumed. *)
Fixpoint playlist_loop (limit : Z) (data : yt_data) (results : list string)
    (queue : list (option yt_data)) : list string * list (option yt_data) :=
  match page_pass limit data results with
  | (results', false) => (results', queue)
  | (results', true) =>
      match queue with
      | r :: queue' =>
          playlist_loop limit (default empty_data r) results' queue'
      | [] => (fst (page_pass limit empty_data results'), [])
      end
  end.

(** [if not data: return results] is the [None] case; an answer whose body is
    the empty object is a page with no item and no token, on which the loop
    stops at once with the same empty result. *)
Definition expand_playlist_video_ids (playlist_id : string) (limit : Z)
    (w : world) : list string * world :=
  match _yt_api_get "playlistItems" w with
  | (None, w') => ([], w')
  | (Some data, w') =>
      let '(results, queue) := playlist_loop limit data [] (responses w') in
      (results, World (env w') queue)
  end.

Definition _uploads_playlist_id (channel_id : string) (w : world)
    : option string * world :=
  match _yt_api_get "channels" w with
  | (Some data, w') =>
      (match items data with it :: _ => uploads it | [] => None end, w')
  | (None, w') => (None, w')
  end.

Definition _resolve_channel_id_from_handle (handle : string) (w : world)
    : option string * world :=
  match _yt_api_get "search" w with
  | (Some data, w') =>
      (match items data with it :: _ => channelId it | [] => None end, w')
  | (None, w') => (None, w')
  end.

Definition expand_channel_recent_video_ids (channel_url : pyval) (limit : Z)
    (w : world) : result (list string * world) :=
  cid <- parse_channel_id channel_url ;;
  cw <- (if negb (truthy_opt cid) then
           handle <- parse_channel_handle channel_url ;;
           if truthy_opt handle
           then Ok (_resolve_channel_id_from_handle (default EmptyString handle) w)
           else Ok (cid, w)
         else Ok (cid, w)) ;;
  let '(cid, w1) := cw in
  if negb (truthy_opt cid) then Ok ([], w1)
  else
    let '(uploads, w2) := _uploads_playlist_id (default EmptyString cid) w1 in
    if negb (truthy_opt uploads) then Ok ([], w2)
    else Ok (expand_playlist_video_ids (default EmptyString uploads) limit w2).

(** ** Input expander *)

(** [out], [seen] and [errors] of [expand_inputs_to_video_ids] *)
Record acc := Acc { out : list string; seen : gset string; errors : list string }.

(** [if v not in seen: out.append(v); seen.add(v)] *)
Definition add_id (a : acc) (v : string) : acc :=
  if decide (v ∈ seen a) then a
  else Acc (out a ++ [v]) ({[v]} ∪ seen a) (errors a).

Definition add_error (a : acc) (e : string) : acc :=
  Acc (out a) (seen a) (errors a ++ [e]).

Definition unrecognized_msg (u : pyval) : string :=
  "Unrecognized URL (not a video/playlist/channel): " +:+ py_str u.

(** The body of [for u in urls or []]: only [ValueError] is caught. *)
Definition url_step (a : acc) (u : pyval) : result acc :=
  match parse_video_id u with
  | Ok vid => Ok (add_id a vid)
  | Raise (ValueError _) =>
      pl <- parse_playlist_id u ;;
      cid <- parse_channel_id u ;;
      ch <- (if truthy_opt cid then Ok cid else parse_channel_handle u) ;;
      Ok (if negb (truthy_opt pl || truthy_opt ch)
          then add_error a (unrecognized_msg u)
          else a)
  | Raise e => Raise e
  end.

(** [for u in urls or []: ...] *)
Fixpoint for_urls (urls : list pyval) (a : acc) : result acc :=
  match urls with
  | [] => Ok a
  | u :: urls' => a' <- url_step a u ;; for_urls urls' a'
  end.

Definition playlist_phase (playlist_url : pyval) (limit : Z)
    (aw : acc * world) : result (acc * world) :=
  let '(a, w) := aw in
  if truthy_val playlist_url then
    if negb (truthy_opt (_api_key (env w))) then
      Ok (add_error a "Playlist expansion requires YOUTUBE_API_KEY / YT_API_KEY.", w)
    else
      plid <- parse_playlist_id playlist_url ;;
      if truthy_opt plid then
        let '(vids, w') :=
          expand_playlist_video_ids (default EmptyString plid) limit w in
        Ok (fold_left add_id vids a, w')
      else
        Ok (add_error a "Could not extract playlist ID from playlist_url.", w)
  else Ok aw.

Definition channel_phase (channel_url : pyval) (limit : Z)
    (aw : acc * world) : result (acc * world) :=
  let '(a, w) := aw in
  if truthy_val channel_url then
    if negb (truthy_opt (_api_key (env w))) then
      Ok (add_error a "Channel expansion requires YOUTUBE_API_KEY / YT_API_KEY.", w)
    else
      vw <- expand_channel_recent_video_ids channel_url limit w ;;
      let '(vids, w') := vw in
      match vids with
      | _ :: _ => Ok (fold_left add_id vids a, w')
      | [] =>
          Ok (add_error a "Could not resolve channel videos from channel_url.", w')
      end
  else Ok aw.

Definition expand_inputs_to_video_ids (urls : option (list pyval))
    (playlist_url channel_url : pyval) (limit : Z) (w : world)
    : result ((list string * list string) * world) :=
  a0 <- for_urls (default [] urls) (Acc [] ∅ []) ;;
  aw1 <- playlist_phase playlist_url limit (a0, w) ;;
  aw2 <- channel_phase channel_url limit aw1 ;;
  let '(a, w') := aw2 in
  Ok ((out a, errors a), w').

(** ** Archive assembly *)

(** [s.replace(c, "")] for a one-character [c] *)
Fixpoint remove_char (c : ascii) (s : string) : string :=
  match s with
  | EmptyString => EmptyString
  | String d s' =>
      if (code d =? code c)%N then remove_char c s' else String d (remove_char c s')
  end.

Definition dquote : ascii := ascii_of_nat 34.

Definition sanitize_filename (name : string) : string :=
  let cleaned := remove_char ":" (remove_char "/" (remove_char "\" name)) in
  let cleaned := remove_char dquote (remove_char "?" (remove_char "*" cleaned)) in
  let cleaned := strip (remove_char "|" (remove_char ">" (remove_char "<" cleaned))) in
  String.substring 0 120 (if str_nonempty cleaned then cleaned else "transcript").

(** [unique_name(base, used)]: the name returned and the updated counter
    dictionary. *)
Definition unique_name (base : string) (used : gmap string nat)
    : string * gmap string nat :=
  match used !! base with
  | None => (base, <[base := 1%nat]> used)
  | Some n =>
      (base +:+ " (" +:+ nat_to_str (S n) +:+ ")", <[base := S n]> used)
  end.

Inductive response :=
| JSONResponse (status_code : Z) (detail : string) (expansion_errors : list string)
| StreamingResponse (archive : list (string * string)) (media_type : string)
    (content_disposition : string).

(** The request body of the bulk endpoint, each field as [payload.get]
    yields it. *)
Record payload := Payload {
  p_urls : option (list pyval);
  p_playlist_url : pyval;
  p_channel_url : pyval;
  p_limit : option Z;
  p_language : option string;
  p_include_timestamps : bool }.

(** The [Content-Disposition] header of the archive *)
Definition zip_disposition : string :=
  "attachment; filename=" +:+ String dquote "transcripts.zip"
    +:+ String dquote EmptyString.

(** [int(payload.get("limit") or 50)] *)
Definition payload_limit (p : payload) : Z :=
  match p_limit p with
  | Some l => if l =? 0 then 50 else l
  | None => 50
  end.

Definition no_videos_msg : string :=
  "No videos to process. Provide valid video URLs or set YOUTUBE_API_KEY for playlist/channel expansion.".

(** State of the archive loop: the entries written so far, [used_names] and
    [errors]. *)
Record zip_state := Zip {
  entries : list (string * string);
  used_names : gmap string nat;
  zip_errors : list string }.

Section Bulk.
(** The transcript provider (track selection and language fallback of
    [fetch_transcript], up to the raw segments) and the title lookup are
    external collaborators; either may raise. *)
Variable provider_fetch : string -> option string -> result (list segment * string).
Variable fetch_video_title : string -> result (option string).

Definition fetch_transcript (video_id : string) (language_code : option string)
    (include_timestamps : bool) : result (string * string) :=
  match provider_fetch video_id language_code with
  | Ok (raw_segments, used_language) =>
      Ok (normalize_transcript raw_segments include_timestamps, used_language)
  | Raise e => Raise e
  end.

(** The [try] block of the archive loop: the name and the text of the
    entry to write, with the names in use afterwards. The title is looked
    up inside the block, after the transcript. *)
Definition zip_try (language : option string) (include_timestamps : bool)
    (used : gmap string nat) (vid : string)
    : result (string * string * gmap string nat) :=
  fetched <- fetch_transcript vid language include_timestamps ;;
  let '(text, _) := fetched in
  title <- fetch_video_title vid ;;
  let title := if truthy_opt title then default vid title else vid in
  let base := sanitize_filename title in
  let '(unique, used') := unique_name base used in
  let filename := unique +:+ ".txt" in
  Ok (filename, text, used').

(** The body of [for vid in video_ids]: [except Exception as ex] turns
    whatever the block raises into one line of the report. *)
Definition zip_step (language : option string) (include_timestamps : bool)
    (z : zip_state) (vid : string) : zip_state :=
  match zip_try language include_timestamps (used_names z) vid with
  | Ok (filename, text, used') =>
      Zip (entries z ++ [(filename, text)]) used' (zip_errors z)
  | Raise ex =>
      Zip (entries z) (used_names z)
        (zip_errors z ++ [vid +:+ ": " +:+ exn_msg ex])
  end.

Definition bulk_transcripts_endpoint (p : payload) (w : world)
    : result (response * world) :=
  let urls := default [] (p_urls p) in
  let limit := payload_limit p in
  expanded <- expand_inputs_to_video_ids (Some urls) (p_playlist_url p)
                (p_channel_url p) limit w ;;
  let '((video_ids, expansion_errors), w') := expanded in
  match video_ids with
  | [] => Ok (JSONResponse 400 no_videos_msg expansion_errors, w')
  | _ :: _ =>
      let z := fold_left (zip_step (p_language p) (p_include_timestamps p))
                 video_ids (Zip [] ∅ []) in
      let errors :=
        zip_errors z ++ map (fun e => "[expand] " +:+ e) expansion_errors in
      let archive :=
        match errors with
        | [] => entries z
        | _ :: _ => entries z ++ [("errors_report.txt", str_join newline errors)]
        end in
      Ok (StreamingResponse archive "application/zip" zip_disposition, w')
  end.
End Bulk.

(** ** Title lookup *)

(** What the two title sources answer for one video.
    - [videos_answer]: the answer of [_yt_api_get("videos", ...)], [None] for
      a failed request; of each element of [data["items"]] the value at
      [["snippet"]["title"]], [None] when that lookup raises. An answer
      without items is the empty list.
    - [oembed_answer]: the answer of the oEmbed request, [None] for a
      [RequestException] or a status other than 200, otherwise the value of
      [r.json().get("title")], [PyNone] when the key is absent. *)
Record title_world := TitleWorld {
  t_env : env_t;
  videos_answer : option (list (option pyval));
  oembed_answer : option pyval }.

Inductive request := VideosRequest | OembedRequest.

(** [(v or "").strip() or None] *)
Definition title_text (v : pyval) : result (option string) :=
  s <- py_strip (if truthy_val v then v else PyStr EmptyString) ;;
  Ok (if str_nonempty s then Some s else None).

(** The [if key:] block: [Some t] when its [return] is reached with [t];
    any exception inside the [try] is passed over. *)
Definition title_from_api (tw : title_world) : option (option string) :=
  match videos_answer tw with
  | Some (Some v :: _) =>
      match title_text v with
      | Ok t => Some t
      | Raise _ => None
      end
  | _ => None
  end.

(** The title, and the requests sent, in order. *)
Definition fetch_video_title (video_id : string) (tw : title_world)
    : result (option string) * list request :=
  let key := _api_key (t_env tw) in
  let sent := if truthy_opt key then [VideosRequest] else [] in
  match (if truthy_opt key then title_from_api tw else None) with
  | Some t => (Ok t, sent)
  | None =>
      (match oembed_answer tw with
       | Some v => title_text v
       | None => Ok None
       end, sent ++ [OembedRequest])
  end.

(** ** Transcript retrieval

    [fetch_transcript] over an explicit transcript library. The module keeps
    the name of the source function apart from the wrapper of the archive
    loop above, which takes the retrieval as one collaborator. *)

Module Provider.

(** An exception raised below [fetch_transcript]: the outcome of the four
    [isinstance] tests that the [except] clauses make, and [str(ex)]. *)
Record exc := Exc {
  is_InvalidVideoId : bool;
  is_VideoUnavailable : bool;
  is_CouldNotRetrieveTranscript : bool;
  is_YouTubeTranscriptApiException : bool;
  exc_text : string }.

(** A call into the library returns or raises. *)
Inductive attempt (A : Type) :=
| Done (a : A)
| Fails (e : exc).
Arguments Done {A} a.
Arguments Fails {A} e.

(** A fetched transcript: its [language_code] attribute, when it has one,
    and its raw segments. *)
Record fetched_t := Fetched {
  fetched_language_code : option string;
  raw_segments : list segment }.

(** A transcript of a listing: [t.language_code], [t.fetch()] and
    [t.translate(code).fetch()]. *)
Record transcript_t := Transcript {
  t_language_code : string;
  t_fetch : attempt fetched_t;
  t_translate_fetch : string -> attempt fetched_t }.

(** A listing: [find_manually_created_transcript([code])] and the
    transcripts in iteration order. *)
Record transcript_list_t := TranscriptList {
  find_manually_created_transcript : string -> attempt transcript_t;
  transcripts : list transcript_t }.

(** [api.fetch(video_id)], [api.fetch(video_id, languages=[code])] and
    [api.list(video_id)]. *)
Record api_t := Api {
  api_fetch : string -> option string -> attempt fetched_t;
  api_list : string -> attempt transcript_list_t }.

(** How a block of [fetch_transcript] ends: normally, with the
    [ValueError] the function raises itself, or with an exception passing
    through. *)
Inductive outcome (A : Type) :=
| Returns (a : A)
| RaisesValueError (msg : string)
| Raises (e : exc).
Arguments Returns {A} a.
Arguments RaisesValueError {A} msg.
Arguments Raises {A} e.

(** The body of the outer [try]. *)
Definition try_body (api : api_t) (video_id : string)
    (language_code : option string) : outcome (fetched_t * string) :=
  if truthy_opt language_code then
    let code := default EmptyString language_code in
    match api_fetch api video_id (Some code) with
    | Done fetched =>
        Returns (fetched, default code (fetched_language_code fetched))
    | Fails e =>
        if is_CouldNotRetrieveTranscript e then
          match api_list api video_id with
          | Fails e' => Raises e'
          | Done tlist =>
              let candidate :=
                match find_manually_created_transcript tlist code with
                | Done c => Some c
                | Fails _ => head (transcripts tlist)
                end in
              match candidate with
              | None =>
                  RaisesValueError "No transcripts available for this video."
              | Some c =>
                  match t_translate_fetch c code with
                  | Done fetched => Returns (fetched, code)
                  | Fails _ =>
                      match t_fetch c with
                      | Done fetched => Returns (fetched, t_language_code c)
                      | Fails e' => Raises e'
                      end
                  end
              end
          end
        else Raises e
    end
  else
    match api_fetch api video_id None with
    | Done fetched =>
        Returns (fetched, default EmptyString (fetched_language_code fetched))
    | Fails e => Raises e
    end.

(** The four [except] clauses, in their order. *)
Definition handlers {A : Type} (e : exc) : outcome A :=
  if is_InvalidVideoId e then
    RaisesValueError "Invalid video ID provided; could not fetch transcript."
  else if is_VideoUnavailable e then
    RaisesValueError "The requested video is unavailable or private."
  else if is_CouldNotRetrieveTranscript e then RaisesValueError (exc_text e)
  else if is_YouTubeTranscriptApiException e then RaisesValueError (exc_text e)
  else Raises e.

Definition fetch_transcript (api : api_t) (video_id : string)
    (language_code : option string) (include_timestamps : bool)
    : outcome (string * string) :=
  match try_body api video_id language_code with
  | Returns (fetched, used_language) =>
      Returns (normalize_transcript (raw_segments fetched) include_timestamps,
               used_language)
  | RaisesValueError msg => RaisesValueError msg
  | Raises e => handlers e
  end.

End Provider.

(** ** Available languages *)

(** [a <= b] on Python strings: the order of the code points, a proper
    prefix coming first. *)
Fixpoint str_leb (a b : string) : bool :=
  match a, b with
  | EmptyString, _ => true
  | String _ _, EmptyString => false
  | String x a', String y b' =>
      if (code x <? code y)%N then true
      else if (code y <? code x)%N then false
      else str_leb a' b'
  end.

Section Sorted.
Context {A : Type}.
Variable key : A -> string.

(** [x] put into a sorted list, before the first element whose key is not
    below its own. *)
Fixpoint insert_by (x : A) (l : list A) : list A :=
  match l with
  | [] => [x]
  | y :: l' =>
      if str_leb (key x) (key y) then x :: l else y :: insert_by x l'
  end.

(** [sorted(l, key=key)]: the stable sort by key. *)
Fixpoint py_sorted (l : list A) : list A :=
  match l with
  | [] => []
  | x :: l' => insert_by x (py_sorted l')
  end.
End Sorted.

(** One transcript of a video, as the listing of the provider has it. *)
Record track := Track {
  language : string;
  language_code : string;
  is_generated : bool }.

(** [list_transcripts] is [YouTubeTranscriptApi().list], which returns the
    tracks or raises. Only a [YouTubeTranscriptApiException] is caught; any
    other exception leaves the function. *)
Definition get_available_transcripts
    (list_transcripts : string -> Provider.attempt (list track))
    (video_id : string) : Provider.attempt (list track) :=
  match list_transcripts video_id with
  | Provider.Fails e =>
      if Provider.is_YouTubeTranscriptApiException e then Provider.Done []
      else Provider.Fails e
  | Provider.Done transcript_list =>
      Provider.Done (py_sorted language transcript_list)
  end.

(** ** Single-video endpoint *)

(** What a request to [/api/transcript] is answered with: the
    [HTTPException] raised, or the response model. *)
Inductive endpoint_answer :=
| HTTPException (status_code : Z) (detail : string)
| TranscriptResponse (transcript language_used : string)
    (available_languages : list track) (video_title : option string).

(** How a request ends: with an answer, or with an exception that no
    handler of the endpoint catches, raised by the code of the application
    or by the transcript library under the listing. *)
Inductive endpoint_outcome :=
| Answers (a : endpoint_answer)
| Uncaught (e : exn)
| UncaughtLibrary (e : Provider.exc).

Section Single.
Variable provider_fetch : string -> option string -> result (list segment * string).
Variable list_transcripts : string -> Provider.attempt (list track).
(** The title sources of each video. *)
Variable titles : string -> title_world.

(** [url] is [str(request.url)]. The listing is asked before the transcript
    is fetched, outside any [try]. *)
Definition transcript_endpoint (url : string) (language : option string)
    (include_timestamps : option bool) : endpoint_outcome :=
  match parse_video_id (PyStr url) with
  | Raise (ValueError ex) => Answers (HTTPException 400 ex)
  | Raise e => Uncaught e
  | Ok video_id =>
      match get_available_transcripts list_transcripts video_id with
      | Provider.Fails e => UncaughtLibrary e
      | Provider.Done languages =>
          match fetch_transcript provider_fetch video_id language
                  (default false include_timestamps) with
          | Raise (ValueError ex) => Answers (HTTPException 404 ex)
          | Raise e => Uncaught e
          | Ok (transcript_text, used_language) =>
              match fst (fetch_video_title video_id (titles video_id)) with
              | Raise e => Uncaught e
              | Ok title =>
                  Answers (TranscriptResponse transcript_text used_language
                             languages title)
              end
          end
      end
  end.
End Single.

(** ** Notions used to state the properties *)

Fixpoint all_chars (P : ascii -> bool) (s : string) : bool :=
  match s with
  | EmptyString => true
  | String c s' => P c && all_chars P s'
  end.

(** The VideoIdentifier invariant: eleven characters of [[0-9A-Za-z_-]]. *)
Definition valid_id (s : string) : bool :=
  (String.length s =? 11)%nat && all_chars (in_class id_class) s.

(** In [t] the marker [m] is directly followed by the token [g]. *)
Definition token_after (m g t : string) : Prop :=
  exists a b, t = a +:+ m +:+ g +:+ b /\ valid_id g = true.

(** Somewhere in [t] the marker [m] is directly followed by a token. *)
Definition follows (m t : string) : Prop := exists g, token_after m g t.

(** No proper, non-empty suffix of [m] is a prefix of [m]. *)
Definition borderless (m : string) : Prop :=
  forall a e e', m = a +:+ e -> m = e +:+ e' -> a <> EmptyString ->
                 e = EmptyString.

(** [needle in hay] *)
Fixpoint contains (needle hay : string) : bool :=
  match strip_prefix needle hay with
  | Some _ => true
  | None =>
      match hay with
      | String _ hay' => contains needle hay'
      | EmptyString => false
      end
  end.

(** The texts a regular expression can consume. *)
Fixpoint shape (r : regex) (t : string) : Prop :=
  match r with
  | Eps | Bol | Eol => t = EmptyString
  | Lit u => t = u
  | Cls cs => exists c, t = String c EmptyString /\ in_class cs c = true
  | ClsRep cs n => String.length t = n /\ all_chars (in_class cs) t = true
  | ClsPlus cs => t <> EmptyString /\ all_chars (in_class cs) t = true
  | Cat r1 r2 => exists t1 t2, t = t1 +:+ t2 /\ shape r1 t1 /\ shape r2 t2
  | Alt r1 r2 => shape r1 t \/ shape r2 t
  end.

(** Ordered-set merge: every element once, at its first position. *)
Fixpoint first_seen (l : list string) : list string :=
  match l with
  | [] => []
  | x :: l' => x :: filter (λ y, y ≠ x) (first_seen l')
  end.

(** What one [urls] entry contributes. *)
Definition entry_ids (u : pyval) : list string :=
  match parse_video_id u with Ok vid => [vid] | Raise _ => [] end.

(** What a parser finds in a value: the capture of its pattern in a
    string, nothing in any other value. *)
Definition found (p : pattern) (v : pyval) : option string :=
  match v with
  | PyStr s => re_search p s
  | _ => None
  end.

Definition classified (u : pyval) : bool :=
  truthy_opt (found pat_list u)
  || truthy_opt (found pat_channel u) || truthy_opt (found pat_handle u).

Definition entry_errors (u : pyval) : list string :=
  match parse_video_id u with
  | Ok _ => []
  | Raise _ => if classified u then [] else [unrecognized_msg u]
  end.

(** What the separate playlist reference contributes: the ids listed by the
    provider, the errors, and the world after the requests. *)
Definition playlist_source (playlist_url : pyval) (limit : Z) (w : world)
    : (list string * list string) * world :=
  if negb (truthy_val playlist_url) then (([], []), w)
  else if negb (truthy_opt (_api_key (env w))) then
    (([], ["Playlist expansion requires YOUTUBE_API_KEY / YT_API_KEY."]), w)
  else
    let plid := found pat_list playlist_url in
    if truthy_opt plid then
      let '(vids, w') :=
        expand_playlist_video_ids (default EmptyString plid) limit w in
      ((vids, []), w')
    else (([], ["Could not extract playlist ID from playlist_url."]), w).

Definition channel_source (channel_url : pyval) (limit : Z) (w : world)
    : (list string * list string) * world :=
  if negb (truthy_val channel_url) then (([], []), w)
  else if negb (truthy_opt (_api_key (env w))) then
    (([], ["Channel expansion requires YOUTUBE_API_KEY / YT_API_KEY."]), w)
  else
    match expand_channel_recent_video_ids channel_url limit w with
    | Ok (vids, w') =>
        ((vids,
          match vids with
          | [] => ["Could not resolve channel videos from channel_url."]
          | _ :: _ => []
          end), w')
    | Raise _ => (([], []), w)
    end.

(** The result of the expander as a merge: the first-seen list of the ids
    of the three sources, their errors in the same order, and the world
    after the requests. *)
Definition merged_expansion (urls : option (list pyval))
    (playlist_url channel_url : pyval) (limit : Z) (w : world)
    : (list string * list string) * world :=
  let '((vp, ep), w1) := playlist_source playlist_url limit w in
  let '((vc, ec), w2) := channel_source channel_url limit w1 in
  ((first_seen (flat_map entry_ids (default [] urls) ++ vp ++ vc),
    flat_map entry_errors (default [] urls) ++ ep ++ ec), w2).

(** The non-empty video ids of a list of items, in order. *)
Definition item_vids (its : list yt_item) : list string :=
  flat_map (fun it => if truthy_opt (videoId it)
                      then [default EmptyString (videoId it)] else []) its.

(** The non-empty video ids of one page, in page order. *)
Definition page_vids (d : yt_data) : list string := item_vids (items d).

(** The ids of a page and of the pages that follow it, as long as each page
    names a next page and the request for it succeeds. *)
Fixpoint chain_vids (d : yt_data) (queue : list (option yt_data)) : list string :=
  page_vids d ++
  (if truthy_opt (nextPageToken d) then
     match queue with
     | Some d' :: queue' => chain_vids d' queue'
     | _ => []
     end
   else []).

Definition listed_vids (w : world) : list string :=
  if truthy_opt (_api_key (env w)) then
    match responses w with
    | Some d :: queue => chain_vids d queue
    | _ => []
    end
  else [].

(** [id] is a non-empty video id of some item of some answer of [queue]. *)
Definition queue_vid (queue : list (option yt_data)) (id : string) : Prop :=
  exists d it, Some d ∈ queue /\ it ∈ items d
               /\ videoId it = Some id /\ id <> EmptyString.

(** [id] is a non-empty video id that the provider lists in some answer. *)
Definition provider_vid (w : world) (id : string) : Prop :=
  queue_vid (responses w) id.

(** [w'] is [w] after some requests: same environment, answers consumed. *)
Definition later_world (w w' : world) : Prop :=
  env w' = env w /\ exists k, responses w = k ++ responses w'.

Definition nonspace (c : ascii) : bool := negb (isspace c).

(** The inputs [parse_video_id] rejects: not a string, blank, or a text
    that, trimmed, no extraction rule matches. *)
Definition invalid_input (v : pyval) : Prop :=
  match v with
  | PyStr s =>
      strip s = EmptyString
      \/ Forall (λ p, re_search p (strip s) = None) patterns
  | _ => True
  end.

(** The invariant of the accumulator: [out] has no duplicates and [seen] is
    its set of elements. *)
Definition acc_ok (a : acc) : Prop :=
  NoDup (out a) /\ forall x, x ∈ seen a <-> x ∈ out a.

(** Merging the ids and the errors of one source into the accumulator. *)
Definition apply_source (ids errs : list string) (a : acc) : acc :=
  fold_left add_error errs (fold_left add_id ids a).

(** Sample worlds and inputs for the concrete instances. *)
Definition sample_env : env_t := Env (Some "key") None.

Definition sample_item (vid : string) : yt_item := Item (Some vid) None None.

Definition sample_pages : list (option yt_data) :=
  [Some (Data [sample_item "aaaaaaaaaaa"; Item None None None;
               sample_item "bbbbbbbbbbb"] (Some "page2"));
   Some (Data [sample_item "ccccccccccc"; sample_item "aaaaaaaaaaa"] None)].

Definition sample_world : world := World sample_env sample_pages.

(** A provider answer that lists a video id of three characters. *)
Definition odd_world : world :=
  World sample_env [Some (Data [sample_item "abc"] None)].

Definition sample_playlist_url : pyval :=
  PyStr "https://www.youtube.com/playlist?list=PL123".

(** The normaliser in the words of its description: the trimmed text of a
    segment, whether the segment is kept, and the [MM:SS] marker with
    minutes [floor(start / 60)] and seconds [floor(start mod 60)], where
    [start mod 60] is [start - 60 * floor(start / 60)]. *)
Definition spec_text (seg : segment) : string :=
  strip (default EmptyString (seg_text seg)).

Definition spec_kept (seg : segment) : bool := str_nonempty (spec_text seg).

Definition spec_minutes (start : Q) : Z := Qfloor (start / (60 # 1)).

Definition spec_seconds (start : Q) : Z :=
  Qfloor (start - (60 # 1) * inject_Z (spec_minutes start)).

Definition spec_line (include_timestamps : bool) (seg : segment) : string :=
  if include_timestamps then
    let start := default (0 # 1)%Q (seg_start seg) in
    "[" +:+ fmt_02d (spec_minutes start) +:+ ":"
        +:+ fmt_02d (spec_seconds start) +:+ "] " +:+ spec_text seg
  else spec_text seg.

Definition spec_lines (include_timestamps : bool) (segments : list segment)
    : list string :=
  map (spec_line include_timestamps) (List.filter spec_kept segments).

(** The start times on which the float operations are exact. *)
Definition in_range (start : Q) : Prop :=
  (0 <= start)%Q /\ (start < inject_Z (2 ^ 53))%Q.

(** The line that the loop body adds for a kept segment. *)
Definition code_line (include_timestamps : bool) (seg : segment) : string :=
  let text := strip (default EmptyString (seg_text seg)) in
  if include_timestamps then
    let start_seconds := default (0 # 1)%Q (seg_start seg) in
    let minutes := int_of_float (float_floordiv start_seconds (60 # 1)) in
    let seconds := int_of_float (float_mod start_seconds (60 # 1)) in
    "[" +:+ fmt_02d minutes +:+ ":" +:+ fmt_02d seconds +:+ "] " +:+ text
  else text.

Definition code_lines (include_timestamps : bool) (segments : list segment)
    : list string :=
  map (code_line include_timestamps) (List.filter spec_kept segments).

(** The double nearest to [-1e-20], and the double [1e19]. *)
Definition tiny_negative : Q :=
  (-6646139978924579 # 664613997892457936451903530140172288)%Q.

Definition huge_start : Q := (10000000000000000000 # 1)%Q.

(** A line that is not empty and does not end in whitespace. *)
Definition tight (l : string) : Prop := l <> EmptyString /\ rstrip l = l.

Definition test_segments : list segment :=
  [Segment (Some "Hello world") (Some (1 # 1)%Q);
   Segment (Some "   ") (Some (2 # 1)%Q);
   Segment None None;
   Segment (Some "Test") (Some (125 # 2)%Q);
   Segment (Some " late ") (Some (3725 # 1)%Q)].

(** A transcript provider that always answers, and two title tables. *)
Definition sample_fetch (video_id : string) (language_code : option string)
    : result (list segment * string) :=
  Ok ([Segment (Some "Hello world") (Some (1 # 1)%Q)], "en").

Definition same_titles (video_id : string) : result (option string) :=
  Ok (Some "Intro").

Definition clashing_titles (video_id : string) : result (option string) :=
  Ok (if decide (video_id = "ccccccccccc") then Some "Intro (2)"
      else Some "Intro").

Definition three_videos : payload :=
  Payload (Some [PyStr "aaaaaaaaaaa"; PyStr "bbbbbbbbbbb"; PyStr "ccccccccccc"])
    PyNone PyNone None None false.

Definition archive_names (r : result (response * world)) : list string :=
  match r with
  | Ok (StreamingResponse a _ _, _) => map fst a
  | _ => []
  end.

(** ** Notions for file names *)

(** The characters [sanitize_filename] removes. *)
Definition forbidden_chars : list ascii :=
  ["\"; "/"; ":"; "*"; "?"; dquote; "<"; ">"; "|"]%char.

(** [c in s] for a character [c] *)
Fixpoint has_char (c : ascii) (s : string) : bool :=
  match s with
  | EmptyString => false
  | String d s' => (code d =? code c)%N || has_char c s'
  end.

(** The name after the nine replacements and the trimming. *)
Definition cleaned_name (name : string) : string :=
  strip (remove_char "|" (remove_char ">" (remove_char "<"
    (remove_char dquote (remove_char "?" (remove_char "*"
      (remove_char ":" (remove_char "/" (remove_char "\" name))))))))).

(** [s.endswith(c)] for a character [c] *)
Fixpoint ends_with (c : ascii) (s : string) : bool :=
  match s with
  | EmptyString => false
  | String d EmptyString => (code d =? code c)%N
  | String _ s' => ends_with c s'
  end.

(** The names that successive calls of [unique_name] return for the base
    names [bases], the counter dictionary being passed from call to call as
    the archive loop does. *)
Fixpoint unique_names (bases : list string) (used : gmap string nat)
    : list string :=
  match bases with
  | [] => []
  | b :: bases' =>
      let '(n, used') := unique_name b used in n :: unique_names bases' used'
  end.

(** How often [b] occurs in [l]. *)
Definition uses (b : string) (l : list string) : nat :=
  length (filter (λ x, x = b) l).

(** A character that [sanitize_filename] does not keep at the ends of a
    name: one it removes, or whitespace. *)
Definition removed_or_space (c : ascii) : bool :=
  isspace c || existsb (λ d, (code c =? code d)%N) forbidden_chars.

(** [f"{base} ({k})"] *)
Definition numbered (base : string) (k : nat) : string :=
  base +:+ " (" +:+ nat_to_str k +:+ ")".

(** The name of a base that has been used [k] times before. *)
Definition kth_name (base : string) (k : nat) : string :=
  match k with
  | O => base
  | S _ => numbered base (S k)
  end.

(** ** Notions for the archive *)

(** The transcript text of a video, when both the transcript fetch and the
    title lookup return. *)
Definition fetched
    (provider_fetch : string -> option string -> result (list segment * string))
    (fetch_video_title : string -> result (option string))
    (language : option string) (include_timestamps : bool) (vid : string)
    : option string :=
  match fetch_transcript provider_fetch vid language include_timestamps with
  | Ok (text, _) =>
      match fetch_video_title vid with
      | Ok _ => Some text
      | Raise _ => None
      end
  | Raise _ => None
  end.



(** The languages the endpoint shows for a listing that did not end the
    request: the sorted tracks, none when the listing raised. *)
Definition listed_languages (l : Provider.attempt (list track)) : list track :=
  match l with
  | Provider.Done transcript_list => py_sorted language transcript_list
  | Provider.Fails _ => []
  end.

(** ** Notions for the normaliser and the optional parsers *)

(** Two texts put together as lines: an empty text adds nothing. *)
Definition join_texts (a b : string) : string :=
  if negb (str_nonempty a) then b
  else if negb (str_nonempty b) then a
  else a +:+ newline +:+ b.

(** A text at which a run of characters of the class [cs] ends: the end of
    the input, or a character outside the class. *)
Definition stops (cs : list class_item) (tail : string) : bool :=
  match tail with
  | EmptyString => true
  | String c _ => negb (in_class cs c)
  end.

(** A transcript library that has one English transcript of every video and
    cannot translate it. *)
Definition no_translation : Provider.exc :=
  Provider.Exc false false false true "not translatable".

Definition sample_fetched : Provider.fetched_t :=
  Provider.Fetched (Some "en") [Segment (Some "Hello world") (Some (1 # 1)%Q)].

Definition sample_api : Provider.api_t :=
  Provider.Api
    (λ _ language,
       match language with
       | None | Some "en" => Provider.Done sample_fetched
       | Some _ =>
           Provider.Fails (Provider.Exc false false true true "no such language")
       end)
    (λ _, Provider.Done
            (Provider.TranscriptList
               (λ _, Provider.Fails
                       (Provider.Exc false false true true "no manual transcript"))
               [Provider.Transcript "en" (Provider.Done sample_fetched)
                  (λ _, Provider.Fails no_translation)])).

(** * Properties *)

(** ** Strings *)

Local Arguments String.append !_ _ : simpl nomatch.

Lemma code_eqb_eq (a b : ascii) : (code a =? code b)%N = true <-> a = b.
Proof.
  unfold code. rewrite N.eqb_eq. split; [|by intros ->].
  intros H. rewrite <- (ascii_N_embedding a), <- (ascii_N_embedding b).
  by rewrite H.
Qed.

Lemma code_eqb_refl (a : ascii) : (code a =? code a)%N = true.
Proof. by apply code_eqb_eq. Qed.

Lemma app_assoc_s (a b c : string) : (a +:+ b) +:+ c = a +:+ (b +:+ c).
Proof. induction a as [|x a IH]; simpl; [done | by rewrite IH]. Qed.

Lemma app_empty_r (a : string) : a +:+ EmptyString = a.
Proof. induction a as [|x a IH]; simpl; [done | by rewrite IH]. Qed.

Lemma length_app_s (a b : string) :
  String.length (a +:+ b) = (String.length a + String.length b)%nat.
Proof. induction a as [|x a IH]; simpl; [done | by rewrite IH]. Qed.

Lemma substring_app_l (a b : string) :
  String.substring 0 (String.length a) (a +:+ b) = a.
Proof. induction a as [|x a IH]; simpl; [by destruct b | by rewrite IH]. Qed.

Lemma consumed_app (t s : string) : consumed (t +:+ s) s = t.
Proof.
  unfold consumed. rewrite length_app_s.
  replace (String.length t + String.length s - String.length s)%nat
    with (String.length t) by lia.
  apply substring_app_l.
Qed.

Lemma all_chars_app (P : ascii -> bool) (a b : string) :
  all_chars P (a +:+ b) = all_chars P a && all_chars P b.
Proof.
  induction a as [|x a IH]; simpl; [done|]. rewrite IH. by destruct (P x).
Qed.

Lemma strip_prefix_spec (t s s' : string) :
  strip_prefix t s = Some s' <-> s = t +:+ s'.
Proof.
  revert s. induction t as [|a t IH]; intros s; simpl.
  - split; [by intros [= ->] | by intros ->].
  - destruct s as [|b s]; [split; discriminate|].
    destruct (code a =? code b)%N eqn:E.
    + apply code_eqb_eq in E as ->. rewrite IH. split; [by intros -> | by intros [= ->]].
    + split; [discriminate|]. intros [= -> _]. by rewrite code_eqb_refl in E.
Qed.

Lemma strip_prefix_app (t s : string) : strip_prefix t (t +:+ s) = Some s.
Proof. by apply strip_prefix_spec. Qed.

(** ** The matcher consumes a text of the shape of its expression *)

Section MatcherFacts.
Context {A : Type}.
Implicit Types (k : string -> option A) (a : A).

Lemma rep_cls_sound cs n s k a :
  rep_cls cs n s k = Some a ->
  exists t s', s = t +:+ s' /\ String.length t = n
               /\ all_chars (in_class cs) t = true /\ k s' = Some a.
Proof.
  revert s. induction n as [|n IH]; intros s H; simpl in H.
  - by exists EmptyString, s.
  - destruct s as [|c s]; [done|].
    destruct (in_class cs c) eqn:E; [|done].
    destruct (IH _ H) as (t & s' & -> & Hl & Ha & Hk).
    exists (String c t), s'. simpl. by rewrite E, Hl.
Qed.

Lemma rep_cls_app cs n t s k :
  String.length t = n -> all_chars (in_class cs) t = true ->
  rep_cls cs n (t +:+ s) k = k s.
Proof.
  revert n. induction t as [|c t IH]; intros n Hl Ha; simpl in *.
  - by subst n.
  - destruct n as [|n]; [done|]. simpl.
    apply andb_prop in Ha as [-> Ha]. apply IH; [lia | done].
Qed.

Lemma star_cls_sound cs s k a :
  star_cls cs s k = Some a ->
  exists t s', s = t +:+ s' /\ all_chars (in_class cs) t = true /\ k s' = Some a.
Proof.
  induction s as [|c s IH]; simpl; intros H.
  - by exists EmptyString, EmptyString.
  - destruct (in_class cs c) eqn:E.
    + destruct (star_cls cs s k) as [a'|] eqn:E'.
      * injection H as ->.
        destruct (IH eq_refl) as (t & s' & -> & Ha & Hk).
        exists (String c t), s'. simpl. by rewrite E.
      * by exists EmptyString, (String c s).
    + by exists EmptyString, (String c s).
Qed.
End MatcherFacts.

Lemma rmatch_sound {A} (r : regex) (bol : bool) (s : string)
    (k : bool -> string -> option A) (a : A) :
  rmatch r bol s k = Some a ->
  exists t b' s', s = t +:+ s' /\ shape r t /\ k b' s' = Some a.
Proof.
  revert bol s k. induction r as [| | |u|cs|cs n|cs|r1 IH1 r2 IH2|r1 IH1 r2 IH2];
    intros bol s k H; simpl in H.
  - by exists EmptyString, bol, s.
  - destruct bol; [|done]. by exists EmptyString, true, s.
  - destruct (at_eol s); [|done]. by exists EmptyString, bol, s.
  - destruct (strip_prefix u s) as [s'|] eqn:E; [|done].
    apply strip_prefix_spec in E. by exists u, (bol && negb (str_nonempty u)), s'.
  - destruct s as [|c s]; [done|]. destruct (in_class cs c) eqn:E; [|done].
    exists (String c EmptyString), false, s. simpl. eauto.
  - apply rep_cls_sound in H as (t & s' & -> & Hl & Ha & Hk).
    exists t, (bol && (n =? 0)%nat), s'. by simpl.
  - destruct s as [|c s]; [done|]. destruct (in_class cs c) eqn:E; [|done].
    apply star_cls_sound in H as (t & s' & -> & Ha & Hk).
    exists (String c t), false, s'. simpl. by rewrite E.
  - apply IH1 in H as (t1 & b1 & s1 & -> & H1 & H).
    apply IH2 in H as (t2 & b2 & s2 & -> & H2 & H).
    exists (t1 +:+ t2), b2, s2. rewrite app_assoc_s. simpl. eauto 10.
  - destruct (rmatch r1 bol s k) as [a'|] eqn:E.
    + injection H as ->. apply IH1 in E as (t & b' & s' & -> & H1 & H).
      exists t, b', s'. simpl. eauto.
    + apply IH2 in H as (t & b' & s' & -> & H2 & H).
      exists t, b', s'. simpl. eauto.
Qed.

Local Arguments strip_prefix : simpl never.
Local Arguments in_class : simpl never.
Local Arguments rep_cls : simpl never.
Local Arguments star_cls : simpl never.
Local Arguments consumed : simpl never.

Lemma match_here_sound (p : pattern) (bol : bool) (s g : string) :
  match_here p bol s = Some g -> shape (grp p) g.
Proof.
  unfold match_here. intros H.
  apply rmatch_sound in H as (t0 & b1 & s1 & -> & _ & H).
  apply rmatch_sound in H as (t1 & b2 & s2 & -> & Hg & H).
  apply rmatch_sound in H as (t2 & b3 & s3 & -> & _ & H).
  injection H as <-. by rewrite consumed_app.
Qed.

Lemma search_sound (p : pattern) (bol : bool) (s g : string) :
  search_from p bol s = Some g -> shape (grp p) g.
Proof.
  revert bol. induction s as [|c s IH]; intros bol; simpl;
    destruct (match_here p bol _) as [g'|] eqn:E; try done.
  - intros [= <-]. by eapply match_here_sound.
  - intros [= <-]. by eapply match_here_sound.
  - apply IH.
Qed.

Lemma search_skip (p : pattern) (bol : bool) (c : ascii) (s : string) :
  match_here p bol (String c s) = None ->
  search_from p bol (String c s) = search_from p false s.
Proof. intros H. simpl. by rewrite H. Qed.

Lemma search_hit (p : pattern) (bol : bool) (s g : string) :
  match_here p bol s = Some g -> search_from p bol s = Some g.
Proof. intros H. destruct s; simpl; by rewrite H. Qed.

(** ** Occurrences of a marker *)

Lemma contains_app_r (m a b : string) :
  contains m a = true -> contains m (a +:+ b) = true.
Proof.
  induction a as [|c a IH]; simpl.
  - destruct (strip_prefix m EmptyString) as [r|] eqn:E; [|done].
    apply strip_prefix_spec in E. intros _.
    destruct m; [|done]. by destruct b.
  - destruct (strip_prefix m (String c a)) as [r|] eqn:E.
    + apply strip_prefix_spec in E. intros _.
      replace (String c (a +:+ b)) with (m +:+ (r +:+ b)).
      * by rewrite strip_prefix_app.
      * rewrite <- app_assoc_s, <- E. done.
    + intros H. rewrite (IH H). by destruct (strip_prefix m (String c (a +:+ b))).
Qed.

Lemma contains_eq (m h : string) :
  contains m h =
  match strip_prefix m h with
  | Some _ => true
  | None => match h with String _ h' => contains m h' | EmptyString => false end
  end.
Proof. by destruct h. Qed.

Lemma contains_tail (m : string) (c : ascii) (s : string) :
  contains m (String c s) = false -> contains m s = false.
Proof. simpl. by destruct (strip_prefix m (String c s)). Qed.

Lemma contains_head (m s : string) :
  contains m s = false -> strip_prefix m s = None.
Proof. destruct s; simpl; by destruct (strip_prefix m _). Qed.

Lemma contains_all_chars (P : ascii -> bool) (m t : string) :
  contains m t = true -> all_chars P t = true -> all_chars P m = true.
Proof.
  induction t as [|c t IH]; simpl.
  - destruct (strip_prefix m EmptyString) as [r|] eqn:E; [|done].
    apply strip_prefix_spec in E. by destruct m.
  - destruct (strip_prefix m (String c t)) as [r|] eqn:E.
    + apply strip_prefix_spec in E. intros _ H.
      change (all_chars P (String c t) = true) in H.
      rewrite E, all_chars_app in H. by apply andb_prop in H as [? _].
    + intros H1 H2. apply andb_prop in H2 as [_ H2]. by apply IH.
Qed.

(** A pattern whose prefix is a literal marker matches nowhere in a text
    that does not contain the marker. *)
Lemma search_lit_none (p : pattern) (m : string) (bol : bool) (s : string) :
  pre p = Lit m -> contains m s = false -> search_from p bol s = None.
Proof.
  intros Hp. revert bol. induction s as [|c s IH]; intros bol H.
  - simpl. unfold match_here. rewrite Hp. simpl.
    by rewrite (contains_head _ _ H).
  - rewrite search_skip; [apply IH; by eapply contains_tail|].
    unfold match_here. rewrite Hp. simpl rmatch.
    by rewrite (contains_head _ _ H).
Qed.

Lemma match_v_none (bol : bool) (s : string) :
  contains "v=" s = false -> match_here pat_v bol s = None.
Proof.
  intros H. unfold match_here, pat_v. simpl.
  rewrite (contains_head _ _ H).
  destruct s as [|c s]; [done|].
  destruct (in_class _ c); [|done].
  by rewrite (contains_head _ _ (contains_tail _ _ _ H)).
Qed.

Lemma search_v_none (bol : bool) (s : string) :
  contains "v=" s = false -> search_from pat_v bol s = None.
Proof.
  revert bol. induction s as [|c s IH]; intros bol H.
  - cbn [search_from]. by rewrite match_v_none.
  - rewrite search_skip; [apply IH; by eapply contains_tail|].
    by apply match_v_none.
Qed.

(** ** Trimming *)

Lemma id_char_nonspace (c : ascii) :
  in_class id_class c = true -> nonspace c = true.
Proof. destruct c as [[] [] [] [] [] [] [] []]; vm_compute; congruence. Qed.

Lemma id_chars_nonspace (t : string) :
  all_chars (in_class id_class) t = true -> all_chars nonspace t = true.
Proof.
  induction t as [|c t IH]; simpl; [done|].
  intros [H1 H2]%andb_prop. by rewrite (id_char_nonspace _ H1), IH.
Qed.

Lemma rstrip_cons (c : ascii) (s : string) :
  rstrip (String c s) =
  match rstrip s with
  | EmptyString => if isspace c then EmptyString else String c EmptyString
  | r => String c r
  end.
Proof. done. Qed.

Lemma rstrip_app_nonspace (a b : string) :
  a <> EmptyString -> all_chars nonspace a = true ->
  rstrip (a +:+ b) = a +:+ rstrip b.
Proof.
  induction a as [|c a IH]; [done|]. intros _ [Hc Ha]%andb_prop.
  unfold nonspace in Hc. apply negb_true_iff in Hc.
  change (rstrip (String c (a +:+ b)) = String c (a +:+ rstrip b)).
  rewrite rstrip_cons. destruct a as [|c' a].
  - simpl. rewrite Hc. by destruct (rstrip b).
  - by rewrite IH.
Qed.

Lemma lstrip_nonspace (c : ascii) (s : string) :
  nonspace c = true -> lstrip (String c s) = String c s.
Proof. unfold nonspace. intros H%negb_true_iff. simpl. by rewrite H. Qed.

Lemma rstrip_prefix (s : string) : exists ws, s = rstrip s +:+ ws.
Proof.
  induction s as [|c s [ws IH]]; [by exists EmptyString|].
  simpl. destruct (rstrip s) as [|c' r] eqn:E.
  - destruct (isspace c).
    + by exists (String c s).
    + exists s. done.
  - exists ws. simpl. simpl in IH. by rewrite <- IH.
Qed.

Lemma rstrip_app_keep (a b : string) :
  rstrip b <> EmptyString -> rstrip (a +:+ b) = a +:+ rstrip b.
Proof.
  intros Hb. induction a as [|c a IH]; [done|].
  change (rstrip (String c (a +:+ b)) = String c (a +:+ rstrip b)).
  rewrite rstrip_cons, IH.
  destruct (a +:+ rstrip b) eqn:E; [|done].
  destruct a; [done | discriminate].
Qed.

Lemma rstrip_idem (s : string) : rstrip (rstrip s) = rstrip s.
Proof.
  induction s as [|c s IH]; [done|]. rewrite rstrip_cons.
  destruct (rstrip s) as [|c' r] eqn:E.
  - destruct (isspace c) eqn:Ec; [done|]. simpl. by rewrite Ec.
  - rewrite rstrip_cons, IH. done.
Qed.

Lemma rstrip_newline (r : string) : rstrip (r +:+ newline) = rstrip r.
Proof.
  induction r as [|c r IH]; [done|].
  change (rstrip (String c (r +:+ newline)) = rstrip (String c r)).
  by rewrite !rstrip_cons, IH.
Qed.

Lemma length_rstrip (s : string) : (String.length (rstrip s) <= String.length s)%nat.
Proof.
  induction s as [|c s IH]; [done|]. rewrite rstrip_cons.
  destruct (rstrip s); [destruct (isspace c)|]; simpl in *; lia.
Qed.

Lemma contains_rstrip (m a b : string) :
  contains m (a +:+ b) = false -> contains m (a +:+ rstrip b) = false.
Proof.
  intros H. destruct (contains m (a +:+ rstrip b)) eqn:E; [|done].
  destruct (rstrip_prefix b) as [ws Hws].
  apply (contains_app_r _ _ ws) in E.
  rewrite app_assoc_s, <- Hws in E. congruence.
Qed.


(** ** Identifier parser: the rules and their order *)

Lemma valid_id_inv (t : string) :
  valid_id t = true ->
  String.length t = 11%nat /\ all_chars (in_class id_class) t = true.
Proof.
  unfold valid_id. intros [H1 H2]%andb_prop. by apply Nat.eqb_eq in H1.
Qed.

Lemma valid_id_of_shape (t : string) :
  shape (ClsRep id_class 11) t -> valid_id t = true.
Proof. intros [H1 H2]. unfold valid_id. by rewrite H1, H2. Qed.

Lemma match_lit_hit (p : pattern) (m : string) (cs : list class_item)
    (bol : bool) (t s : string) :
  p = Pattern (Lit m) (ClsRep cs (String.length t)) Eps ->
  all_chars (in_class cs) t = true ->
  match_here p bol (m +:+ t +:+ s) = Some t.
Proof.
  intros -> Ha. unfold match_here. simpl.
  rewrite strip_prefix_app, rep_cls_app by done. by rewrite consumed_app.
Qed.

Lemma match_bare_hit (t : string) :
  valid_id t = true -> match_here pat_bare true t = Some t.
Proof.
  intros [Hl Ha]%valid_id_inv. unfold match_here, pat_bare. simpl.
  rewrite <- (app_empty_r t) at 1.
  rewrite rep_cls_app by done. simpl.
  rewrite <- (app_empty_r t) at 1. by rewrite consumed_app.
Qed.

Lemma first_match_split (ps ps1 : list pattern) (p : pattern)
    (ps2 : list pattern) (url g : string) :
  ps = ps1 ++ p :: ps2 ->
  Forall (λ q, re_search q url = None) ps1 ->
  re_search p url = Some g ->
  first_match ps url = Some g.
Proof.
  intros -> H Hp. induction H as [|q ps1 Hq _ IH]; simpl.
  - by rewrite Hp.
  - by rewrite Hq.
Qed.

Lemma first_match_none (ps : list pattern) (url : string) :
  first_match ps url = None <-> Forall (λ p, re_search p url = None) ps.
Proof.
  induction ps as [|p ps IH]; simpl; [by split|].
  destruct (re_search p url) eqn:E.
  - split; [done|]. intros H. apply Forall_cons in H as [H _]. congruence.
  - rewrite IH. split; [by constructor | by intros [_ ?]%Forall_cons].
Qed.

Local Arguments first_match : simpl never.

Lemma parse_video_id_str (s : string) :
  parse_video_id (PyStr s) =
  if negb (str_nonempty (strip s)) then Raise (ValueError empty_input_msg)
  else match first_match patterns (strip s) with
       | Some g => Ok g
       | None =>
           Raise (ValueError
             ("Could not extract a valid YouTube video ID from: " +:+ strip s))
       end.
Proof. unfold parse_video_id. simpl. by destruct (str_nonempty (strip s)). Qed.

Lemma parse_video_id_not_str (v : pyval) :
  is_str v = false -> parse_video_id v = Raise (ValueError empty_input_msg).
Proof. by destruct v. Qed.

Local Arguments parse_video_id : simpl never.

Lemma strip_shape (c : ascii) (P tok tail : string) :
  all_chars nonspace (String c P) = true ->
  all_chars (in_class id_class) tok = true ->
  strip (String c P +:+ tok +:+ tail) = String c P +:+ tok +:+ rstrip tail.
Proof.
  intros HP Ht. unfold strip.
  change (String c P +:+ tok +:+ tail) with (String c (P +:+ tok +:+ tail)).
  rewrite lstrip_nonspace by (by apply andb_prop in HP as [? _]).
  change (String c (P +:+ tok +:+ tail)) with (String c P +:+ tok +:+ tail).
  rewrite <- !app_assoc_s. apply rstrip_app_nonspace; [done|].
  by rewrite all_chars_app, HP, id_chars_nonspace.
Qed.

Lemma id_chars_no_marker (m t : string) :
  all_chars (in_class id_class) m = false ->
  all_chars (in_class id_class) t = true ->
  contains m t = false.
Proof.
  intros Hm Ht. destruct (contains m t) eqn:E; [|done].
  by rewrite (contains_all_chars _ _ _ E Ht) in Hm.
Qed.

(** The shape of what [parse_video_id] returns. *)
Lemma first_match_valid (url g : string) :
  first_match patterns url = Some g -> valid_id g = true.
Proof.
  unfold patterns, first_match, re_search. intros H.
  repeat match type of H with
  | match search_from ?p ?b ?s with _ => _ end = _ =>
      let E := fresh "E" in
      destruct (search_from p b s) eqn:E;
      [injection H as ->; apply search_sound in E;
       by apply valid_id_of_shape|]
  end.
  done.
Qed.

Lemma parse_video_id_valid (u : pyval) (g : string) :
  parse_video_id u = Ok g -> valid_id g = true.
Proof.
  destruct u as [| | |s|]; try by rewrite parse_video_id_not_str.
  rewrite parse_video_id_str.
  destruct (str_nonempty (strip s)); cbn [negb]; [|done].
  destruct (first_match patterns (strip s)) eqn:E; [|done].
  intros [= <-]. by eapply first_match_valid.
Qed.

Lemma parse_bare_id (t : string) :
  valid_id t = true -> parse_video_id (PyStr t) = Ok t.
Proof.
  intros Hv. destruct (valid_id_inv _ Hv) as [Hl Ha].
  assert (strip t = t) as Hs.
  { destruct t as [|c t]; [done|].
    rewrite <- (app_empty_r (String c t)) at 1.
    rewrite <- (app_empty_r (String c t +:+ EmptyString)) at 1.
    rewrite app_assoc_s, strip_shape; rewrite ?app_empty_r; try done.
    by apply id_chars_nonspace. }
  rewrite parse_video_id_str, Hs. destruct t as [|c t]; [done|].
  cbn [str_nonempty negb].
  rewrite (first_match_split patterns [pat_v; pat_be; pat_embed; pat_shorts]
             pat_bare [] _ (String c t) eq_refl); [done| |].
  - repeat constructor.
    + apply search_v_none. by apply id_chars_no_marker.
    + apply (search_lit_none _ "be/"); [done|]. by apply id_chars_no_marker.
    + apply (search_lit_none _ "embed/"); [done|]. by apply id_chars_no_marker.
    + apply (search_lit_none _ "shorts/"); [done|]. by apply id_chars_no_marker.
  - apply search_hit. by apply match_bare_hit.
Qed.

(** *** A marker's first occurrence *)

Lemma app_eq_app_s (a b c d : string) :
  a +:+ b = c +:+ d ->
  (exists e, a = c +:+ e /\ d = e +:+ b) \/ (exists e, c = a +:+ e /\ b = e +:+ d).
Proof.
  revert c. induction a as [|x a IH]; intros c H.
  - right. by exists c.
  - destruct c as [|y c].
    + left. by exists (String x a).
    + simpl in H. injection H as -> H.
      destruct (IH _ H) as [(e & -> & ->)|(e & -> & ->)];
        [left | right]; by exists e.
Qed.

Lemma contains_prefix (m e : string) : contains m (m +:+ e) = true.
Proof. by rewrite contains_eq, strip_prefix_app. Qed.

Lemma no_straddle (m ps x : string) :
  borderless m -> ps <> EmptyString -> contains m ps = false ->
  strip_prefix m (ps +:+ m +:+ x) = None.
Proof.
  intros Hb Hps Hc. destruct (strip_prefix m _) as [r|] eqn:E; [|done].
  apply strip_prefix_spec in E.
  apply app_eq_app_s in E as [(e & -> & _)|(e & Hm & E)].
  { by rewrite contains_prefix in Hc. }
  apply app_eq_app_s in E as [(e2 & Hm2 & _)|(e2 & -> & _)].
  - rewrite (Hb ps e e2 Hm Hm2 Hps), app_empty_r in Hm. subst ps.
    rewrite <- (app_empty_r m) in Hc at 2. by rewrite contains_prefix in Hc.
  - apply (f_equal String.length) in Hm. rewrite !length_app_s in Hm.
    destruct ps; [done | simpl in Hm; lia].
Qed.

Lemma borderless_v : borderless "v=".
Proof.
  intros a e e' H1 H2 Ha.
  destruct a as [|c1 [|c2 [|c3 a]]]; [done| | |];
    simpl in H1; injection H1; intros; subst; done.
Qed.

Lemma borderless_be : borderless "be/".
Proof.
  intros a e e' H1 H2 Ha.
  destruct a as [|c1 [|c2 [|c3 [|c4 a]]]]; [done| | | |];
    simpl in H1; injection H1; intros; subst; done.
Qed.

Lemma borderless_embed : borderless "embed/".
Proof.
  intros a e e' H1 H2 Ha.
  destruct a as [|c1 [|c2 [|c3 [|c4 [|c5 [|c6 [|c7 a]]]]]]]; [done|..];
    simpl in H1; injection H1; intros; subst; done.
Qed.

Lemma borderless_shorts : borderless "shorts/".
Proof.
  intros a e e' H1 H2 Ha.
  destruct a as [|c1 [|c2 [|c3 [|c4 [|c5 [|c6 [|c7 [|c8 a]]]]]]]]; [done|..];
    simpl in H1; injection H1; intros; subst; done.
Qed.

Lemma match_lit_first (p : pattern) (m : string) (cs : list class_item)
    (bol : bool) (ps t rest g : string) :
  p = Pattern (Lit m) (ClsRep cs (String.length t)) Eps ->
  borderless m -> contains m ps = false ->
  all_chars (in_class cs) t = true ->
  match_here p bol (ps +:+ m +:+ t +:+ rest) = Some g -> g = t.
Proof.
  intros -> Hb Hc Ha. destruct ps as [|c ps].
  - change (EmptyString +:+ m +:+ t +:+ rest) with (m +:+ t +:+ rest).
    rewrite (match_lit_hit _ m cs) by done. by intros [= <-].
  - pose proof (no_straddle m (String c ps) (t +:+ rest) Hb
                  ltac:(done) Hc) as Hn.
    unfold match_here. simpl in *. by rewrite Hn.
Qed.

Lemma search_lit_first (p : pattern) (m : string) (cs : list class_item)
    (ps t rest : string) :
  p = Pattern (Lit m) (ClsRep cs (String.length t)) Eps ->
  borderless m -> contains m ps = false ->
  all_chars (in_class cs) t = true ->
  forall bol, search_from p bol (ps +:+ m +:+ t +:+ rest) = Some t.
Proof.
  intros Hp Hb Hc Ha. induction ps as [|c ps IH]; intros bol.
  - apply search_hit. by apply (match_lit_hit _ m cs).
  - change (String c ps +:+ m +:+ t +:+ rest)
      with (String c (ps +:+ m +:+ t +:+ rest)).
    cbn [search_from].
    destruct (match_here p bol _) as [g|] eqn:E.
    + f_equal. by eapply (match_lit_first p m cs bol (String c ps)).
    + apply IH. by eapply contains_tail.
Qed.

Lemma match_v_first (bol : bool) (ps t rest g : string) :
  contains "v=" ps = false -> valid_id t = true ->
  match_here pat_v bol (ps +:+ "v=" +:+ t +:+ rest) = Some g -> g = t.
Proof.
  intros Hc [Hl Ha]%valid_id_inv. unfold match_here, pat_v.
  destruct ps as [|c ps].
  - simpl. rewrite rep_cls_app by done. rewrite consumed_app. by intros [= <-].
  - pose proof (no_straddle "v=" (String c ps) (t +:+ rest) borderless_v
                  ltac:(done) Hc) as Hn.
    simpl in *. rewrite Hn.
    destruct (in_class _ c); [|done].
    destruct ps as [|c' ps].
    + simpl. rewrite rep_cls_app by done. rewrite consumed_app.
      by intros [= <-].
    + pose proof (no_straddle "v=" (String c' ps) (t +:+ rest) borderless_v
                    ltac:(done) (contains_tail _ _ _ Hc)) as Hn'.
      simpl in *. by rewrite Hn'.
Qed.

Lemma search_v_first (ps t rest : string) :
  contains "v=" ps = false -> valid_id t = true ->
  forall bol, search_from pat_v bol (ps +:+ "v=" +:+ t +:+ rest) = Some t.
Proof.
  intros Hc Hv. induction ps as [|c ps IH]; intros bol.
  - apply search_hit. destruct (valid_id_inv _ Hv) as [Hl Ha].
    unfold match_here, pat_v. simpl.
    rewrite rep_cls_app by done. by rewrite consumed_app.
  - change (String c ps +:+ "v=" +:+ t +:+ rest)
      with (String c (ps +:+ "v=" +:+ t +:+ rest)).
    cbn [search_from].
    destruct (match_here pat_v bol _) as [g|] eqn:E.
    + f_equal. by eapply (match_v_first bol (String c ps)).
    + apply IH. by eapply contains_tail.
Qed.

(** *** Trimming a URL *)

Lemma length_lstrip (s : string) : (String.length (lstrip s) <= String.length s)%nat.
Proof.
  induction s as [|c s IH]; [done|]. simpl. destruct (isspace c); simpl; lia.
Qed.

Lemma lstrip_app_fixed (a b : string) :
  a <> EmptyString -> lstrip a = a -> lstrip (a +:+ b) = a +:+ b.
Proof.
  destruct a as [|c a]; [done|]. intros _ H. simpl in *.
  destruct (isspace c); [|done].
  pose proof (length_lstrip a) as Hl. rewrite H in Hl. simpl in Hl. lia.
Qed.

Lemma strip_around (a tok tail : string) :
  a <> EmptyString -> lstrip a = a -> valid_id tok = true ->
  strip (a +:+ tok +:+ tail) = a +:+ tok +:+ rstrip tail.
Proof.
  intros Ha Hl [Hn Hc]%valid_id_inv. unfold strip.
  rewrite lstrip_app_fixed by done.
  assert (tok <> EmptyString) as Ht by (by destruct tok).
  assert (rstrip (tok +:+ tail) = tok +:+ rstrip tail) as E
    by (apply rstrip_app_nonspace; [done | by apply id_chars_nonspace]).
  rewrite rstrip_app_keep; rewrite E; [done|]. by destruct tok.
Qed.

Lemma lstrip_marker (pre m : string) :
  m <> EmptyString -> lstrip m = m -> lstrip pre = pre ->
  pre +:+ m <> EmptyString /\ lstrip (pre +:+ m) = pre +:+ m.
Proof.
  intros Hm Hlm Hl. destruct pre as [|c pre]; [done|].
  split; [done|]. by apply lstrip_app_fixed.
Qed.

(** *** The four URL shapes *)

Section Shapes.
Variables pre tok tail : string.
Hypothesis Hv : valid_id tok = true.
Hypothesis Hpre : lstrip pre = pre.

Lemma shape_trimmed (m : string) :
  m <> EmptyString -> lstrip m = m ->
  strip (pre +:+ m +:+ tok +:+ tail) = pre +:+ m +:+ tok +:+ rstrip tail
  /\ str_nonempty (pre +:+ m +:+ tok +:+ rstrip tail) = true.
Proof using Hv Hpre.
  intros Hm Hlm. destruct (lstrip_marker pre m Hm Hlm Hpre) as [Hne Hl].
  rewrite <- !(app_assoc_s pre m). rewrite strip_around by done.
  split; [done|]. by destruct (pre +:+ m).
Qed.

Lemma absent_trimmed (mark m : string) :
  contains mark (pre +:+ m +:+ tok +:+ tail) = false ->
  contains mark (pre +:+ m +:+ tok +:+ rstrip tail) = false.
Proof.
  rewrite <- !(app_assoc_s m tok), <- !(app_assoc_s pre).
  apply contains_rstrip.
Qed.

Lemma parse_v_shape :
  contains "v=" pre = false ->
  parse_video_id (PyStr (pre +:+ "v=" +:+ tok +:+ tail)) = Ok tok.
Proof using Hv Hpre.
  intros H0. destruct (shape_trimmed "v=") as [Hs Hn]; [done..|].
  rewrite parse_video_id_str, Hs, Hn. cbn [negb].
  rewrite (first_match_split patterns [] pat_v _ _ tok eq_refl); [done|done|].
  by apply search_v_first.
Qed.

Lemma parse_be_shape :
  contains "v=" (pre +:+ "be/" +:+ tok +:+ tail) = false ->
  contains "be/" pre = false ->
  parse_video_id (PyStr (pre +:+ "be/" +:+ tok +:+ tail)) = Ok tok.
Proof using Hv Hpre.
  intros H1%absent_trimmed H0.
  destruct (valid_id_inv _ Hv) as [Hl Ha].
  destruct (shape_trimmed "be/") as [Hs Hn]; [done..|].
  rewrite parse_video_id_str, Hs, Hn. cbn [negb].
  rewrite (first_match_split patterns [pat_v] pat_be _ _ tok eq_refl); [done| |].
  - repeat constructor. by apply search_v_none.
  - apply (search_lit_first _ "be/" id_class);
      [by rewrite Hl | apply borderless_be | done..].
Qed.

Lemma parse_embed_shape :
  contains "v=" (pre +:+ "embed/" +:+ tok +:+ tail) = false ->
  contains "be/" (pre +:+ "embed/" +:+ tok +:+ tail) = false ->
  contains "embed/" pre = false ->
  parse_video_id (PyStr (pre +:+ "embed/" +:+ tok +:+ tail)) = Ok tok.
Proof using Hv Hpre.
  intros H1%absent_trimmed H2%absent_trimmed H0.
  destruct (valid_id_inv _ Hv) as [Hl Ha].
  destruct (shape_trimmed "embed/") as [Hs Hn]; [done..|].
  rewrite parse_video_id_str, Hs, Hn. cbn [negb].
  rewrite (first_match_split patterns [pat_v; pat_be] pat_embed _ _ tok eq_refl);
    [done| |].
  - repeat constructor.
    + by apply search_v_none.
    + by apply (search_lit_none _ "be/").
  - apply (search_lit_first _ "embed/" id_class);
      [by rewrite Hl | apply borderless_embed | done..].
Qed.

Lemma parse_shorts_shape :
  contains "v=" (pre +:+ "shorts/" +:+ tok +:+ tail) = false ->
  contains "be/" (pre +:+ "shorts/" +:+ tok +:+ tail) = false ->
  contains "embed/" (pre +:+ "shorts/" +:+ tok +:+ tail) = false ->
  contains "shorts/" pre = false ->
  parse_video_id (PyStr (pre +:+ "shorts/" +:+ tok +:+ tail)) = Ok tok.
Proof using Hv Hpre.
  intros H1%absent_trimmed H2%absent_trimmed H3%absent_trimmed H0.
  destruct (valid_id_inv _ Hv) as [Hl Ha].
  destruct (shape_trimmed "shorts/") as [Hs Hn]; [done..|].
  rewrite parse_video_id_str, Hs, Hn. cbn [negb].
  rewrite (first_match_split patterns [pat_v; pat_be; pat_embed] pat_shorts
             _ _ tok eq_refl); [done| |].
  - repeat constructor.
    + by apply search_v_none.
    + by apply (search_lit_none _ "be/").
    + by apply (search_lit_none _ "embed/").
  - apply (search_lit_first _ "shorts/" id_class);
      [by rewrite Hl | apply borderless_shorts | done..].
Qed.
End Shapes.

Lemma parse_watch_shape (tok tail : string) :
  valid_id tok = true ->
  parse_video_id (PyStr ("https://www.youtube.com/watch?v=" +:+ tok +:+ tail))
  = Ok tok.
Proof.
  intros Hv.
  exact (parse_v_shape "https://www.youtube.com/watch?" tok tail Hv
           eq_refl eq_refl).
Qed.

(** *** What each rule matches *)

Lemma lit_token_inv (m : string) (bol : bool) (s g : string) :
  rmatch (Lit m) bol s (fun b1 s1 =>
    rmatch (ClsRep id_class 11) b1 s1 (fun b2 s2 =>
      rmatch Eps b2 s2 (fun _ _ => Some (consumed s1 s2)))) = Some g ->
  exists b, s = m +:+ g +:+ b /\ valid_id g = true.
Proof.
  cbn [rmatch]. destruct (strip_prefix m s) as [s1|] eqn:E; [|done].
  apply strip_prefix_spec in E as ->.
  intros (t & s' & -> & Hl & Ha & Hk)%rep_cls_sound.
  injection Hk as <-. rewrite consumed_app. exists s'. split; [done|].
  unfold valid_id. by rewrite Hl, Ha.
Qed.

Lemma match_lit_inv (p : pattern) (m : string) (bol : bool) (s g : string) :
  p = Pattern (Lit m) (ClsRep id_class 11) Eps ->
  match_here p bol s = Some g ->
  exists a b, s = a +:+ m +:+ g +:+ b /\ valid_id g = true.
Proof.
  intros -> H. apply lit_token_inv in H as (b & -> & Hv).
  by exists EmptyString, b.
Qed.

Lemma match_v_inv (bol : bool) (s g : string) :
  match_here pat_v bol s = Some g ->
  exists a b, s = a +:+ "v=" +:+ g +:+ b /\ valid_id g = true.
Proof.
  unfold match_here, pat_v. cbn [pre grp post].
  change (rmatch (Alt ?r1 ?r2) bol s ?k)
    with (match rmatch r1 bol s k with
          | Some a => Some a
          | None => rmatch r2 bol s k
          end).
  destruct (rmatch (Cat _ _) bol s _) as [g'|] eqn:E.
  - intros [= ->]. revert E.
    change (rmatch (Cat ?r1 ?r2) bol s ?k)
      with (rmatch r1 bol s (fun b' s' => rmatch r2 b' s' k)).
    destruct s as [|c s]; [done|].
    change (rmatch (Cls ?cs) bol (String c s) ?k)
      with (if in_class cs c then k false s else None).
    destruct (in_class _ c); [|done].
    intros (b & -> & Hv)%lit_token_inv.
    by exists (String c EmptyString), b.
  - intros (b & -> & Hv)%lit_token_inv. by exists EmptyString, b.
Qed.

Lemma match_v_hit (bol : bool) (g b : string) :
  valid_id g = true -> match_here pat_v bol ("v=" +:+ g +:+ b) = Some g.
Proof.
  intros [Hl Ha]%valid_id_inv. unfold match_here, pat_v. simpl.
  rewrite rep_cls_app by done. by rewrite consumed_app.
Qed.

Lemma search_position (p : pattern) (t : string) :
  forall bol g,
  search_from p bol t = Some g ->
  exists a r bol', t = a +:+ r /\ match_here p bol' r = Some g.
Proof.
  induction t as [|c t IH]; intros bol g; cbn [search_from];
    destruct (match_here p bol _) as [g'|] eqn:E; try done.
  - intros [= <-]. by exists EmptyString, EmptyString, bol.
  - intros [= <-]. by exists EmptyString, (String c t), bol.
  - intros (a & r & bol' & -> & H)%IH. by exists (String c a), r, bol'.
Qed.

Lemma search_reaches (p : pattern) (rest : string) :
  (forall bol, match_here p bol rest <> None) ->
  forall a bol, search_from p bol (a +:+ rest) <> None.
Proof.
  intros H a. induction a as [|c a IH]; intros bol.
  - change (EmptyString +:+ rest) with rest. specialize (H bol).
    destruct rest; cbn [search_from]; by destruct (match_here p bol _).
  - change (String c a +:+ rest) with (String c (a +:+ rest)).
    cbn [search_from]. destruct (match_here p bol _); [done | apply IH].
Qed.

Lemma lit_rule_some (p : pattern) (m t g : string) :
  p = Pattern (Lit m) (ClsRep id_class 11) Eps ->
  re_search p t = Some g -> token_after m g t.
Proof.
  intros Hp (a & r & bol & -> & H)%search_position.
  apply (match_lit_inv p m) in H as (a' & b & -> & Hv); [|done].
  exists (a +:+ a'), b. by rewrite !app_assoc_s.
Qed.

Lemma lit_rule_none (p : pattern) (m t : string) :
  p = Pattern (Lit m) (ClsRep id_class 11) Eps ->
  re_search p t = None <-> ~ follows m t.
Proof.
  intros Hp. split.
  - intros Hn (g & a & b & -> & Hv).
    apply (search_reaches p (m +:+ g +:+ b)) with (a := a) (bol := true);
      [|exact Hn].
    intros bol. destruct (valid_id_inv _ Hv) as [Hl Ha].
    rewrite (match_lit_hit p m id_class); [done | by rewrite Hl | done].
  - intros Hf. destruct (re_search p t) as [g|] eqn:E; [|done].
    exfalso. apply Hf. exists g. by apply (lit_rule_some p).
Qed.

Lemma v_rule_some (t g : string) :
  re_search pat_v t = Some g -> token_after "v=" g t.
Proof.
  intros (a & r & bol & -> & H)%search_position.
  apply match_v_inv in H as (a' & b & -> & Hv).
  exists (a +:+ a'), b. by rewrite !app_assoc_s.
Qed.

Lemma v_rule_none (t : string) :
  re_search pat_v t = None <-> ~ follows "v=" t.
Proof.
  split.
  - intros Hn (g & a & b & -> & Hv).
    apply (search_reaches pat_v ("v=" +:+ g +:+ b)) with (a := a) (bol := true);
      [|exact Hn].
    intros bol. by rewrite match_v_hit.
  - intros Hf. destruct (re_search pat_v t) as [g|] eqn:E; [|done].
    exfalso. apply Hf. exists g. by apply v_rule_some.
Qed.

(** The last rule is tried at the start of the input only, and needs the
    input to end after the token. *)
Lemma search_bol_false (p : pattern) (s : string) :
  pre p = Bol -> search_from p false s = None.
Proof.
  intros Hp. induction s as [|c s IH]; cbn [search_from]; unfold match_here;
    rewrite Hp; cbn [rmatch]; done.
Qed.

Lemma bare_rule (t g : string) :
  re_search pat_bare t = Some g
  <-> exists rest, t = g +:+ rest /\ valid_id g = true /\ at_eol rest = true.
Proof.
  assert (re_search pat_bare t = match_here pat_bare true t) as ->.
  { unfold re_search. destruct t as [|c t]; cbn [search_from];
      destruct (match_here pat_bare true _); try done.
    by apply search_bol_false. }
  unfold match_here, pat_bare. cbn [pre grp post rmatch]. split.
  - intros (g' & rest & -> & Hl & Ha & Hk)%rep_cls_sound.
    destruct (at_eol rest) eqn:E; [|done]. injection Hk as <-.
    rewrite consumed_app. exists rest. split; [done|]. split; [|done].
    unfold valid_id. by rewrite Hl, Ha.
  - intros (rest & -> & [Hl Ha]%valid_id_inv & He).
    rewrite rep_cls_app by done. by rewrite He, consumed_app.
Qed.

Lemma at_eol_inv (rest : string) :
  at_eol rest = true -> rest = EmptyString \/ rest = newline.
Proof.
  destruct rest as [|c [|c' rest]]; simpl; try done; [by left|].
  intros H. right. unfold newline. f_equal.
  apply (proj1 (code_eqb_eq c (ascii_of_nat 10))). exact H.
Qed.

Lemma bare_rule_strip (s g : string) :
  re_search pat_bare (strip s) = Some g
  <-> strip s = g /\ valid_id g = true.
Proof.
  rewrite bare_rule. split.
  - intros (rest & E & Hv & [->| ->]%at_eol_inv).
    + by rewrite app_empty_r in E.
    + exfalso. assert (rstrip (strip s) = strip s) as Hr by apply rstrip_idem.
      rewrite E, rstrip_newline in Hr.
      pose proof (length_rstrip g) as Hl. rewrite Hr, length_app_s in Hl.
      simpl in Hl. lia.
  - intros [-> Hv]. exists EmptyString. by rewrite app_empty_r.
Qed.

Lemma first_match_some (ps : list pattern) (url g : string) :
  first_match ps url = Some g
  <-> exists ps1 p ps2,
        ps = ps1 ++ p :: ps2
        /\ Forall (λ q, re_search q url = None) ps1
        /\ re_search p url = Some g.
Proof.
  split.
  - induction ps as [|p ps IH]; [done|].
    change (first_match (p :: ps) url)
      with (match re_search p url with
            | Some g => Some g
            | None => first_match ps url
            end).
    destruct (re_search p url) as [g'|] eqn:E.
    + intros [= ->]. by exists [], p, ps.
    + intros (ps1 & q & ps2 & -> & Hn & Hq)%IH.
      exists (p :: ps1), q, ps2. split; [done|]. split; [by constructor|done].
  - intros (ps1 & p & ps2 & E & Hn & Hp). by eapply first_match_split.
Qed.

(** *** A token after a marker, in any surrounding text *)

Lemma lstrip_suffix (s : string) : exists ws, s = ws +:+ lstrip s.
Proof.
  induction s as [|c s [ws IH]]; [by exists EmptyString|]. simpl.
  destruct (isspace c); [|by exists EmptyString].
  exists (String c ws). simpl. by rewrite <- IH.
Qed.

Lemma follows_strip (m s : string) : follows m (strip s) -> follows m s.
Proof.
  intros (g & a & b & E & Hv). unfold strip in E.
  destruct (lstrip_suffix s) as [w1 H1].
  destruct (rstrip_prefix (lstrip s)) as [w2 H2].
  exists g, (w1 +:+ a), (b +:+ w2). split; [|done].
  rewrite H1, H2, E. by rewrite !app_assoc_s.
Qed.

Lemma lstrip_app_start (pre : string) (c : ascii) (x : string) :
  isspace c = false ->
  lstrip (pre +:+ String c x) = lstrip pre +:+ String c x.
Proof.
  intros Hc. induction pre as [|d pre IH]; simpl; [by rewrite Hc|].
  by destruct (isspace d).
Qed.

Lemma lstrip_idem (s : string) : lstrip (lstrip s) = lstrip s.
Proof.
  induction s as [|c s IH]; [done|]. simpl.
  destruct (isspace c) eqn:E; [done|]. simpl. by rewrite E.
Qed.

Lemma contains_lstrip (m pre : string) :
  contains m pre = false -> contains m (lstrip pre) = false.
Proof.
  induction pre as [|c pre IH]; [done|]. intros H. simpl.
  destruct (isspace c); [|done]. apply IH. by eapply contains_tail.
Qed.

Lemma strip_url (pre : string) (c : ascii) (m tok tail : string) :
  isspace c = false -> valid_id tok = true ->
  strip (pre +:+ String c m +:+ tok +:+ tail)
  = lstrip pre +:+ String c m +:+ tok +:+ rstrip tail.
Proof.
  intros Hc Hv. unfold strip.
  change (String c m +:+ tok +:+ tail) with (String c (m +:+ tok +:+ tail)).
  rewrite lstrip_app_start by done.
  change (String c (m +:+ tok +:+ tail)) with (String c m +:+ tok +:+ tail).
  rewrite <- (app_assoc_s (lstrip pre)).
  destruct (valid_id_inv _ Hv) as [Hl Ha].
  assert (tok <> EmptyString) as Ht by (by destruct tok).
  assert (rstrip (tok +:+ tail) = tok +:+ rstrip tail) as E
    by (apply rstrip_app_nonspace; [done | by apply id_chars_nonspace]).
  rewrite rstrip_app_keep; rewrite E; [by rewrite app_assoc_s|].
  by destruct tok.
Qed.

Lemma parse_v_token (pre tok tail : string) :
  valid_id tok = true -> contains "v=" pre = false ->
  parse_video_id (PyStr (pre +:+ "v=" +:+ tok +:+ tail)) = Ok tok.
Proof.
  intros Hv Hc. rewrite parse_video_id_str.
  rewrite (strip_url pre "v" "=" tok tail) by done.
  replace (str_nonempty (lstrip pre +:+ "v=" +:+ tok +:+ rstrip tail)) with true
    by (by destruct (lstrip pre)).
  cbn [negb].
  rewrite (first_match_split patterns [] pat_v _ _ tok eq_refl); [done|done|].
  apply search_v_first; [by apply contains_lstrip | done].
Qed.

Lemma parse_lit_token (ps1 ps2 : list pattern) (p : pattern) (c : ascii)
    (m pre tok tail : string) :
  patterns = ps1 ++ p :: ps2 ->
  p = Pattern (Lit (String c m)) (ClsRep id_class 11) Eps ->
  borderless (String c m) -> isspace c = false ->
  valid_id tok = true ->
  Forall (λ q, re_search q (strip (pre +:+ String c m +:+ tok +:+ tail)) = None)
    ps1 ->
  contains (String c m) pre = false ->
  parse_video_id (PyStr (pre +:+ String c m +:+ tok +:+ tail)) = Ok tok.
Proof.
  intros Hps Hp Hb Hc Hv Hn Hpre. rewrite parse_video_id_str.
  rewrite (strip_url pre c m tok tail) in * by done.
  replace (str_nonempty (lstrip pre +:+ String c m +:+ tok +:+ rstrip tail))
    with true by (by destruct (lstrip pre)).
  cbn [negb].
  rewrite (first_match_split patterns ps1 p ps2 _ tok Hps Hn); [done|].
  destruct (valid_id_inv _ Hv) as [Hl Ha].
  apply (search_lit_first p (String c m) id_class);
    [by rewrite Hl | done | by apply contains_lstrip | done].
Qed.

Lemma no_v_rule (url : string) :
  ~ follows "v=" url -> re_search pat_v (strip url) = None.
Proof. intros H. apply v_rule_none. intros Hf. by apply H, follows_strip. Qed.

Lemma no_lit_rule (p : pattern) (m url : string) :
  p = Pattern (Lit m) (ClsRep id_class 11) Eps ->
  ~ follows m url -> re_search p (strip url) = None.
Proof.
  intros Hp H. apply (lit_rule_none p m); [done|].
  intros Hf. by apply H, follows_strip.
Qed.

(** C3 (as amended): the extraction rules are tried in the order v=, be/,
    embed/, shorts/, whole-input token, and the capture of the first rule
    that matches the trimmed input is returned. A marker rule matches
    exactly when its marker is directly followed somewhere by eleven token
    characters, which it captures; the last rule matches exactly when the
    entire trimmed input is an eleven-character token. Hence a valid token
    is returned as it stands when it is the whole input, and when it
    follows the first v=, be/, embed/ or shorts/ of a text that no earlier
    rule matches, whatever the scheme, the host and the text after the
    token. *)
Theorem parse_video_id_rule_order :
  patterns = [pat_v; pat_be; pat_embed; pat_shorts; pat_bare]
  /\ (forall t,
        (re_search pat_v t = None <-> ~ follows "v=" t)
        /\ (re_search pat_be t = None <-> ~ follows "be/" t)
        /\ (re_search pat_embed t = None <-> ~ follows "embed/" t)
        /\ (re_search pat_shorts t = None <-> ~ follows "shorts/" t))
  /\ (forall t g,
        (re_search pat_v t = Some g -> token_after "v=" g t)
        /\ (re_search pat_be t = Some g -> token_after "be/" g t)
        /\ (re_search pat_embed t = Some g -> token_after "embed/" g t)
        /\ (re_search pat_shorts t = Some g -> token_after "shorts/" g t))
  /\ (forall s g,
        re_search pat_bare (strip s) = Some g
        <-> strip s = g /\ valid_id g = true)
  /\ (forall s g,
        parse_video_id (PyStr s) = Ok g
        <-> str_nonempty (strip s) = true
            /\ exists ps1 p ps2,
                 patterns = ps1 ++ p :: ps2
                 /\ Forall (λ q, re_search q (strip s) = None) ps1
                 /\ re_search p (strip s) = Some g)
  /\ (forall tok, valid_id tok = true -> parse_video_id (PyStr tok) = Ok tok)
  /\ (forall pre tok tail,
        valid_id tok = true ->
        contains "v=" pre = false ->
        parse_video_id (PyStr (pre +:+ "v=" +:+ tok +:+ tail)) = Ok tok)
  /\ (forall pre tok tail,
        valid_id tok = true ->
        ~ follows "v=" (pre +:+ "be/" +:+ tok +:+ tail) ->
        contains "be/" pre = false ->
        parse_video_id (PyStr (pre +:+ "be/" +:+ tok +:+ tail)) = Ok tok)
  /\ (forall pre tok tail,
        valid_id tok = true ->
        ~ follows "v=" (pre +:+ "embed/" +:+ tok +:+ tail) ->
        ~ follows "be/" (pre +:+ "embed/" +:+ tok +:+ tail) ->
        contains "embed/" pre = false ->
        parse_video_id (PyStr (pre +:+ "embed/" +:+ tok +:+ tail)) = Ok tok)
  /\ (forall pre tok tail,
        valid_id tok = true ->
        ~ follows "v=" (pre +:+ "shorts/" +:+ tok +:+ tail) ->
        ~ follows "be/" (pre +:+ "shorts/" +:+ tok +:+ tail) ->
        ~ follows "embed/" (pre +:+ "shorts/" +:+ tok +:+ tail) ->
        contains "shorts/" pre = false ->
        parse_video_id (PyStr (pre +:+ "shorts/" +:+ tok +:+ tail)) = Ok tok).
Proof.
  split; [done|]. split.
  { intros t. split; [apply v_rule_none|].
    split; [by apply (lit_rule_none pat_be)|].
    split; [by apply (lit_rule_none pat_embed)
           | by apply (lit_rule_none pat_shorts)]. }
  split.
  { intros t g. split; [apply v_rule_some|].
    split; [by apply (lit_rule_some pat_be)|].
    split; [by apply (lit_rule_some pat_embed)
           | by apply (lit_rule_some pat_shorts)]. }
  split; [exact bare_rule_strip|]. split.
  { intros s g. rewrite parse_video_id_str, <- first_match_some.
    destruct (str_nonempty (strip s)); cbn [negb].
    - destruct (first_match patterns (strip s)) as [g'|].
      + split; [by intros [= ->] | by intros [_ [= ->]]].
      + split; [done | by intros [_ ?]].
    - split; [done | by intros [? _]]. }
  split; [exact parse_bare_id|].
  split; [exact parse_v_token|]. split.
  { intros pre tok tail Hv H1 H0.
    apply (parse_lit_token [pat_v] [pat_embed; pat_shorts; pat_bare] pat_be);
      try done; [apply borderless_be|].
    repeat constructor. by apply no_v_rule. }
  split.
  { intros pre tok tail Hv H1 H2 H0.
    apply (parse_lit_token [pat_v; pat_be] [pat_shorts; pat_bare] pat_embed);
      try done; [apply borderless_embed|].
    repeat constructor; [by apply no_v_rule | by apply (no_lit_rule _ "be/")]. }
  intros pre tok tail Hv H1 H2 H3 H0.
  apply (parse_lit_token [pat_v; pat_be; pat_embed] [pat_bare] pat_shorts);
    try done; [apply borderless_shorts|].
  repeat constructor;
    [by apply no_v_rule | by apply (no_lit_rule _ "be/")
     | by apply (no_lit_rule _ "embed/")].
Qed.

Lemma parse_video_id_rule_order_witness :
  parse_video_id (PyStr "https://www.youtube.com/watch?v=dQw4w9WgXcQ&t=42s")
    = Ok "dQw4w9WgXcQ"
  /\ parse_video_id (PyStr "https://youtu.be/dQw4w9WgXcQ?v=1") = Ok "dQw4w9WgXcQ"
  /\ parse_video_id (PyStr " https://www.youtube.com/embed/dQw4w9WgXcQ ")
     = Ok "dQw4w9WgXcQ"
  /\ parse_video_id (PyStr "http://m.youtube.com/shorts/dQw4w9WgXcQ?feature=share")
     = Ok "dQw4w9WgXcQ"
  /\ parse_video_id (PyStr " dQw4w9WgXcQ ") = Ok "dQw4w9WgXcQ"
  /\ re_search pat_bare (strip "this-is-not-a-video-id") = None.
Proof.
  destruct parse_video_id_rule_order
    as (_ & Hrule & _ & Hbare & Hord & _ & Hw & Hs & He & Hsh).
  assert (forall t, re_search pat_v t = None -> ~ follows "v=" t) as Hv
    by (intros t; apply Hrule).
  assert (forall t, re_search pat_be t = None -> ~ follows "be/" t) as Hb
    by (intros t; apply Hrule).
  assert (forall t, re_search pat_embed t = None -> ~ follows "embed/" t) as Hm
    by (intros t; apply Hrule).
  split; [exact (Hw "https://www.youtube.com/watch?" "dQw4w9WgXcQ" "&t=42s"
                   eq_refl eq_refl)|].
  split.
  { apply (Hs "https://youtu." "dQw4w9WgXcQ" "?v=1");
      [reflexivity | apply Hv; reflexivity | reflexivity]. }
  split.
  { apply (He " https://www.youtube.com/" "dQw4w9WgXcQ" " ");
      [reflexivity | apply Hv; reflexivity | apply Hb; reflexivity
       | reflexivity]. }
  split.
  { apply (Hsh "http://m.youtube.com/" "dQw4w9WgXcQ" "?feature=share");
      [reflexivity | apply Hv; reflexivity | apply Hb; reflexivity
       | apply Hm; reflexivity | reflexivity]. }
  split.
  - apply Hord. split; [reflexivity|].
    exists [pat_v; pat_be; pat_embed; pat_shorts], pat_bare, [].
    split; [reflexivity|]. split; [by repeat constructor | reflexivity].
  - destruct (re_search pat_bare (strip "this-is-not-a-video-id")) as [g|] eqn:E;
      [|reflexivity].
    apply Hbare in E as [<- E]. discriminate E.
Defined.

(** C3 as stated fails: a token in the youtu.be/ shape is not returned when
    a [v=] parameter with a token follows it, the [v=] rule coming
    first. *)
Lemma parse_video_id_shape_counterexample :
  ~ (forall pre tok tail,
       valid_id tok = true ->
       parse_video_id (PyStr (pre +:+ "youtu.be/" +:+ tok +:+ tail)) = Ok tok).
Proof.
  intros H.
  specialize (H "https://" "AAAAAAAAAAA" "?v=BBBBBBBBBBB" eq_refl).
  vm_compute in H. discriminate H.
Qed.

Example parse_video_id_two_markers :
  parse_video_id (PyStr "https://youtu.be/AAAAAAAAAAA?v=BBBBBBBBBBB")
  = Ok "BBBBBBBBBBB".
Proof. reflexivity. Qed.

(** ** Identifier parser: failures *)

Lemma str_nonempty_false (s : string) :
  str_nonempty s = false <-> s = EmptyString.
Proof. by destruct s. Qed.

Lemma contains_suffix (a x : string) : contains x (a +:+ x) = true.
Proof.
  induction a as [|c a IH].
  - simpl. rewrite contains_eq. rewrite <- (app_empty_r x) at 2.
    by rewrite strip_prefix_app.
  - simpl. rewrite IH. by destruct (strip_prefix x (String c (a +:+ x))).
Qed.

(** C8 (as amended): [parse_video_id] fails exactly on the invalid inputs,
    a value that is not a string, a blank string, or a text that no rule
    matches once trimmed, and every failure is a [ValueError]. When a
    non-blank text matches no rule the message ends with the trimmed input;
    for a non-string or a blank string the message is the fixed text
    "URL must be a non-empty string". In particular "https://example.com"
    is rejected, by name. *)
Theorem parse_video_id_failure :
  (forall v, (exists e, parse_video_id v = Raise e) <-> invalid_input v)
  /\ (forall v e, parse_video_id v = Raise e ->
        exists msg, e = ValueError msg /\
        match v with
        | PyStr s =>
            if str_nonempty (strip s)
            then msg = "Could not extract a valid YouTube video ID from: "
                         +:+ strip s
                 /\ contains (strip s) msg = true
            else msg = empty_input_msg
        | _ => msg = empty_input_msg
        end)
  /\ parse_video_id (PyStr "https://example.com")
     = Raise (ValueError
         "Could not extract a valid YouTube video ID from: https://example.com").
Proof.
  split; [|split; [|by vm_compute]].
  - intros v. destruct v as [| | |s|]; unfold invalid_input;
      try (rewrite parse_video_id_not_str by done;
           split; [done | intros _; by eexists]).
    rewrite parse_video_id_str, <- first_match_none, <- str_nonempty_false.
    destruct (str_nonempty (strip s)); cbn [negb].
    + destruct (first_match patterns (strip s)).
      * split; [by intros [? ?] | by intros [?|?]].
      * split; [by right | intros _; by eexists].
    + split; [by left | intros _; by eexists].
  - intros v e. destruct v as [| | |s|];
      try (rewrite parse_video_id_not_str by done; intros [= <-]; by eexists).
    rewrite parse_video_id_str.
    destruct (str_nonempty (strip s)); cbn [negb];
      [|intros [= <-]; by eexists].
    destruct (first_match patterns (strip s)); [done|].
    intros [= <-]. eexists. split; [reflexivity|]. split; [reflexivity|].
    exact (contains_suffix
             "Could not extract a valid YouTube video ID from: " (strip s)).
Qed.

Lemma parse_video_id_failure_witness :
  exists msg,
    ValueError
      "Could not extract a valid YouTube video ID from: https://example.com"
    = ValueError msg
    /\ msg = "Could not extract a valid YouTube video ID from: "
               +:+ strip "https://example.com"
    /\ contains (strip "https://example.com") msg = true.
Proof.
  exact (proj1 (proj2 parse_video_id_failure)
           (PyStr "https://example.com") _ eq_refl).
Defined.

(** C8 as stated fails: for the input [None] the error message is the fixed
    text, which does not name the input. *)
Lemma parse_video_id_message_counterexample :
  ~ (forall v msg, parse_video_id v = Raise (ValueError msg) ->
       contains (py_str v) msg = true).
Proof.
  intros H. specialize (H PyNone _ eq_refl). vm_compute in H. discriminate.
Qed.

Lemma py_re_search_str (p : pattern) (v : pyval) :
  (if negb (is_str v) then Ok None else py_re_search p v) = Ok (found p v).
Proof. by destruct v. Qed.

Lemma parse_playlist_id_found (v : pyval) :
  parse_playlist_id v = Ok (found pat_list v).
Proof. apply py_re_search_str. Qed.

Lemma parse_channel_id_found (v : pyval) :
  parse_channel_id v = Ok (found pat_channel v).
Proof. apply py_re_search_str. Qed.

Lemma parse_channel_handle_found (v : pyval) :
  parse_channel_handle v = Ok (found pat_handle v).
Proof. apply py_re_search_str. Qed.

(** ** Playlist, channel and handle parsers *)

(** C10: the three optional parsers never raise: on every value each
    returns normally, [None] on a value that is not a string (the search,
    which would raise [TypeError] there, is not reached) and otherwise
    [None] or an identifier of the shape its pattern captures: a non-empty
    run of id characters; "UC" and 22 id characters; a non-empty run of
    handle characters. *)
Theorem optional_parsers_total (v : pyval) :
  (exists o, parse_playlist_id v = Ok o
     /\ (if is_str v then True else o = None)
     /\ match o with
        | None => True
        | Some g => str_nonempty g = true
                    /\ all_chars (in_class id_class) g = true
        end)
  /\ (exists o, parse_channel_id v = Ok o
        /\ (if is_str v then True else o = None)
        /\ match o with
           | None => True
           | Some g => exists t, g = "UC" +:+ t /\ String.length t = 22%nat
                                 /\ all_chars (in_class id_class) t = true
           end)
  /\ (exists o, parse_channel_handle v = Ok o
        /\ (if is_str v then True else o = None)
        /\ match o with
           | None => True
           | Some g => str_nonempty g = true
                       /\ all_chars (in_class handle_class) g = true
           end).
Proof.
  rewrite parse_playlist_id_found, parse_channel_id_found,
    parse_channel_handle_found.
  split; [|split]; (eexists; split; [reflexivity|]);
    (split; [by destruct v|]);
    destruct v as [| | |s|]; simpl; try done; unfold re_search.
  - destruct (search_from pat_list true s) as [g|] eqn:E; [|done].
    apply search_sound in E as [Hn Ha]. split; [by destruct g | done].
  - destruct (search_from pat_channel true s) as [g|] eqn:E; [|done].
    apply search_sound in E as (t1 & t2 & -> & -> & Hl & Ha). by exists t2.
  - destruct (search_from pat_handle true s) as [g|] eqn:E; [|done].
    apply search_sound in E as [Hn Ha]. split; [by destruct g | done].
Qed.

(** Without the [isinstance] guard the search itself raises on [None]. *)
Example py_re_search_none :
  py_re_search pat_list PyNone
  = Raise (TypeError "expected string or bytes-like object").
Proof. reflexivity. Qed.

(** ** Playlist paging *)

Lemma ge_limit (limit : Z) (m : nat) :
  0 <= limit -> (Z.of_nat m >=? limit) = (Z.to_nat limit <=? m)%nat.
Proof.
  intros H. destruct (Z.to_nat limit <=? m)%nat eqn:E.
  - apply Nat.leb_le in E. apply Z.geb_le. lia.
  - apply Nat.leb_gt in E. rewrite Z.geb_leb. apply Z.leb_gt. lia.
Qed.

Lemma collect_items_spec (limit : Z) (its : list yt_item) (results : list string) :
  0 <= limit -> (length results < Z.to_nat limit)%nat ->
  collect_items limit its results =
  (take (Z.to_nat limit) (results ++ item_vids its),
   (Z.to_nat limit <=? length (results ++ item_vids its))%nat).
Proof.
  intros Hl. revert results.
  induction its as [|it its IH]; intros results Hlt; simpl.
  - rewrite app_nil_r, take_ge by lia. f_equal. symmetry. apply Nat.leb_gt. lia.
  - destruct (truthy_opt (videoId it)) eqn:Ev; simpl; [|by apply IH].
    set (v := default EmptyString (videoId it)).
    rewrite ge_limit by done.
    destruct (Z.to_nat limit <=? length (results ++ [v]))%nat eqn:E.
    + apply Nat.leb_le in E. rewrite length_app in E. simpl in E.
      f_equal.
      * change (v :: item_vids its) with ([v] ++ item_vids its).
        rewrite (app_assoc results [v]).
        rewrite take_app_length'; [done | rewrite length_app; simpl; lia].
      * symmetry. apply Nat.leb_le. rewrite !length_app. simpl. lia.
    + apply Nat.leb_gt in E. rewrite IH by done.
      by rewrite <- app_assoc.
Qed.

Lemma page_pass_spec (limit : Z) (d : yt_data) (results : list string) :
  0 <= limit -> (length results < Z.to_nat limit)%nat ->
  page_pass limit d results =
  (take (Z.to_nat limit) (results ++ page_vids d),
   truthy_opt (nextPageToken d)
   && (length (results ++ page_vids d) <? Z.to_nat limit)%nat).
Proof.
  intros Hl Hlt. unfold page_pass, page_vids. rewrite collect_items_spec by done.
  set (all := results ++ item_vids (items d)).
  destruct (Z.to_nat limit <=? length all)%nat eqn:E.
  - apply Nat.leb_le in E. f_equal. symmetry.
    apply andb_false_iff. right. apply Nat.ltb_ge. lia.
  - apply Nat.leb_gt in E. rewrite ge_limit by done.
    rewrite take_ge by lia.
    replace (Z.to_nat limit <=? length all)%nat with false
      by (symmetry; apply Nat.leb_gt; lia).
    replace (length all <? Z.to_nat limit)%nat with true
      by (symmetry; apply Nat.ltb_lt; lia).
    by destruct (truthy_opt (nextPageToken d)).
Qed.

Local Arguments page_pass : simpl never.

Lemma playlist_loop_spec (limit : Z) (queue : list (option yt_data)) :
  forall (d : yt_data) (results : list string),
  0 <= limit -> (length results < Z.to_nat limit)%nat ->
  fst (playlist_loop limit d results queue)
  = take (Z.to_nat limit) (results ++ chain_vids d queue).
Proof.
  induction queue as [|r queue IH]; intros d results Hl Hlt.
  - simpl. rewrite page_pass_spec by done.
    set (all := results ++ page_vids d).
    destruct (truthy_opt (nextPageToken d)) eqn:Et; simpl.
    + destruct (length all <? Z.to_nat limit)%nat eqn:E; simpl;
        by rewrite app_nil_r.
    + by rewrite app_nil_r.
  - simpl. rewrite page_pass_spec by done.
    set (all := results ++ page_vids d).
    destruct (truthy_opt (nextPageToken d)) eqn:Et; simpl.
    + destruct (length all <? Z.to_nat limit)%nat eqn:E; simpl.
      * apply Nat.ltb_lt in E. rewrite (take_ge all) by lia.
        rewrite IH by done. unfold all. rewrite <- app_assoc.
        destruct r as [d'|]; [done|]. by destruct queue.
      * apply Nat.ltb_ge in E. rewrite app_assoc.
        by rewrite take_app_le.
    + by rewrite app_nil_r.
Qed.

Lemma playlist_loop_full (limit : Z) (d : yt_data) (results : list string)
    (queue : list (option yt_data)) :
  0 <= limit -> (length results < Z.to_nat limit)%nat ->
  (Z.to_nat limit <= length (results ++ page_vids d))%nat ->
  playlist_loop limit d results queue
  = (take (Z.to_nat limit) (results ++ page_vids d), queue).
Proof.
  intros Hl Hlt Hfull.
  assert (page_pass limit d results
          = (take (Z.to_nat limit) (results ++ page_vids d), false)) as E.
  { rewrite page_pass_spec by done. f_equal.
    apply andb_false_iff. right. apply Nat.ltb_ge. lia. }
  destruct queue; simpl; by rewrite E.
Qed.

Lemma expand_playlist_spec (playlist_id : string) (limit : Z) (w : world) :
  1 <= limit ->
  fst (expand_playlist_video_ids playlist_id limit w)
  = take (Z.to_nat limit) (listed_vids w).
Proof.
  intros Hl. unfold expand_playlist_video_ids, listed_vids, _yt_api_get.
  destruct (truthy_opt (_api_key (env w))); simpl; [|by rewrite take_nil].
  destruct (responses w) as [|[d|] queue]; simpl; try by rewrite take_nil.
  pose proof (playlist_loop_spec limit queue d []) as H.
  destruct (playlist_loop limit d [] queue) as [results q]. simpl in *.
  apply H; [lia | simpl; lia].
Qed.

(** C7 (as amended): for every limit of at least one and every sequence of
    provider answers, [expand_playlist_video_ids] returns the first [limit]
    video ids of the pages in page order: all of them when the pages hold
    fewer, never more than [limit], and none past the point where the count
    reaches the limit. The pages are those reached by following next-page
    tokens until a page has none or a request fails; when the first page
    already holds [limit] ids no further page is requested. *)
Theorem expand_playlist_up_to_limit (playlist_id : string) (limit : Z) (w : world) :
  1 <= limit ->
  fst (expand_playlist_video_ids playlist_id limit w)
    = take (Z.to_nat limit) (listed_vids w)
  /\ Z.of_nat (length (fst (expand_playlist_video_ids playlist_id limit w)))
     <= limit
  /\ (forall d queue,
        truthy_opt (_api_key (env w)) = true ->
        responses w = Some d :: queue ->
        (Z.to_nat limit <= length (page_vids d))%nat ->
        snd (expand_playlist_video_ids playlist_id limit w)
        = World (env w) queue).
Proof.
  intros Hl. rewrite expand_playlist_spec by done. split; [done|].
  split; [rewrite length_take; lia|].
  intros d queue Hk Hq Hfull.
  unfold expand_playlist_video_ids, _yt_api_get. rewrite Hk, Hq. simpl.
  rewrite (playlist_loop_full limit d [] queue) by (simpl; lia). done.
Qed.

Lemma expand_playlist_up_to_limit_witness :
  fst (expand_playlist_video_ids "PLx" 2 sample_world)
    = take (Z.to_nat 2) (listed_vids sample_world)
  /\ Z.of_nat (length (fst (expand_playlist_video_ids "PLx" 2 sample_world)))
     <= 2.
Proof.
  destruct (expand_playlist_up_to_limit "PLx" 2 sample_world) as (H1 & H2 & _);
    [lia | by split].
Defined.

(** C7 as stated fails for a limit below one: the limit is tested only after
    an id has been appended, so with limit 0 the first id is returned. *)
Lemma expand_playlist_limit_counterexample :
  ~ (forall playlist_id limit w,
       Z.of_nat (length (fst (expand_playlist_video_ids playlist_id limit w)))
       <= limit).
Proof.
  intros H. specialize (H "PLx" 0 sample_world). vm_compute in H. by apply H.
Qed.

Example expand_playlist_limit_zero :
  fst (expand_playlist_video_ids "PLx" 0 sample_world) = ["aaaaaaaaaaa"].
Proof. reflexivity. Qed.

(** ** Ordered-set merge *)

Lemma filter_ne_idemp (x : string) (l : list string) :
  x ∉ l -> filter (λ y, y ≠ x) l = l.
Proof.
  induction l as [|y l IH]; [done|]. intros H.
  apply not_elem_of_cons in H as [Hne Hl].
  rewrite filter_cons_True by done. by rewrite IH.
Qed.

Lemma filter_first_seen (x : string) (l : list string) :
  filter (λ y, y ≠ x) (first_seen l) = first_seen (filter (λ y, y ≠ x) l).
Proof.
  induction l as [|y l IH]; [done|]. simpl.
  destruct (decide (y = x)) as [->|Hne].
  - rewrite !filter_cons_False by (by intros ?).
    rewrite <- IH. rewrite list_filter_filter.
    apply list_filter_iff. intros z. tauto.
  - rewrite !filter_cons_True by done. simpl. f_equal.
    rewrite <- IH, !list_filter_filter.
    apply list_filter_iff. intros z. tauto.
Qed.

Lemma elem_of_first_seen (x : string) (l : list string) :
  x ∈ first_seen l <-> x ∈ l.
Proof.
  induction l as [|y l IH]; [done|]. simpl.
  rewrite !elem_of_cons, list_elem_of_filter, IH.
  destruct (decide (x = y)); tauto.
Qed.

Lemma NoDup_first_seen (l : list string) : NoDup (first_seen l).
Proof.
  induction l as [|y l IH]; simpl; constructor.
  - rewrite list_elem_of_filter. tauto.
  - by apply NoDup_filter.
Qed.

Lemma first_seen_NoDup (l : list string) : NoDup l -> first_seen l = l.
Proof.
  induction 1 as [|x l Hx _ IH]; [done|]. simpl.
  by rewrite IH, filter_ne_idemp.
Qed.

Lemma first_seen_app (l1 l2 : list string) :
  first_seen (l1 ++ l2)
  = first_seen l1 ++ filter (λ y, y ∉ l1) (first_seen l2).
Proof.
  induction l1 as [|x l1 IH]; simpl.
  - symmetry. induction (first_seen l2) as [|y l IHl]; [done|].
    rewrite filter_cons_True by (apply not_elem_of_nil). by rewrite IHl.
  - f_equal. rewrite IH, filter_app. f_equal.
    rewrite list_filter_filter. apply list_filter_iff. intros z.
    rewrite not_elem_of_cons. tauto.
Qed.

Lemma first_seen_repeat (o : list string) (x : string) (l : list string) :
  x ∈ o -> first_seen (o ++ x :: l) = first_seen (o ++ l).
Proof.
  intros Hx. rewrite !first_seen_app. f_equal. simpl.
  rewrite filter_cons_False by tauto.
  rewrite list_filter_filter. apply list_filter_iff. intros z.
  split; [tauto|]. intros Hz. split; [done|]. by intros ->.
Qed.

(** ** The accumulator of the expander *)

Lemma add_id_spec (a : acc) (v : string) :
  acc_ok a ->
  acc_ok (add_id a v)
  /\ out (add_id a v) = first_seen (out a ++ [v])
  /\ errors (add_id a v) = errors a.
Proof.
  intros [Hnd Hs]. unfold add_id. destruct (decide (v ∈ seen a)) as [Hin|Hin].
  - split; [done|]. split; [|done]. apply Hs in Hin.
    rewrite first_seen_repeat by done. by rewrite app_nil_r, first_seen_NoDup.
  - simpl. rewrite Hs in Hin.
    assert (NoDup (out a ++ [v])) as Hnd'.
    { apply NoDup_app. split; [done|]. split; [|apply NoDup_singleton].
      intros x Hx ->%list_elem_of_singleton. done. }
    split; [|by rewrite first_seen_NoDup].
    split; [done|]. intros x. cbn [seen out].
    rewrite elem_of_union, elem_of_singleton, Hs.
    rewrite elem_of_app, list_elem_of_singleton. tauto.
Qed.

Lemma first_seen_absorb (l k : list string) :
  first_seen (first_seen l ++ k) = first_seen (l ++ k).
Proof.
  rewrite !first_seen_app.
  rewrite (first_seen_NoDup (first_seen l)) by apply NoDup_first_seen.
  f_equal. apply list_filter_iff. intros z. by rewrite elem_of_first_seen.
Qed.

Lemma fold_add_id_spec (vids : list string) :
  forall a, acc_ok a ->
  acc_ok (fold_left add_id vids a)
  /\ out (fold_left add_id vids a) = first_seen (out a ++ vids)
  /\ errors (fold_left add_id vids a) = errors a.
Proof.
  induction vids as [|v vids IH]; intros a Ha; simpl.
  - destruct Ha as [Hnd Hs]. by rewrite app_nil_r, first_seen_NoDup.
  - destruct (add_id_spec a v Ha) as (Ha' & Ho & He).
    destruct (IH _ Ha') as (Ha'' & Ho' & He').
    split; [done|]. split; [|congruence].
    by rewrite Ho', Ho, first_seen_absorb, <- app_assoc.
Qed.
Lemma add_id_add_error (a : acc) (e v : string) :
  add_id (add_error a e) v = add_error (add_id a v) e.
Proof. unfold add_id, add_error. simpl. by destruct (decide (v ∈ seen a)). Qed.

Lemma fold_add_id_errors (vids es : list string) :
  forall a, fold_left add_id vids (fold_left add_error es a)
            = fold_left add_error es (fold_left add_id vids a).
Proof.
  induction es as [|e es IH]; intros a; simpl; [done|].
  rewrite IH. f_equal. clear IH. revert a.
  induction vids as [|v vids IH]; intros a; simpl; [done|].
  by rewrite add_id_add_error, IH.
Qed.

Lemma apply_source_compose (i1 e1 i2 e2 : list string) (a : acc) :
  apply_source i2 e2 (apply_source i1 e1 a) = apply_source (i1 ++ i2) (e1 ++ e2) a.
Proof.
  unfold apply_source. by rewrite fold_add_id_errors, !fold_left_app.
Qed.

Lemma fold_add_error_spec (es : list string) :
  forall a, out (fold_left add_error es a) = out a
            /\ seen (fold_left add_error es a) = seen a
            /\ errors (fold_left add_error es a) = errors a ++ es.
Proof.
  induction es as [|e es IH]; intros a; simpl.
  - by rewrite app_nil_r.
  - destruct (IH (add_error a e)) as (-> & -> & ->). simpl.
    by rewrite <- app_assoc.
Qed.

Lemma apply_source_spec (ids errs : list string) (a : acc) :
  acc_ok a ->
  out (apply_source ids errs a) = first_seen (out a ++ ids)
  /\ errors (apply_source ids errs a) = errors a ++ errs.
Proof.
  intros Ha. unfold apply_source.
  destruct (fold_add_error_spec errs (fold_left add_id ids a)) as (-> & _ & ->).
  destruct (fold_add_id_spec ids a Ha) as (_ & -> & ->). done.
Qed.

Lemma parse_video_id_raises (v : pyval) (e : exn) :
  parse_video_id v = Raise e -> exists msg, e = ValueError msg.
Proof.
  destruct v as [| | |s|];
    try (rewrite parse_video_id_not_str by done; intros [= <-]; by eexists).
  rewrite parse_video_id_str.
  destruct (negb _); [intros [= <-]; by eexists|].
  destruct (first_match patterns (strip s)); [done|].
  intros [= <-]. by eexists.
Qed.

Lemma url_step_source (a : acc) (u : pyval) :
  url_step a u = Ok (apply_source (entry_ids u) (entry_errors u) a).
Proof.
  unfold url_step, entry_ids, entry_errors, classified, apply_source.
  destruct (parse_video_id u) as [vid|e] eqn:E; [done|].
  destruct (parse_video_id_raises _ _ E) as [msg ->].
  rewrite parse_playlist_id_found, parse_channel_id_found,
    parse_channel_handle_found. cbn [bind].
  destruct (truthy_opt (found pat_list u)),
    (truthy_opt (found pat_channel u)) eqn:Ec; cbn [bind orb negb];
    rewrite ?Ec; try done.
  all: by destruct (truthy_opt (found pat_handle u)).
Qed.

Lemma for_urls_source (urls : list pyval) :
  forall a, for_urls urls a
            = Ok (apply_source (flat_map entry_ids urls)
                    (flat_map entry_errors urls) a).
Proof.
  induction urls as [|u urls IH]; intros a; simpl; [done|].
  rewrite url_step_source. cbn [bind].
  by rewrite IH, apply_source_compose.
Qed.

Lemma playlist_phase_source (playlist_url : pyval) (limit : Z) (a : acc) (w : world) :
  playlist_phase playlist_url limit (a, w) =
  Ok (let '((vids, errs), w') := playlist_source playlist_url limit w in
      (apply_source vids errs a, w')).
Proof.
  unfold playlist_phase, playlist_source, apply_source.
  destruct (truthy_val playlist_url); [|done]. simpl.
  destruct (truthy_opt (_api_key (env w))); [|done]. simpl.
  rewrite parse_playlist_id_found. cbn [bind].
  destruct (truthy_opt (found pat_list playlist_url)); [|done].
  by destruct (expand_playlist_video_ids _ limit w).
Qed.

(** The channel expansion never raises. *)
Lemma expand_channel_ok (channel_url : pyval) (limit : Z) (w : world) :
  exists vids w',
    expand_channel_recent_video_ids channel_url limit w = Ok (vids, w').
Proof.
  unfold expand_channel_recent_video_ids.
  rewrite parse_channel_id_found, parse_channel_handle_found. cbn [bind].
  destruct (negb (truthy_opt (found pat_channel channel_url))); cbn [bind].
  - destruct (truthy_opt (found pat_handle channel_url)); cbn [bind].
    + destruct (_resolve_channel_id_from_handle _ w) as [cid w1].
      destruct (negb (truthy_opt cid)); [by eexists _, _|].
      destruct (_uploads_playlist_id _ w1) as [up w2].
      destruct (negb (truthy_opt up)); [by eexists _, _|].
      destruct (expand_playlist_video_ids _ limit w2). by eexists _, _.
    + destruct (negb (truthy_opt _)); [by eexists _, _|].
      destruct (_uploads_playlist_id _ w) as [up w2].
      destruct (negb (truthy_opt up)); [by eexists _, _|].
      destruct (expand_playlist_video_ids _ limit w2). by eexists _, _.
  - destruct (negb (truthy_opt _)); [by eexists _, _|].
    destruct (_uploads_playlist_id _ w) as [up w2].
    destruct (negb (truthy_opt up)); [by eexists _, _|].
    destruct (expand_playlist_video_ids _ limit w2). by eexists _, _.
Qed.

Lemma channel_phase_source (channel_url : pyval) (limit : Z) (a : acc) (w : world) :
  channel_phase channel_url limit (a, w) =
  Ok (let '((vids, errs), w') := channel_source channel_url limit w in
      (apply_source vids errs a, w')).
Proof.
  unfold channel_phase, channel_source, apply_source.
  destruct (truthy_val channel_url); [|done]. simpl.
  destruct (truthy_opt (_api_key (env w))); [|done]. simpl.
  destruct (expand_channel_ok channel_url limit w) as (vids & w' & ->).
  cbn [bind]. by destruct vids.
Qed.

Lemma acc_ok_empty : acc_ok (Acc [] ∅ []).
Proof. split; [constructor|]. intros x. simpl. set_solver. Qed.

(** The expander never raises and merges its three sources. *)
Lemma expand_inputs_spec (urls : option (list pyval))
    (playlist_url channel_url : pyval) (limit : Z) (w : world) :
  expand_inputs_to_video_ids urls playlist_url channel_url limit w
  = Ok (merged_expansion urls playlist_url channel_url limit w).
Proof.
  unfold expand_inputs_to_video_ids, merged_expansion.
  rewrite for_urls_source. cbn [bind]. rewrite playlist_phase_source.
  destruct (playlist_source playlist_url limit w) as [[vp ep] w1].
  cbn [bind]. rewrite channel_phase_source.
  destruct (channel_source channel_url limit w1) as [[vc ec] w2].
  cbn [bind]. rewrite !apply_source_compose.
  destruct (apply_source_spec
              (flat_map entry_ids (default [] urls) ++ vp ++ vc)
              (flat_map entry_errors (default [] urls) ++ ep ++ ec)
              _ acc_ok_empty) as [Ho He].
  by rewrite Ho, He.
Qed.

Local Arguments first_seen : simpl never.

(** C1: [expand_inputs_to_video_ids] returns, for every input batch, an
    identifier list without duplicates that is the first-seen merge of the
    three sources taken in the order urls, playlist, channel: it has
    exactly the ids of the sources, and an id of an earlier part of the
    merged input keeps its place whatever comes later. In particular an id
    given once bare and once inside a full URL is listed once, at its first
    position. *)
Theorem expand_inputs_dedup_order :
  (forall urls playlist_url channel_url limit w,
     let '((vp, _), w1) := playlist_source playlist_url limit w in
     let '((vc, _), _) := channel_source channel_url limit w1 in
     let merged := flat_map entry_ids (default [] urls) ++ vp ++ vc in
     exists errs w',
       expand_inputs_to_video_ids urls playlist_url channel_url limit w
       = Ok ((first_seen merged, errs), w')
       /\ NoDup (first_seen merged)
       /\ (forall x, x ∈ first_seen merged <-> x ∈ merged))
  /\ (forall l1 l2,
        first_seen (l1 ++ l2)
        = first_seen l1 ++ filter (λ y, y ∉ l1) (first_seen l2))
  /\ (forall tok other limit w,
        valid_id tok = true -> valid_id other = true ->
        expand_inputs_to_video_ids
          (Some [PyStr tok; PyStr other;
                 PyStr ("https://www.youtube.com/watch?v=" +:+ tok)])
          PyNone PyNone limit w
        = Ok ((first_seen [tok; other], []), w)).
Proof.
  split; [|split; [exact first_seen_app|]].
  - intros urls playlist_url channel_url limit w.
    rewrite expand_inputs_spec. unfold merged_expansion.
    destruct (playlist_source playlist_url limit w) as [[vp ep] w1].
    destruct (channel_source channel_url limit w1) as [[vc ec] w2].
    eexists _, _. split; [reflexivity|].
    split; [apply NoDup_first_seen|]. intros x. apply elem_of_first_seen.
  - intros tok other limit w Ht Ho. rewrite expand_inputs_spec.
    pose proof (parse_watch_shape tok EmptyString Ht) as Hw.
    rewrite app_empty_r in Hw.
    unfold merged_expansion, playlist_source, channel_source, entry_ids,
      entry_errors.
    simpl. simpl in Hw.
    rewrite !parse_bare_id, Hw by done. simpl. do 3 f_equal.
    apply (first_seen_repeat [tok; other] tok []). set_solver.
Qed.

Lemma expand_inputs_dedup_order_witness :
  expand_inputs_to_video_ids
    (Some [PyStr "dQw4w9WgXcQ"; PyStr "aaaaaaaaaaa";
           PyStr "https://www.youtube.com/watch?v=dQw4w9WgXcQ"])
    PyNone PyNone 50 sample_world
  = Ok ((first_seen ["dQw4w9WgXcQ"; "aaaaaaaaaaa"], []), sample_world).
Proof.
  exact (proj2 (proj2 expand_inputs_dedup_order)
           "dQw4w9WgXcQ" "aaaaaaaaaaa" 50 sample_world eq_refl eq_refl).
Defined.

(** C9: an entry of [urls] that is neither a video nor playlist- or
    channel-shaped contributes no identifier and exactly one error string,
    which names the entry, at the entry's place among the errors; the
    identifiers, the other errors and the provider requests are what they
    are without the entry, and the expansion goes on to its end. A
    playlist- or channel-shaped entry changes nothing at all. *)
Theorem unrecognized_entry_isolated (l1 l2 : list pyval) (u : pyval)
    (playlist_url channel_url : pyval) (limit : Z) (w : world) (e : exn) :
  parse_video_id u = Raise e ->
  exists ids rest w',
    expand_inputs_to_video_ids (Some (l1 ++ l2)) playlist_url channel_url limit w
    = Ok ((ids, flat_map entry_errors l1 ++ rest), w')
    /\ entry_ids u = []
    /\ (classified u = false ->
        contains (py_str u) (unrecognized_msg u) = true
        /\ expand_inputs_to_video_ids (Some (l1 ++ u :: l2))
             playlist_url channel_url limit w
           = Ok ((ids, flat_map entry_errors l1 ++ unrecognized_msg u :: rest),
                 w'))
    /\ (classified u = true ->
        expand_inputs_to_video_ids (Some (l1 ++ u :: l2))
          playlist_url channel_url limit w
        = Ok ((ids, flat_map entry_errors l1 ++ rest), w')).
Proof.
  intros Hu. rewrite !expand_inputs_spec. unfold merged_expansion.
  destruct (playlist_source playlist_url limit w) as [[vp ep] w1].
  destruct (channel_source channel_url limit w1) as [[vc ec] w2].
  assert (entry_ids u = []) as Hi by (unfold entry_ids; by rewrite Hu).
  assert (entry_errors u = if classified u then [] else [unrecognized_msg u])
    as He by (unfold entry_errors; by rewrite Hu).
  cbn [default]. unfold id.
  rewrite !flat_map_app. cbn [flat_map]. rewrite Hi, He. cbn [app].
  exists (first_seen ((flat_map entry_ids l1 ++ flat_map entry_ids l2) ++ vp ++ vc)),
    (flat_map entry_errors l2 ++ ep ++ ec), w2.
  split; [by rewrite <- !app_assoc|]. split; [done|].
  split; intros ->.
  - split; [apply contains_suffix|]. by rewrite <- !app_assoc.
  - by rewrite <- !app_assoc.
Qed.

Lemma unrecognized_entry_isolated_witness :
  let u := PyStr "https://www.google.com/search?q=cats" in
  exists ids rest w',
    expand_inputs_to_video_ids (Some ([PyStr "dQw4w9WgXcQ"] ++ [PyInt 7]))
      PyNone PyNone 50 sample_world
    = Ok ((ids, flat_map entry_errors [PyStr "dQw4w9WgXcQ"] ++ rest), w')
    /\ entry_ids u = []
    /\ (classified u = false ->
        contains (py_str u) (unrecognized_msg u) = true
        /\ expand_inputs_to_video_ids
             (Some ([PyStr "dQw4w9WgXcQ"] ++ u :: [PyInt 7]))
             PyNone PyNone 50 sample_world
           = Ok ((ids, flat_map entry_errors [PyStr "dQw4w9WgXcQ"]
                         ++ unrecognized_msg u :: rest), w'))
    /\ (classified u = true ->
        expand_inputs_to_video_ids
          (Some ([PyStr "dQw4w9WgXcQ"] ++ u :: [PyInt 7]))
          PyNone PyNone 50 sample_world
        = Ok ((ids, flat_map entry_errors [PyStr "dQw4w9WgXcQ"] ++ rest), w')).
Proof.
  exact (unrecognized_entry_isolated [PyStr "dQw4w9WgXcQ"] [PyInt 7]
           (PyStr "https://www.google.com/search?q=cats") PyNone PyNone 50
           sample_world _ eq_refl).
Defined.

(** ** Where the identifiers come from *)

Lemma item_vids_elem (its : list yt_item) (x : string) :
  x ∈ item_vids its ->
  exists it, it ∈ its /\ videoId it = Some x /\ x <> EmptyString.
Proof.
  induction its as [|it its IH]; simpl; [by intros ?%elem_of_nil|].
  rewrite elem_of_app. intros [H|H].
  - destruct (videoId it) as [v|] eqn:E; simpl in H; [|by apply elem_of_nil in H].
    destruct v as [|c v]; simpl in H; [by apply elem_of_nil in H|].
    apply list_elem_of_singleton in H as ->.
    exists it. split; [by left|]. done.
  - destruct (IH H) as (it' & ? & ?). exists it'. split; [by right | done].
Qed.

Lemma collect_items_elem (limit : Z) (its : list yt_item) :
  forall results x,
  x ∈ fst (collect_items limit its results) -> x ∈ results \/ x ∈ item_vids its.
Proof.
  induction its as [|it its IH]; intros results x; simpl; [by left|].
  destruct (truthy_opt (videoId it)); simpl.
  - rewrite elem_of_cons. destruct (_ >=? _); simpl.
    + rewrite !elem_of_app, list_elem_of_singleton. tauto.
    + intros [H|H]%IH; [|tauto].
      apply elem_of_app in H as [H|H]; [by left|].
      apply list_elem_of_singleton in H. tauto.
  - intros [H|H]%IH; [by left | by right].
Qed.

Lemma page_pass_elem (limit : Z) (d : yt_data) (results : list string) (x : string) :
  x ∈ fst (page_pass limit d results) -> x ∈ results \/ x ∈ page_vids d.
Proof.
  unfold page_pass, page_vids.
  pose proof (collect_items_elem limit (items d) results x) as H.
  destruct (collect_items limit (items d) results) as [r b]. simpl in H.
  destruct b; [done|]. by destruct (_ || _).
Qed.

Lemma queue_vid_cons_head (d : yt_data) (queue : list (option yt_data)) (x : string) :
  x ∈ page_vids d -> queue_vid (Some d :: queue) x.
Proof.
  intros (it & ? & ? & ?)%item_vids_elem. exists d, it. split; [by left | done].
Qed.

Lemma queue_vid_app (k queue : list (option yt_data)) (x : string) :
  queue_vid queue x -> queue_vid (k ++ queue) x.
Proof.
  intros (d & it & ? & ?). exists d, it. split; [|done].
  apply elem_of_app. by right.
Qed.

Lemma playlist_loop_elem (limit : Z) (queue : list (option yt_data)) :
  forall d results x,
  x ∈ fst (playlist_loop limit d results queue) ->
  x ∈ results \/ queue_vid (Some d :: queue) x.
Proof.
  induction queue as [|r queue IH]; intros d results x; simpl.
  - pose proof (page_pass_elem limit d results x) as H.
    destruct (page_pass limit d results) as [r' [|]]; simpl in *;
      intros Hx; (destruct (H Hx); [by left | right; by apply queue_vid_cons_head]).
  - pose proof (page_pass_elem limit d results x) as H.
    destruct (page_pass limit d results) as [r' [|]]; simpl in *.
    + intros [Hx|Hx]%IH.
      * destruct (H Hx); [by left | right; by apply queue_vid_cons_head].
      * right. destruct Hx as (d' & it & Hd & Hit).
        exists d', it. split; [|done]. right.
        apply elem_of_cons in Hd as [Hd|Hd]; [|by right].
        destruct r as [d''|]; simpl in Hd.
        -- rewrite Hd. by left.
        -- injection Hd as ->. destruct Hit as [Hit _]. by apply elem_of_nil in Hit.
    + intros Hx. destruct (H Hx); [by left | right; by apply queue_vid_cons_head].
Qed.

Lemma playlist_loop_queue (limit : Z) (queue : list (option yt_data)) :
  forall d results,
  exists k, queue = k ++ snd (playlist_loop limit d results queue).
Proof.
  induction queue as [|r queue IH]; intros d results; simpl.
  - exists []. by destruct (page_pass limit d results) as [r' [|]].
  - destruct (page_pass limit d results) as [r' [|]]; simpl.
    + destruct (IH (default empty_data r) r') as [k Hk].
      exists (r :: k). simpl. by rewrite <- Hk.
    + by exists [].
Qed.

Lemma later_world_refl (w : world) : later_world w w.
Proof. split; [done|]. by exists []. Qed.

Lemma later_world_trans (w1 w2 w3 : world) :
  later_world w1 w2 -> later_world w2 w3 -> later_world w1 w3.
Proof.
  intros [He1 [k1 H1]] [He2 [k2 H2]]. split; [congruence|].
  exists (k1 ++ k2). by rewrite H1, H2, app_assoc.
Qed.

Lemma provider_vid_later (w w' : world) (x : string) :
  later_world w w' -> provider_vid w' x -> provider_vid w x.
Proof.
  intros [_ [k Hk]] H. unfold provider_vid. rewrite Hk. by apply queue_vid_app.
Qed.

Lemma yt_api_get_later (endpoint : string) (w : world) :
  later_world w (snd (_yt_api_get endpoint w))
  /\ match fst (_yt_api_get endpoint w) with
     | Some d => exists queue, responses w = Some d :: queue
                   /\ responses (snd (_yt_api_get endpoint w)) = queue
     | None => True
     end.
Proof.
  unfold _yt_api_get. destruct (negb _); simpl; [split; [apply later_world_refl|done]|].
  destruct (responses w) as [|r rest] eqn:E; simpl.
  - split; [apply later_world_refl|done].
  - split; [split; [done|]; exists [r]; by rewrite E|].
    destruct r; [|done]. by exists rest.
Qed.

Lemma expand_playlist_later (playlist_id : string) (limit : Z) (w : world) :
  later_world w (snd (expand_playlist_video_ids playlist_id limit w))
  /\ forall x, x ∈ fst (expand_playlist_video_ids playlist_id limit w) ->
               provider_vid w x.
Proof.
  unfold expand_playlist_video_ids.
  destruct (yt_api_get_later "playlistItems" w) as [Hl Hd].
  destruct (_yt_api_get "playlistItems" w) as [[d|] w']; simpl in *.
  - destruct Hd as (queue & Hq & Hq').
    pose proof (playlist_loop_elem limit queue d []) as He.
    destruct (playlist_loop_queue limit queue d []) as [k Hk].
    rewrite Hq'. destruct (playlist_loop limit d [] queue) as [results q].
    simpl in *. split.
    + split; [by destruct Hl|]. exists (Some d :: k). rewrite Hq. simpl.
      by rewrite <- Hk.
    + intros x [Hx|Hx]%He; [by apply elem_of_nil in Hx|].
      unfold provider_vid. by rewrite Hq.
  - split; [done|]. by intros x ?%elem_of_nil.
Qed.

Lemma uploads_later (channel_id : string) (w : world) :
  later_world w (snd (_uploads_playlist_id channel_id w)).
Proof.
  unfold _uploads_playlist_id.
  destruct (yt_api_get_later "channels" w) as [Hl _].
  by destruct (_yt_api_get "channels" w) as [[d|] w'].
Qed.

Lemma resolve_later (handle : string) (w : world) :
  later_world w (snd (_resolve_channel_id_from_handle handle w)).
Proof.
  unfold _resolve_channel_id_from_handle.
  destruct (yt_api_get_later "search" w) as [Hl _].
  by destruct (_yt_api_get "search" w) as [[d|] w'].
Qed.

Lemma expand_channel_later (channel_url : pyval) (limit : Z) (w : world)
    (vids : list string) (w' : world) :
  expand_channel_recent_video_ids channel_url limit w = Ok (vids, w') ->
  later_world w w' /\ forall x, x ∈ vids -> provider_vid w x.
Proof.
  unfold expand_channel_recent_video_ids.
  rewrite parse_channel_id_found, parse_channel_handle_found. cbn [bind].
  set (cid0 := found pat_channel channel_url).
  assert (exists cid w1,
    (if negb (truthy_opt cid0) then
       if truthy_opt (found pat_handle channel_url)
       then Ok (_resolve_channel_id_from_handle
                  (default EmptyString (found pat_handle channel_url)) w)
       else Ok (cid0, w)
     else Ok (cid0, w)) = Ok (cid, w1) /\ later_world w w1) as (cid & w1 & E & H1).
  { destruct (negb (truthy_opt cid0)).
    - destruct (truthy_opt (found pat_handle channel_url)).
      + pose proof (resolve_later
                      (default EmptyString (found pat_handle channel_url)) w).
        destruct (_resolve_channel_id_from_handle _ w) as [c w1]. by exists c, w1.
      + exists cid0, w. split; [done | apply later_world_refl].
    - exists cid0, w. split; [done | apply later_world_refl]. }
  rewrite E. cbn [bind].
  destruct (negb (truthy_opt cid));
    [intros [= <- <-]; split; [done | by intros x ?%elem_of_nil]|].
  pose proof (uploads_later (default EmptyString cid) w1) as H2.
  destruct (_uploads_playlist_id (default EmptyString cid) w1) as [up w2].
  simpl in H2. pose proof (later_world_trans _ _ _ H1 H2) as H12.
  destruct (negb (truthy_opt up));
    [intros [= <- <-]; split; [done | by intros x ?%elem_of_nil]|].
  destruct (expand_playlist_later (default EmptyString up) limit w2) as [H3 Hx].
  destruct (expand_playlist_video_ids _ limit w2) as [vs w3].
  intros [= <- <-]. simpl in *.
  split; [by eapply later_world_trans|].
  intros x Hin. eapply provider_vid_later; [exact H12 | by apply Hx].
Qed.

Lemma playlist_source_later (playlist_url : pyval) (limit : Z) (w : world) :
  later_world w (snd (playlist_source playlist_url limit w))
  /\ forall x, x ∈ fst (fst (playlist_source playlist_url limit w)) ->
               provider_vid w x.
Proof.
  unfold playlist_source.
  repeat (destruct (negb _); simpl;
          [split; [apply later_world_refl | by intros x ?%elem_of_nil]|]).
  destruct (truthy_opt (found pat_list playlist_url)); simpl;
    [|split; [apply later_world_refl | by intros x ?%elem_of_nil]].
  pose proof (expand_playlist_later
                (default EmptyString (found pat_list playlist_url)) limit w) as H.
  by destruct (expand_playlist_video_ids _ limit w).
Qed.

Lemma channel_source_later (channel_url : pyval) (limit : Z) (w : world) :
  later_world w (snd (channel_source channel_url limit w))
  /\ forall x, x ∈ fst (fst (channel_source channel_url limit w)) ->
               provider_vid w x.
Proof.
  unfold channel_source.
  repeat (destruct (negb _); simpl;
          [split; [apply later_world_refl | by intros x ?%elem_of_nil]|]).
  destruct (expand_channel_ok channel_url limit w) as (vids & w' & E).
  rewrite E. simpl. by apply (expand_channel_later channel_url limit).
Qed.

Lemma entry_ids_valid (u : pyval) (id : string) :
  id ∈ entry_ids u -> valid_id id = true.
Proof.
  unfold entry_ids. destruct (parse_video_id u) as [g|] eqn:E.
  - intros ->%list_elem_of_singleton. by eapply parse_video_id_valid.
  - by intros ?%elem_of_nil.
Qed.

Lemma expand_inputs_origin (urls : option (list pyval))
    (playlist_url channel_url : pyval) (limit : Z) (w : world) (id : string) :
  id ∈ fst (fst (merged_expansion urls playlist_url channel_url limit w)) ->
  id ∈ flat_map entry_ids (default [] urls) \/ provider_vid w id.
Proof.
  unfold merged_expansion.
  destruct (playlist_source_later playlist_url limit w) as [Hl1 Hp].
  destruct (playlist_source playlist_url limit w) as [[vp ep] w1].
  destruct (channel_source_later channel_url limit w1) as [Hl2 Hc].
  destruct (channel_source channel_url limit w1) as [[vc ec] w2].
  simpl in *. rewrite elem_of_first_seen, !elem_of_app.
  intros [H|[H|H]].
  - by left.
  - right. by apply Hp.
  - right. eapply provider_vid_later; [exact Hl1 | by apply Hc].
Qed.

(** C6 (as amended): every identifier that a [urls] entry yields is an
    eleven-character token over [[0-9A-Za-z_-]]; every other identifier of
    the result is a non-empty video id listed in some provider answer, taken
    as it is. So the invariant holds of the whole result when it holds of
    the ids the provider lists. *)
Theorem expansion_ids_origin (urls : option (list pyval))
    (playlist_url channel_url : pyval) (limit : Z) (w : world) :
  exists ids errs w',
    expand_inputs_to_video_ids urls playlist_url channel_url limit w
    = Ok ((ids, errs), w')
    /\ Forall (λ id, id ∈ flat_map entry_ids (default [] urls)
                     \/ provider_vid w id) ids
    /\ Forall (λ id, valid_id id = true) (flat_map entry_ids (default [] urls))
    /\ Forall (λ id, valid_id id = true \/ provider_vid w id) ids
    /\ ((forall id, provider_vid w id -> valid_id id = true) ->
        Forall (λ id, valid_id id = true) ids).
Proof.
  rewrite expand_inputs_spec.
  pose proof (expand_inputs_origin urls playlist_url channel_url limit w) as Ho.
  destruct (merged_expansion urls playlist_url channel_url limit w)
    as [[ids errs] w'].
  exists ids, errs, w'. split; [done|]. simpl in Ho.
  assert (forall id, id ∈ flat_map entry_ids (default [] urls) ->
                     valid_id id = true) as Hv.
  { intros id (u & _ & Hu)%list_elem_of_In%in_flat_map.
    apply list_elem_of_In in Hu. by eapply entry_ids_valid. }
  split; [by apply Forall_forall|]. split; [by apply Forall_forall|].
  split.
  - apply Forall_forall. intros id [H|H]%Ho; [left; by apply Hv | by right].
  - intros Hp. apply Forall_forall.
    intros id [H|H]%Ho; [by apply Hv | by apply Hp].
Qed.

Lemma sample_world_valid (id : string) :
  provider_vid sample_world id -> valid_id id = true.
Proof.
  intros (d & it & Hd & Hit & Hv & _).
  assert (Forall (λ d, match d with
                       | Some d => Forall (λ it, match videoId it with
                                                 | Some v => valid_id v = true
                                                 | None => True
                                                 end) (items d)
                       | None => True
                       end) (responses sample_world)) as Hall
    by (vm_compute; repeat constructor).
  rewrite Forall_forall in Hall. specialize (Hall _ Hd). simpl in Hall.
  rewrite Forall_forall in Hall. specialize (Hall _ Hit). by rewrite Hv in Hall.
Qed.

Lemma expansion_ids_origin_witness :
  exists ids errs w',
    expand_inputs_to_video_ids (Some [PyStr "dQw4w9WgXcQ"]) sample_playlist_url
      PyNone 50 sample_world
    = Ok ((ids, errs), w')
    /\ Forall (λ id, valid_id id = true) ids.
Proof.
  destruct (expansion_ids_origin (Some [PyStr "dQw4w9WgXcQ"])
              sample_playlist_url PyNone 50 sample_world)
    as (ids & errs & w' & E & _ & _ & _ & H).
  exists ids, errs, w'. split; [exact E|].
  apply H. exact sample_world_valid.
Defined.

(** C6 as stated fails: a three-character video id listed by the provider
    is merged into the result unchanged. *)
Lemma expansion_ids_invariant_counterexample :
  ~ (forall urls playlist_url channel_url limit w,
       exists ids errs w',
         expand_inputs_to_video_ids urls playlist_url channel_url limit w
         = Ok ((ids, errs), w')
         /\ Forall (λ id, valid_id id = true) ids).
Proof.
  intros H.
  destruct (H None sample_playlist_url PyNone 50 odd_world)
    as (ids & errs & w' & E & Hv).
  assert (expand_inputs_to_video_ids None sample_playlist_url PyNone 50 odd_world
          = Ok ((["abc"], []), World sample_env [])) as E'
    by (vm_compute; reflexivity).
  rewrite E' in E. injection E as <- _ _.
  apply Forall_cons in Hv as [Hv _]. discriminate Hv.
Qed.

(** ** Bulk endpoint *)


Lemma unique_name_first (base : string) (used : gmap string nat) :
  used !! base = None ->
  unique_name base used = (base, <[base := 1%nat]> used).
Proof. intros H. unfold unique_name. by rewrite H. Qed.

Lemma unique_name_again (base : string) (used : gmap string nat) (k : nat) :
  used !! base = Some k ->
  unique_name base used
  = (base +:+ " (" +:+ nat_to_str (S k) +:+ ")", <[base := S k]> used).
Proof. intros H. unfold unique_name. by rewrite H. Qed.

(** The counter of a base name is the number of its uses so far. *)
Lemma unique_name_counts (base other : string) (used : gmap string nat) :
  snd (unique_name base used) !! other
  = if decide (base = other)
    then Some (S (default 0%nat (used !! base)))
    else used !! other.
Proof.
  unfold unique_name. destruct (used !! base) as [k|] eqn:E; simpl;
    rewrite lookup_insert; by destruct (decide (base = other)).
Qed.

(** C4, at the failing input: three videos titled "Intro", "Intro" and
    "Intro (2)" give the entry names Intro.txt, Intro (2).txt and
    Intro (2).txt, so two entries of one archive share a name; three videos
    all titled "Intro" give Intro.txt, Intro (2).txt, Intro (3).txt. *)
Theorem unique_name_clash :
  archive_names
    (bulk_transcripts_endpoint sample_fetch clashing_titles three_videos
       sample_world)
  = ["Intro.txt"; "Intro (2).txt"; "Intro (2).txt"]
  /\ ~ NoDup (archive_names
                (bulk_transcripts_endpoint sample_fetch clashing_titles
                   three_videos sample_world))
  /\ archive_names
       (bulk_transcripts_endpoint sample_fetch same_titles three_videos
          sample_world)
     = ["Intro.txt"; "Intro (2).txt"; "Intro (3).txt"].
Proof.
  assert (archive_names
            (bulk_transcripts_endpoint sample_fetch clashing_titles
               three_videos sample_world)
          = ["Intro.txt"; "Intro (2).txt"; "Intro (2).txt"]) as E
    by (vm_compute; reflexivity).
  split; [exact E|]. split; [|vm_compute; reflexivity].
  rewrite E. intros H. apply NoDup_cons in H as [_ H].
  apply NoDup_cons in H as [H _]. apply H. by left.
Qed.

(** ** Transcript normaliser *)

Lemma int_of_float_Z (z : Z) : int_of_float (inject_Z z) = z.
Proof.
  unfold int_of_float. destruct (Qle_bool 0 (inject_Z z));
    [apply Qfloor_Z | apply Qceiling_Z].
Qed.

Lemma int_of_float_nonneg (x : Q) : (0 <= x)%Q -> int_of_float x = Qfloor x.
Proof.
  intros H. unfold int_of_float. apply Qle_bool_iff in H. by rewrite H.
Qed.

Lemma Qfloor_div_60 (x : Q) : Qfloor (x / (60 # 1)) = Qfloor x / 60.
Proof.
  destruct x as [a b]. unfold Qfloor, Qdiv, Qmult, Qinv. simpl.
  rewrite Z.mul_1_r, Pos2Z.inj_mul. by rewrite Z.div_div by lia.
Qed.

Lemma Qfloor_sub_60 (x : Q) (m : Z) :
  Qfloor (x - (60 # 1) * inject_Z m) = Qfloor x - 60 * m.
Proof.
  destruct x as [a b]. unfold Qfloor, Qminus, Qplus, Qopp, Qmult, inject_Z.
  cbn [Qnum Qden]. rewrite !Pos.mul_1_r, Z.mul_1_r.
  rewrite Z.div_add by lia. lia.
Qed.

Lemma spec_minutes_whole (start : Q) : spec_minutes start = Qfloor start / 60.
Proof. apply Qfloor_div_60. Qed.

Lemma spec_seconds_whole (start : Q) :
  spec_seconds start = Qfloor start mod 60.
Proof.
  unfold spec_seconds. rewrite Qfloor_sub_60, spec_minutes_whole.
  rewrite Z.mod_eq by lia. done.
Qed.

(** *** Rounding leaves the whole numbers below [2^53] as they are *)

Lemma ilog2_le (a : Q) :
  (0 < a)%Q -> (a < inject_Z (2 ^ 53))%Q -> ilog2 a <= 52.
Proof.
  intros Hpos Hlt. destruct a as [p d]. unfold ilog2. cbn [Qnum Qden].
  assert (0 < p) as Hp by (unfold Qlt in Hpos; simpl in Hpos; lia).
  assert (p < 2 ^ 53 * Z.pos d) as Hpd
    by (unfold Qlt in Hlt; cbn [Qnum Qden inject_Z] in Hlt; lia).
  assert (Z.log2 p <= 53 + Z.log2 (Z.pos d)) as Hl.
  { rewrite <- Z.log2_mul_pow2 by lia. apply Z.log2_le_mono. lia. }
  set (l := Z.log2 p - Z.log2 (Z.pos d)) in *.
  destruct (Qle_bool (pow2 l) (p # d)) eqn:E; [|lia].
  destruct (Z.eq_dec l 53) as [El|]; [|lia].
  rewrite El in E. apply Qle_bool_iff in E.
  change (pow2 53) with (inject_Z (2 ^ 53)) in E.
  exfalso. apply (Qlt_not_le _ _ Hlt E).
Qed.

Lemma round_half_even_Z (t : Q) (n : Z) :
  (t == inject_Z n)%Q -> round_half_even t = n.
Proof.
  intros H. unfold round_half_even.
  assert (Qfloor t = n) as -> by (rewrite H; apply Qfloor_Z).
  assert ((t - inject_Z n ?= 1 # 2)%Q = Lt) as ->; [|reflexivity].
  apply Qlt_alt. rewrite H.
  setoid_replace (inject_Z n - inject_Z n)%Q with 0%Q
    using relation Qeq by ring.
  reflexivity.
Qed.

Lemma fround_int (q : Q) (n : Z) :
  (q == inject_Z n)%Q -> 0 <= n < 2 ^ 53 -> (fround q == inject_Z n)%Q.
Proof.
  intros Hq Hn. unfold fround.
  destruct (Qeq_bool q 0) eqn:E0.
  { apply Qeq_bool_iff in E0. rewrite <- Hq, E0. reflexivity. }
  apply Qeq_bool_neq in E0.
  assert (0 < n) as Hpos.
  { destruct (Z.eq_dec n 0) as [->|]; [|lia]. exfalso. apply E0. exact Hq. }
  assert (0 <= q)%Q as Hq0.
  { rewrite Hq. change 0%Q with (inject_Z 0). rewrite <- Zle_Qle. lia. }
  assert (Qabs q == inject_Z n)%Q as Ha
    by (rewrite Qabs_pos by exact Hq0; exact Hq).
  assert (ilog2 (Qabs q) <= 52) as Hle.
  { apply ilog2_le; rewrite Ha.
    - change 0%Q with (inject_Z 0). rewrite <- Zlt_Qlt. lia.
    - rewrite <- Zlt_Qlt. lia. }
  set (u := Z.max (ilog2 (Qabs q) - 52) (-1074)).
  assert (u <= 0) as Hu by (unfold u; lia).
  assert (pow2 u == / inject_Z (2 ^ (- u)))%Q as Hp.
  { unfold pow2. destruct (0 <=? u) eqn:E; [|reflexivity].
    apply Z.leb_le in E. assert (u = 0) as -> by lia. reflexivity. }
  assert (0 < 2 ^ (- u)) as Hpow by (apply Z.pow_pos_nonneg; lia).
  assert (~ (inject_Z (2 ^ (- u)) == 0)%Q) as Hnz.
  { change 0%Q with (inject_Z 0). rewrite inject_Z_injective. lia. }
  rewrite (round_half_even_Z _ (n * 2 ^ (- u))).
  - apply Qle_bool_iff in Hq0. rewrite Hq0, Hp, inject_Z_mult. field.
    exact Hnz.
  - rewrite Ha, Hp, inject_Z_mult. field. exact Hnz.
Qed.

(** *** The two fields of the marker, for a start in range *)

Section Range.
Variable x : Q.
Hypothesis Hx : in_range x.

Lemma quotient_nonneg : (0 <= x / (60 # 1))%Q.
Proof.
  destruct Hx as [H0 _]. apply Qle_shift_div_l; [reflexivity|].
  rewrite Qmult_0_l. exact H0.
Qed.

Lemma fmod_60 :
  (fmod x (60 # 1) == x - (60 # 1) * inject_Z (spec_minutes x))%Q.
Proof.
  unfold fmod, spec_minutes.
  rewrite int_of_float_nonneg; [reflexivity | exact quotient_nonneg].
Qed.

Lemma fmod_60_nonneg : (0 <= fmod x (60 # 1))%Q.
Proof.
  rewrite fmod_60. unfold spec_minutes.
  pose proof (Qfloor_le (x / (60 # 1))) as H1.
  assert (x == (60 # 1) * (x / (60 # 1)))%Q as E by field.
  apply (Qmult_le_l _ _ (60 # 1)) in H1; [|reflexivity].
  rewrite <- E in H1. lra.
Qed.

Lemma stamp_seconds :
  int_of_float (float_mod x (60 # 1)) = spec_seconds x.
Proof.
  pose proof fmod_60_nonneg as H0. unfold float_mod.
  assert (is_neg (fmod x (60 # 1)) = false) as Hn
    by (unfold is_neg; apply Qle_bool_iff in H0; by rewrite H0).
  rewrite Hn. change (is_neg (60 # 1)) with false. cbn [xorb].
  unfold spec_seconds.
  destruct (Qeq_bool (fmod x (60 # 1)) 0) eqn:E.
  - apply Qeq_bool_iff in E. rewrite <- fmod_60, E. reflexivity.
  - rewrite int_of_float_nonneg by exact H0. by rewrite fmod_60.
Qed.

Lemma stamp_minutes :
  int_of_float (float_floordiv x (60 # 1)) = spec_minutes x.
Proof.
  pose proof fmod_60_nonneg as H0.
  assert (0 <= spec_minutes x) as Hk.
  { unfold spec_minutes. rewrite <- (Qfloor_Z 0).
    apply Qfloor_resp_le, quotient_nonneg. }
  unfold float_floordiv.
  assert (is_neg (fmod x (60 # 1)) = false) as Hn
    by (unfold is_neg; apply Qle_bool_iff in H0; by rewrite H0).
  rewrite Hn. change (is_neg (60 # 1)) with false. cbn [xorb].
  rewrite andb_false_r.
  set (k := spec_minutes x) in *.
  assert (x - fmod x (60 # 1) == inject_Z (60 * k))%Q as E1.
  { rewrite fmod_60, inject_Z_mult. change (inject_Z 60) with (60 # 1).
    fold k. ring. }
  assert (60 * k < 2 ^ 53) as Hb.
  { destruct Hx as [_ Hlt]. rewrite fmod_60 in H0. fold k in H0.
    rewrite Zlt_Qlt. eapply Qle_lt_trans; [|exact Hlt].
    rewrite inject_Z_mult. change (inject_Z 60) with (60 # 1). lra. }
  pose proof (fround_int _ _ E1 ltac:(lia)) as E2.
  assert (fround (x - fmod x (60 # 1)) / (60 # 1) == inject_Z k)%Q as E3.
  { rewrite E2, inject_Z_mult. change (inject_Z 60) with (60 # 1). field. }
  pose proof (fround_int _ _ E3 ltac:(lia)) as E4.
  set (div := fround (fround (x - fmod x (60 # 1)) / (60 # 1))) in *.
  destruct (Qeq_bool div 0) eqn:E.
  - apply Qeq_bool_iff in E.
    assert (k = 0) as Hk0.
    { apply (proj1 (inject_Z_injective k 0)). rewrite <- E4, E. reflexivity. }
    rewrite Hk0. reflexivity.
  - assert (Qfloor div = k) as -> by (rewrite E4; apply Qfloor_Z).
    assert ((div - inject_Z k ?= 1 # 2)%Q = Lt) as ->.
    { apply Qlt_alt. rewrite E4.
      setoid_replace (inject_Z k - inject_Z k)%Q with 0%Q
        using relation Qeq by ring.
      reflexivity. }
    apply int_of_float_Z.
Qed.
End Range.

Lemma in_range_zero : in_range (0 # 1).
Proof. split; [apply Qle_refl | reflexivity]. Qed.

(** *** The loop *)

Lemma normalize_step_code (ts : bool) (lines : list string) (seg : segment) :
  normalize_step ts lines seg
  = lines ++ (if spec_kept seg then [code_line ts seg] else []).
Proof.
  unfold normalize_step, spec_kept, code_line. fold (spec_text seg).
  destruct (str_nonempty (spec_text seg)); simpl; [|by rewrite app_nil_r].
  by destruct ts.
Qed.

Lemma normalize_fold_code (ts : bool) (segs : list segment) :
  forall lines,
  fold_left (normalize_step ts) segs lines = lines ++ code_lines ts segs.
Proof.
  unfold code_lines.
  induction segs as [|seg segs IH]; intros lines; simpl; [by rewrite app_nil_r|].
  rewrite IH, normalize_step_code, <- app_assoc.
  by destruct (spec_kept seg).
Qed.

Lemma normalize_transcript_code (segs : list segment) (ts : bool) :
  normalize_transcript segs ts = str_join newline (code_lines ts segs).
Proof. unfold normalize_transcript. by rewrite normalize_fold_code. Qed.

Lemma code_line_spec (ts : bool) (seg : segment) :
  (ts = true -> in_range (default (0 # 1)%Q (seg_start seg))) ->
  code_line ts seg = spec_line ts seg.
Proof.
  intros H. unfold code_line, spec_line. fold (spec_text seg).
  destruct ts; [|done]. cbv zeta.
  by rewrite stamp_minutes, stamp_seconds by by apply H.
Qed.

Lemma code_lines_spec (ts : bool) (segs : list segment) :
  (ts = true ->
   Forall (λ seg, in_range (default (0 # 1)%Q (seg_start seg))) segs) ->
  code_lines ts segs = spec_lines ts segs.
Proof.
  intros H. unfold code_lines, spec_lines.
  induction segs as [|seg segs IH]; [done|]. cbn [List.filter].
  assert (ts = true ->
          Forall (λ seg, in_range (default (0 # 1)%Q (seg_start seg))) segs)
    as Hs by (intros Ht; by apply Forall_cons in H as [_ ?]).
  destruct (spec_kept seg); [|by apply IH]. cbn [map].
  rewrite IH by done. f_equal. apply code_line_spec.
  intros Ht. by apply Forall_cons in H as [? _].
Qed.

Lemma tight_no_newline (l r : string) : tight l -> l <> r +:+ newline.
Proof.
  intros [_ Hl] ->. rewrite rstrip_newline in Hl.
  pose proof (length_rstrip r) as H. rewrite Hl, length_app_s in H.
  simpl in H. lia.
Qed.

Lemma tight_app (a b : string) : tight b -> tight (a +:+ b).
Proof.
  intros [Hb Hr]. split.
  - destruct a; [done | discriminate].
  - rewrite rstrip_app_keep; by rewrite Hr.
Qed.

Lemma tight_strip (s : string) : str_nonempty (strip s) = true -> tight (strip s).
Proof.
  intros H. split; [by destruct (strip s)|]. apply rstrip_idem.
Qed.

Lemma code_lines_tight (ts : bool) (segs : list segment) :
  Forall tight (code_lines ts segs).
Proof.
  unfold code_lines. apply Forall_forall.
  intros l (seg & <- & Hseg)%list_elem_of_In%in_map_iff.
  apply filter_In in Hseg as [_ Hk].
  pose proof (tight_strip _ Hk) as Ht.
  unfold code_line. destruct ts; [|done].
  by do 5 apply tight_app.
Qed.

Lemma join_tight (lines : list string) :
  lines <> [] -> Forall tight lines -> tight (str_join newline lines).
Proof.
  induction 2 as [|x lines Hx Hl IH]; [done|].
  destruct lines as [|y lines]; [done|].
  change (tight (x +:+ newline +:+ str_join newline (y :: lines))).
  do 2 apply tight_app. by apply IH.
Qed.

Local Arguments Nat.div : simpl never.
Local Arguments Nat.modulo : simpl never.

Lemma digits_fuel_length (fuel n : nat) (acc : string) :
  (String.length acc + (if fuel is O then 0 else 1)
   <= String.length (digits_fuel fuel n acc))%nat.
Proof.
  revert n acc. induction fuel as [|fuel IH]; intros n acc; simpl; [lia|].
  destruct (n / 10 =? 0)%nat; simpl; [lia|].
  specialize (IH (n / 10)%nat (String (digit_char (n mod 10)) acc)).
  simpl in IH. destruct fuel; lia.
Qed.

Lemma nat_to_str_small (n : nat) :
  (n < 10)%nat -> nat_to_str n = String (digit_char n) EmptyString.
Proof.
  intros H. unfold nat_to_str. simpl.
  rewrite Nat.div_small, Nat.mod_small by lia. done.
Qed.

Lemma nat_to_str_large (n : nat) :
  (10 <= n)%nat -> (2 <= String.length (nat_to_str n))%nat.
Proof.
  intros H. unfold nat_to_str. simpl.
  destruct (n / 10 =? 0)%nat eqn:E.
  - apply Nat.eqb_eq in E. apply Nat.div_small_iff in E; lia.
  - pose proof (digits_fuel_length n (n / 10)
                  (String (digit_char (n mod 10)) EmptyString)) as Hl.
    simpl in Hl. destruct n; [lia|]. lia.
Qed.

Lemma fmt_02d_nonneg (n : Z) :
  0 <= n ->
  fmt_02d n = (if n <? 10 then String "0" (nat_to_str (Z.to_nat n))
               else nat_to_str (Z.to_nat n))
  /\ (2 <= String.length (fmt_02d n))%nat.
Proof.
  intros Hn. unfold fmt_02d.
  replace (n <? 0) with false by (symmetry; apply Z.ltb_ge; lia).
  destruct (n <? 10) eqn:E.
  - apply Z.ltb_lt in E. rewrite nat_to_str_small by lia. done.
  - apply Z.ltb_ge in E. pose proof (nat_to_str_large (Z.to_nat n)) as Hl.
    replace (String.length (nat_to_str (Z.to_nat n)) <? 2)%nat with false
      by (symmetry; apply Nat.ltb_ge; lia).
    split; [done | lia].
Qed.

Lemma digits_fuel_app (fuel n : nat) (acc : string) :
  digits_fuel fuel n acc = digits_fuel fuel n EmptyString +:+ acc.
Proof.
  revert n acc. induction fuel as [|fuel IH]; intros n acc; simpl; [done|].
  destruct (n / 10 =? 0)%nat; [done|].
  rewrite IH, (IH _ (String _ EmptyString)), app_assoc_s. done.
Qed.

Lemma digits_fuel_enough (f1 f2 n : nat) (acc : string) :
  (n < f1)%nat -> (n < f2)%nat -> digits_fuel f1 n acc = digits_fuel f2 n acc.
Proof.
  revert f2 n acc. induction f1 as [|f1 IH]; intros [|f2] n acc H1 H2;
    try lia.
  simpl. destruct (n / 10 =? 0)%nat eqn:E; [done|].
  apply Nat.eqb_neq in E.
  assert (n / 10 < n)%nat by (apply Nat.div_lt; [destruct n; [done | lia] | lia]).
  apply IH; lia.
Qed.

Lemma digits_fuel_S (fuel n : nat) (acc : string) :
  digits_fuel (S fuel) n acc
  = if (n / 10 =? 0)%nat then String (digit_char (n mod 10)) acc
    else digits_fuel fuel (n / 10) (String (digit_char (n mod 10)) acc).
Proof. reflexivity. Qed.

Lemma nat_to_str_step (n : nat) :
  (10 <= n)%nat ->
  nat_to_str n
  = nat_to_str (n / 10) +:+ String (digit_char (n mod 10)) EmptyString.
Proof.
  intros H. unfold nat_to_str. rewrite (digits_fuel_S n n).
  destruct (n / 10 =? 0)%nat eqn:E.
  { apply Nat.eqb_eq, Nat.div_small_iff in E; lia. }
  assert (n / 10 < n)%nat by (apply Nat.div_lt; lia).
  rewrite digits_fuel_app. f_equal. apply digits_fuel_enough; lia.
Qed.

Lemma spec_fields (start : Q) :
  in_range start ->
  spec_minutes start = Qfloor start / 60
  /\ spec_seconds start = Qfloor start mod 60
  /\ 0 <= spec_seconds start < 60
  /\ 0 <= spec_minutes start.
Proof.
  intros [H0 _]. rewrite spec_minutes_whole, spec_seconds_whole.
  do 2 (split; [done|]). split; [apply Z.mod_pos_bound; lia|].
  apply Z.div_pos; [|lia]. rewrite <- (Qfloor_Z 0). by apply Qfloor_resp_le.
Qed.

(** C2 (as amended): [normalize_transcript] trims each segment's text,
    drops the segments whose trimmed text is empty, keeps the others in
    order and joins the lines with single newlines, leaving no newline at
    the end. With timestamps, and every start time at least 0 and below
    2^53 (0 standing for an absent one), each kept line starts with
    [MM:SS], minutes being [floor(start / 60)] and seconds
    [floor(start mod 60)], that is the whole seconds divided by 60 and
    their remainder; a field below ten is padded with one zero and a
    larger one is printed in full. *)
Theorem normalize_transcript_lines (segs : list segment) (ts : bool) :
  (ts = true ->
   Forall (λ seg, in_range (default (0 # 1)%Q (seg_start seg))) segs) ->
  normalize_transcript segs ts = str_join newline (spec_lines ts segs)
  /\ (forall r, normalize_transcript segs ts <> r +:+ newline)
  /\ (ts = true ->
      Forall (λ seg,
        let start := default (0 # 1)%Q (seg_start seg) in
        spec_minutes start = Qfloor start / 60
        /\ spec_seconds start = Qfloor start mod 60
        /\ 0 <= spec_seconds start < 60
        /\ 0 <= spec_minutes start
        /\ (2 <= String.length (fmt_02d (spec_minutes start)))%nat
        /\ fmt_02d (spec_minutes start)
           = (if spec_minutes start <? 10
              then String "0" (nat_to_str (Z.to_nat (spec_minutes start)))
              else nat_to_str (Z.to_nat (spec_minutes start)))
        /\ String.length (fmt_02d (spec_seconds start)) = 2%nat) segs).
Proof.
  intros Hr. split; [|split].
  - by rewrite normalize_transcript_code, code_lines_spec.
  - intros r. rewrite normalize_transcript_code.
    destruct (code_lines ts segs) as [|l lines] eqn:E.
    + simpl. by destruct r.
    + apply tight_no_newline, join_tight; [done|].
      rewrite <- E. apply code_lines_tight.
  - intros Ht. eapply Forall_impl; [exact (Hr Ht)|]. intros seg Hseg.
    cbv zeta. destruct (spec_fields _ Hseg) as (Hm & Hs & Hsb & Hmb).
    do 4 (split; [done|]).
    destruct (fmt_02d_nonneg _ Hmb) as [Hf Hl].
    do 2 (split; [done|]).
    destruct (fmt_02d_nonneg (spec_seconds (default (0 # 1)%Q (seg_start seg))))
      as [Hfs _]; [lia|].
    rewrite Hfs. clear Hf Hl Hfs. destruct (_ <? 10) eqn:E.
    + apply Z.ltb_lt in E. rewrite nat_to_str_small by lia. done.
    + apply Z.ltb_ge in E.
      assert (exists d1 d0 : nat,
                Z.to_nat (spec_seconds (default (0 # 1)%Q (seg_start seg)))
                = (10 * d1 + d0)%nat /\ (1 <= d1 < 6)%nat /\ (d0 < 10)%nat)
        as (d1 & d0 & -> & Hd1 & Hd0).
      { set (n := Z.to_nat _). exists (n / 10)%nat, (n mod 10)%nat.
        assert (10 <= n < 60)%nat by (unfold n; lia).
        split; [apply Nat.div_mod_eq|]. split.
        - split; [apply Nat.div_le_lower_bound; lia
                 | apply Nat.Div0.div_lt_upper_bound; lia].
        - apply Nat.mod_upper_bound. lia. }
      rewrite nat_to_str_step by lia.
      replace ((10 * d1 + d0) / 10)%nat with d1
        by (symmetry; rewrite Nat.mul_comm, Nat.div_add_l by lia;
            rewrite Nat.div_small by lia; lia).
      rewrite nat_to_str_small by lia. done.
Qed.

Lemma normalize_transcript_lines_witness :
  normalize_transcript test_segments true
  = "[00:01] Hello world" +:+ newline +:+ "[01:02] Test" +:+ newline
    +:+ "[62:05] late".
Proof.
  destruct (normalize_transcript_lines test_segments true) as [H _].
  - intros _. unfold test_segments.
    repeat (apply Forall_cons; split;
            [split; [by vm_compute | reflexivity]|]).
    apply Forall_nil. done.
  - rewrite H. vm_compute. reflexivity.
Defined.

(** C2 as stated fails outside that range: for a start of [-1e-20] the
    sum of the remainder and 60 rounds to 60, so the marker reads [-1:60],
    where [floor(start mod 60)] is 59; and for a start of [1e19] the
    quotient is rounded, so the minutes are not [floor(start / 60)]. *)
Lemma normalize_transcript_float_counterexample :
  ~ (forall segs,
       normalize_transcript segs true = str_join newline (spec_lines true segs)).
Proof.
  intros H. specialize (H [Segment (Some "x") (Some tiny_negative)]).
  vm_compute in H. discriminate H.
Qed.

Example normalize_transcript_tiny_negative :
  normalize_transcript [Segment (Some "x") (Some tiny_negative)] true
  = "[-1:60] x"
  /\ spec_seconds tiny_negative = 59.
Proof. vm_compute. done. Qed.

Example float_floordiv_huge :
  int_of_float (float_floordiv huge_start (60 # 1)) = 166666666666666656
  /\ spec_minutes huge_start = 166666666666666666.
Proof. vm_compute. done. Qed.

(** ** The repository's unit tests *)

Example test_parse_video_id_valid_watch :
  parse_video_id (PyStr "https://www.youtube.com/watch?v=dQw4w9WgXcQ")
  = Ok "dQw4w9WgXcQ".
Proof. vm_compute. reflexivity. Qed.

Example test_parse_video_id_shortlink :
  parse_video_id (PyStr "https://youtu.be/dQw4w9WgXcQ") = Ok "dQw4w9WgXcQ".
Proof. vm_compute. reflexivity. Qed.

Example test_parse_video_id_embed :
  parse_video_id (PyStr "https://www.youtube.com/embed/dQw4w9WgXcQ")
  = Ok "dQw4w9WgXcQ".
Proof. vm_compute. reflexivity. Qed.

Example test_parse_video_id_invalid :
  exists msg, parse_video_id (PyStr "https://example.com") = Raise (ValueError msg).
Proof. eexists. vm_compute. reflexivity. Qed.

Example test_normalize_transcript_no_timestamps :
  normalize_transcript
    [Segment (Some "Hello world") (Some (1 # 1)%Q);
     Segment (Some "Test") (Some (3 # 1)%Q)] false
  = "Hello world" +:+ newline +:+ "Test".
Proof. vm_compute. reflexivity. Qed.

Example test_normalize_transcript_with_timestamps :
  normalize_transcript
    [Segment (Some "Hello world") (Some (1 # 1)%Q);
     Segment (Some "Test") (Some (125 # 2)%Q)] true
  = "[00:01] Hello world" +:+ newline +:+ "[01:02] Test".
Proof. vm_compute. reflexivity. Qed.

Example parse_optional_ids :
  parse_playlist_id (PyStr "https://www.youtube.com/playlist?list=PL123_-x&a=b")
    = Ok (Some "PL123_-x")
  /\ parse_channel_id
       (PyStr "https://www.youtube.com/channel/UCabcdefghijklmnopqrstuv/videos")
     = Ok (Some "UCabcdefghijklmnopqrstuv")
  /\ parse_channel_handle (PyStr "https://www.youtube.com/@some.name/videos")
     = Ok (Some "some.name").
Proof. vm_compute. repeat split. Qed.

Example sanitize_filename_examples :
  sanitize_filename " a/b: c*?<d>|e " = "ab cde"
  /\ sanitize_filename "///" = "transcript".
Proof. vm_compute. split; reflexivity. Qed.

(** * Further properties *)

(** ** File names *)

Lemma has_char_app (c : ascii) (a b : string) :
  has_char c (a +:+ b) = has_char c a || has_char c b.
Proof. induction a as [|d a IH]; simpl; [done|]. by rewrite IH, orb_assoc. Qed.

Lemma has_char_remove_same (c : ascii) (s : string) :
  has_char c (remove_char c s) = false.
Proof.
  induction s as [|d s IH]; simpl; [done|].
  destruct (code d =? code c)%N eqn:E; simpl; [done|]. by rewrite E.
Qed.

Lemma has_char_remove_other (c d : ascii) (s : string) :
  has_char c s = false -> has_char c (remove_char d s) = false.
Proof.
  induction s as [|e s IH]; simpl; [done|].
  intros [He Hs]%orb_false_iff.
  destruct (code e =? code d)%N; simpl; [by apply IH|].
  rewrite He. by apply IH.
Qed.

Lemma remove_char_absent (c : ascii) (s : string) :
  has_char c s = false -> remove_char c s = s.
Proof.
  induction s as [|e s IH]; simpl; [done|].
  intros [He Hs]%orb_false_iff. rewrite He. by rewrite IH.
Qed.

Lemma has_char_lstrip (c : ascii) (s : string) :
  has_char c s = false -> has_char c (lstrip s) = false.
Proof.
  induction s as [|e s IH]; simpl; [done|].
  intros H. destruct (isspace e); [|done].
  apply orb_false_iff in H as [_ H]. by apply IH.
Qed.

Lemma has_char_rstrip (c : ascii) (s : string) :
  has_char c s = false -> has_char c (rstrip s) = false.
Proof.
  intros H. destruct (rstrip_prefix s) as [ws Hws].
  rewrite Hws, has_char_app in H. by apply orb_false_iff in H as [H _].
Qed.

Lemma has_char_strip (c : ascii) (s : string) :
  has_char c s = false -> has_char c (strip s) = false.
Proof. intros H. by apply has_char_rstrip, has_char_lstrip. Qed.

Lemma has_char_substring (c : ascii) (s : string) (n : nat) :
  has_char c s = false -> has_char c (String.substring 0 n s) = false.
Proof.
  revert n. induction s as [|e s IH]; intros [|n]; simpl; try done.
  intros [He Hs]%orb_false_iff. rewrite He. by apply IH.
Qed.

Lemma length_substring_le (s : string) (n : nat) :
  (String.length (String.substring 0 n s) <= n)%nat.
Proof.
  revert n. induction s as [|e s IH]; intros [|n]; simpl; try lia.
  specialize (IH n). lia.
Qed.

Lemma substring_all (s : string) (n : nat) :
  (String.length s <= n)%nat -> String.substring 0 n s = s.
Proof.
  revert n. induction s as [|e s IH]; intros [|n]; simpl; try done; try lia.
  intros H. rewrite IH; [done | lia].
Qed.

Lemma sanitize_filename_eq (name : string) :
  sanitize_filename name
  = String.substring 0 120
      (if str_nonempty (cleaned_name name) then cleaned_name name
       else "transcript").
Proof. reflexivity. Qed.

Lemma cleaned_name_free (name : string) :
  Forall (λ c, has_char c (cleaned_name name) = false) forbidden_chars.
Proof.
  unfold cleaned_name, forbidden_chars.
  repeat (apply Forall_cons; split;
    [apply has_char_strip;
     repeat first [apply has_char_remove_same | apply has_char_remove_other]|]).
  apply Forall_nil. done.
Qed.

(** X1: whatever the title, [sanitize_filename] returns a name that is not
    empty, has at most 120 characters and holds none of the nine characters it
    removes (backslash, slash, colon, star, question mark, double quote,
    angle brackets, bar). *)
Theorem sanitize_filename_safe (name : string) :
  sanitize_filename name <> EmptyString
  /\ (String.length (sanitize_filename name) <= 120)%nat
  /\ Forall (λ c, has_char c (sanitize_filename name) = false) forbidden_chars.
Proof.
  rewrite sanitize_filename_eq. split; [|split].
  - destruct (cleaned_name name); simpl; discriminate.
  - apply length_substring_le.
  - pose proof (cleaned_name_free name) as H.
    destruct (str_nonempty (cleaned_name name)).
    + eapply Forall_impl; [exact H|]. intros c Hc. by apply has_char_substring.
    + unfold forbidden_chars. repeat constructor.
Qed.

Lemma cleaned_name_keeps (name : string) :
  strip name = name ->
  Forall (λ c, has_char c name = false) forbidden_chars ->
  cleaned_name name = name.
Proof.
  intros Hs Hf. unfold forbidden_chars in Hf.
  repeat (apply Forall_cons in Hf as [? Hf]).
  unfold cleaned_name.
  rewrite (remove_char_absent "\" name), (remove_char_absent "/" name),
    (remove_char_absent ":" name), (remove_char_absent "*" name),
    (remove_char_absent "?" name), (remove_char_absent dquote name),
    (remove_char_absent "<" name), (remove_char_absent ">" name),
    (remove_char_absent "|" name) by done.
  exact Hs.
Qed.

(** X2: a name that is not empty, has no whitespace at either end, at most
    120 characters and none of the nine removed characters is a fixed point
    of [sanitize_filename]. *)
Theorem sanitize_filename_keeps (name : string) :
  name <> EmptyString ->
  strip name = name ->
  (String.length name <= 120)%nat ->
  Forall (λ c, has_char c name = false) forbidden_chars ->
  sanitize_filename name = name.
Proof.
  intros Hne Hs Hl Hf. rewrite sanitize_filename_eq, cleaned_name_keeps by done.
  destruct name; [done|]. cbn [str_nonempty]. by apply substring_all.
Qed.

Lemma sanitize_filename_keeps_witness :
  sanitize_filename "Intro (2)" = "Intro (2)".
Proof.
  apply sanitize_filename_keeps; [done | reflexivity | simpl; lia |].
  unfold forbidden_chars. repeat constructor.
Defined.

Lemma all_chars_impl (P Q : ascii -> bool) (s : string) :
  (forall c, P c = true -> Q c = true) ->
  all_chars P s = true -> all_chars Q s = true.
Proof.
  intros H. induction s as [|c s IH]; simpl; [done|].
  intros [Hc Hs]%andb_true_iff. rewrite (H c Hc). by apply IH.
Qed.

Lemma remove_char_all (P : ascii -> bool) (c : ascii) (s : string) :
  all_chars (λ d, P d || (code d =? code c)%N) s = true ->
  all_chars P (remove_char c s) = true.
Proof.
  induction s as [|d s IH]; simpl; [done|].
  intros [Hd Hs]%andb_true_iff.
  destruct (code d =? code c)%N; simpl; [by apply IH|].
  rewrite orb_false_r in Hd. rewrite Hd. by apply IH.
Qed.

Lemma lstrip_all_space (s : string) :
  all_chars isspace s = true -> lstrip s = EmptyString.
Proof.
  induction s as [|c s IH]; simpl; [done|].
  intros [Hc Hs]%andb_true_iff. rewrite Hc. by apply IH.
Qed.

Lemma length_remove_char (c : ascii) (s : string) :
  (String.length (remove_char c s) <= String.length s)%nat.
Proof.
  induction s as [|d s IH]; simpl; [lia|].
  destruct (code d =? code c)%N; simpl; lia.
Qed.

Lemma length_strip (s : string) :
  (String.length (strip s) <= String.length s)%nat.
Proof.
  unfold strip. pose proof (length_rstrip (lstrip s)).
  pose proof (length_lstrip s). lia.
Qed.

Lemma length_cleaned_name (name : string) :
  (String.length (cleaned_name name) <= String.length name)%nat.
Proof.
  unfold cleaned_name.
  repeat first
    [ etrans; [apply length_strip|]
    | etrans; [apply length_remove_char|] ].
  done.
Qed.

Lemma lstrip_rstrip (s : string) : lstrip (rstrip (lstrip s)) = rstrip (lstrip s).
Proof.
  assert (forall t, lstrip t = t -> lstrip (rstrip t) = rstrip t) as H.
  { intros [|c t]; [done|]. simpl. destruct (isspace c) eqn:E.
    - intros Ht. pose proof (length_lstrip t) as Hl. rewrite Ht in Hl.
      simpl in Hl. lia.
    - intros _. destruct (rstrip t); simpl; by rewrite E. }
  apply H. induction s as [|c s IH]; simpl; [done|].
  destruct (isspace c) eqn:E; [done|]. simpl. by rewrite E.
Qed.

Lemma strip_idem (s : string) : strip (strip s) = strip s.
Proof. unfold strip. by rewrite lstrip_rstrip, rstrip_idem. Qed.

(** X3: a title made only of removed characters and whitespace, the empty
    title included, is replaced by the name "transcript". *)
Theorem sanitize_filename_fallback (name : string) :
  all_chars removed_or_space name = true ->
  sanitize_filename name = "transcript".
Proof.
  intros H. rewrite sanitize_filename_eq.
  assert (cleaned_name name = EmptyString) as ->; [|reflexivity].
  unfold cleaned_name, strip. rewrite lstrip_all_space; [done|].
  do 9 apply remove_char_all.
  eapply all_chars_impl; [|exact H].
  intros c. unfold removed_or_space, forbidden_chars. cbn [existsb].
  rewrite !orb_true_iff. intuition discriminate.
Qed.

Lemma sanitize_filename_fallback_witness :
  sanitize_filename " /?: * " = "transcript".
Proof. apply sanitize_filename_fallback. reflexivity. Defined.

(** X4: on a title of at most 120 characters [sanitize_filename] is
    idempotent, and its result has no whitespace at either end. *)
Theorem sanitize_filename_idempotent (name : string) :
  (String.length name <= 120)%nat ->
  sanitize_filename (sanitize_filename name) = sanitize_filename name
  /\ strip (sanitize_filename name) = sanitize_filename name.
Proof.
  intros Hl. rewrite (sanitize_filename_eq name).
  destruct (str_nonempty (cleaned_name name)) eqn:E; [|by vm_compute].
  pose proof (length_cleaned_name name) as Hc.
  rewrite substring_all by lia.
  assert (strip (cleaned_name name) = cleaned_name name) as Hs
    by apply strip_idem.
  split; [|exact Hs].
  rewrite sanitize_filename_eq, cleaned_name_keeps, E
    by (done || apply cleaned_name_free).
  apply substring_all. lia.
Qed.

Lemma sanitize_filename_idempotent_witness :
  sanitize_filename (sanitize_filename " a/b: c ") = sanitize_filename " a/b: c "
  /\ strip (sanitize_filename " a/b: c ") = sanitize_filename " a/b: c ".
Proof. apply sanitize_filename_idempotent. simpl. lia. Defined.

(** Past 120 characters the cut can leave whitespace at the end, which a
    second pass trims: here the first pass gives 119 letters and a blank. *)
Example sanitize_filename_cut :
  let name :=
    "aaaaaaaaaaaaaaaaaaaaaaaaaaaaaaaaaaaaaaaaaaaaaaaaaaaaaaaaaaaaaaaaaaaaaaaaaaaaaaaaaaaaaaaaaaaaaaaaaaaaaaaaaaaaaaaaaaaaaaa b" in
  String.length (sanitize_filename name) = 120%nat
  /\ String.length (sanitize_filename (sanitize_filename name)) = 119%nat.
Proof. vm_compute. done. Qed.

(** ** Decimal numerals *)

Lemma digit_char_inj (a b : nat) :
  (a < 10)%nat -> (b < 10)%nat -> digit_char a = digit_char b -> a = b.
Proof.
  intros Ha Hb H. unfold digit_char in H.
  apply (f_equal nat_of_ascii) in H.
  rewrite !nat_ascii_embedding in H by lia. lia.
Qed.

Lemma app_last_inj (a b : string) (c d : ascii) :
  a +:+ String c EmptyString = b +:+ String d EmptyString -> a = b /\ c = d.
Proof.
  revert b. induction a as [|x a IH]; intros [|y b]; simpl.
  - by intros [= ->].
  - intros [= _ H]. by destruct b.
  - intros [= _ H]. by destruct a.
  - intros [= -> H]. apply IH in H as [-> ->]. done.
Qed.

Lemma nat_to_str_inj (n m : nat) : nat_to_str n = nat_to_str m -> n = m.
Proof.
  revert m. induction (lt_wf n) as [n _ IH]. intros m H.
  destruct (Nat.lt_ge_cases n 10) as [Hn|Hn], (Nat.lt_ge_cases m 10) as [Hm|Hm].
  - rewrite !nat_to_str_small in H by done. injection H as H.
    by apply digit_char_inj.
  - pose proof (nat_to_str_large m Hm) as Hl.
    rewrite <- H, nat_to_str_small in Hl by done. simpl in Hl. lia.
  - pose proof (nat_to_str_large n Hn) as Hl.
    rewrite H, nat_to_str_small in Hl by done. simpl in Hl. lia.
  - rewrite (nat_to_str_step n), (nat_to_str_step m) in H by done.
    apply app_last_inj in H as [Hq Hr].
    apply IH in Hq; [|apply Nat.div_lt; lia].
    apply digit_char_inj in Hr; try (apply Nat.mod_upper_bound; lia).
    rewrite (Nat.div_mod_eq n 10), (Nat.div_mod_eq m 10). lia.
Qed.

Lemma digit_char_not_paren (d : nat) :
  (d < 10)%nat -> (code (digit_char d) =? code "(")%N = false.
Proof. intros H. do 10 (destruct d as [|d]; [done|]). lia. Qed.

Lemma nat_to_str_no_paren (n : nat) : has_char "(" (nat_to_str n) = false.
Proof.
  induction (lt_wf n) as [n _ IH].
  destruct (Nat.lt_ge_cases n 10) as [Hn|Hn].
  - rewrite nat_to_str_small by done. cbn [has_char].
    by rewrite digit_char_not_paren.
  - rewrite nat_to_str_step, has_char_app, IH by (done || apply Nat.div_lt; lia).
    cbn [has_char orb]. rewrite digit_char_not_paren; [done|].
    apply Nat.mod_upper_bound. lia.
Qed.

(** ** Names unique within an archive *)

Lemma numbered_split (a a' d d' : string) :
  has_char "(" d = false -> has_char "(" d' = false ->
  a +:+ " (" +:+ d = a' +:+ " (" +:+ d' -> a = a' /\ d = d'.
Proof.
  intros Hd Hd'. revert a'.
  induction a as [|x a IH]; intros [|y a']; simpl.
  - by intros [= ->].
  - intros [= _ H]. destruct a' as [|z a']; simpl in H; [done|].
    injection H as _ H. rewrite H, has_char_app in Hd. simpl in Hd.
    by rewrite orb_true_r in Hd.
  - intros [= _ H]. destruct a as [|z a]; simpl in H; [done|].
    injection H as _ H. rewrite <- H, has_char_app in Hd'. simpl in Hd'.
    by rewrite orb_true_r in Hd'.
  - intros [= -> H]. apply IH in H as [-> ->]. done.
Qed.

Lemma numbered_inj (b b' : string) (k k' : nat) :
  numbered b k = numbered b' k' -> b = b' /\ k = k'.
Proof.
  unfold numbered. intros H.
  apply numbered_split in H as [-> H];
    try (rewrite has_char_app, nat_to_str_no_paren; done).
  split; [done|]. apply app_last_inj in H as [H _]. by apply nat_to_str_inj.
Qed.

Lemma ends_with_last (c : ascii) (a : string) :
  ends_with c (a +:+ String c EmptyString) = true.
Proof.
  induction a as [|x a IH]; simpl; [apply code_eqb_refl|].
  destruct (a +:+ String c EmptyString) eqn:E; [by destruct a | exact IH].
Qed.

Lemma ends_with_numbered (b : string) (k : nat) :
  ends_with ")" (numbered b k) = true.
Proof.
  unfold numbered. rewrite <- !app_assoc_s. apply ends_with_last.
Qed.

Lemma length_unique_names (bs : list string) (used : gmap string nat) :
  length (unique_names bs used) = length bs.
Proof.
  revert used. induction bs as [|b bs IH]; intros used; simpl; [done|].
  destruct (unique_name b used) as [n used']. simpl. by rewrite IH.
Qed.

Lemma uses_cons (b x : string) (l : list string) :
  uses b (x :: l) = ((if decide (x = b) then 1 else 0) + uses b l)%nat.
Proof.
  unfold uses. rewrite filter_cons. by destruct (decide (x = b)).
Qed.

(** The name returned at each position, from any counter dictionary whose
    counts are positive. *)
Lemma unique_names_lookup (bs : list string) :
  forall (used : gmap string nat) (i : nat) (b : string),
  (forall x k, used !! x = Some k -> (1 <= k)%nat) ->
  bs !! i = Some b ->
  unique_names bs used !! i
  = Some (kth_name b (default 0%nat (used !! b) + uses b (take i bs))).
Proof.
  induction bs as [|b0 bs IH]; intros used i b Hpos Hi; [done|].
  simpl. pose proof (unique_name_counts b0) as Hc.
  destruct i as [|i].
  - injection Hi as ->. clear Hc. unfold unique_name, uses. simpl.
    destruct (used !! b) as [k|] eqn:E; simpl; [|done].
    apply Hpos in E. rewrite Nat.add_0_r. destruct k; [lia | done].
  - simpl in Hi. destruct (unique_name b0 used) as [n used'] eqn:E.
    specialize (Hc b used). rewrite E in Hc. simpl in Hc.
    simpl. rewrite (IH used' i b); [|
      intros x k; pose proof (unique_name_counts b0 x used) as Hx;
      rewrite E in Hx; simpl in Hx; rewrite Hx;
      destruct (decide (b0 = x)); [intros [= <-]; lia | apply Hpos] | done].
    rewrite Hc, uses_cons. f_equal. f_equal.
    destruct (decide (b0 = b)) as [->|]; simpl; lia.
Qed.

Lemma uses_take_lt (bs : list string) (b : string) (i j : nat) :
  bs !! i = Some b -> (i < j)%nat ->
  (uses b (take i bs) < uses b (take j bs))%nat.
Proof.
  intros Hi Hij. pose proof (lookup_lt_Some _ _ _ Hi) as Hlen.
  rewrite <- (take_drop_middle bs i b Hi) at 2.
  rewrite take_app, length_take, Nat.min_l by lia.
  replace (j - i)%nat with (S (j - i - 1)) by lia.
  rewrite firstn_cons. unfold uses.
  rewrite take_take, Nat.min_r, filter_app, filter_cons, length_app by lia.
  destruct (decide (b = b)); [simpl; lia | done].
Qed.

(** X5: in a run of [unique_name] calls that starts with an empty counter
    dictionary, the first use of a base name returns it as it is and the
    k-th use (k at least 2) returns the base followed by " (k)". *)
Theorem unique_names_kth (l1 l2 : list string) (b : string) :
  unique_names (l1 ++ b :: l2) ∅ !! length l1
  = Some (match uses b l1 with
          | O => b
          | S k => b +:+ " (" +:+ nat_to_str (S (S k)) +:+ ")"
          end).
Proof.
  rewrite (unique_names_lookup _ ∅ (length l1) b); [|done|].
  - rewrite lookup_empty, take_app_length. cbn [default Nat.add].
    unfold kth_name, numbered. by destruct (uses b l1).
  - by rewrite list_lookup_middle.
Qed.

(** X6: when no base name ends with a closing parenthesis, the names that
    a run of [unique_name] calls returns are pairwise distinct. *)
Theorem unique_names_distinct (bs : list string) :
  Forall (λ b, ends_with ")" b = false) bs ->
  NoDup (unique_names bs ∅).
Proof.
  intros Hb. apply NoDup_alt. intros i j x Hi Hj.
  assert (forall i x, unique_names bs ∅ !! i = Some x ->
            exists b, bs !! i = Some b
                      /\ x = kth_name b (uses b (take i bs))) as Hname.
  { intros i' x' H. pose proof (lookup_lt_Some _ _ _ H) as Hl.
    rewrite length_unique_names in Hl.
    destruct (lookup_lt_is_Some_2 bs i' Hl) as [b Hbs]. exists b.
    rewrite (unique_names_lookup _ ∅ i' b), lookup_empty in H by done.
    split; [done | by injection H]. }
  destruct (Hname i x Hi) as (bi & Hbi & Exi).
  destruct (Hname j x Hj) as (bj & Hbj & Exj).
  assert (bi = bj /\ uses bi (take i bs) = uses bj (take j bs)) as [<- Hu].
  { rewrite Forall_forall in Hb.
    pose proof (Hb bi (list_elem_of_lookup_2 _ _ _ Hbi)) as Hei.
    pose proof (Hb bj (list_elem_of_lookup_2 _ _ _ Hbj)) as Hej.
    rewrite Exi in Exj. clear Exi Hname.
    destruct (uses bi (take i bs)) as [|ki], (uses bj (take j bs)) as [|kj];
      simpl in Exj.
    - done.
    - rewrite Exj, ends_with_numbered in Hei. done.
    - rewrite <- Exj, ends_with_numbered in Hej. done.
    - apply numbered_inj in Exj as [-> Hk]. split; [done | lia]. }
  destruct (Nat.lt_trichotomy i j) as [Hlt|[->|Hlt]]; [|done|].
  - pose proof (uses_take_lt bs bi i j Hbi Hlt). lia.
  - pose proof (uses_take_lt bs bi j i Hbj Hlt). lia.
Qed.

Lemma unique_names_distinct_witness :
  NoDup (unique_names ["Intro"; "Intro"; "Outro"; "Intro"] ∅).
Proof. apply unique_names_distinct. repeat constructor. Defined.

(** ** The archive loop *)





(** A title lookup that raises, inside the [try] of the loop: the video
    gets a report line and no entry, though its transcript was fetched. *)
Example bulk_title_raises :
  bulk_transcripts_endpoint sample_fetch
    (λ vid, if decide (vid = "bbbbbbbbbbb")
            then Raise (AttributeError "'int' object has no attribute 'strip'")
            else Ok None)
    three_videos sample_world
  = Ok (StreamingResponse
          [("aaaaaaaaaaa.txt", "Hello world");
           ("ccccccccccc.txt", "Hello world");
           ("errors_report.txt",
            "bbbbbbbbbbb: 'int' object has no attribute 'strip'")]
          "application/zip" zip_disposition, sample_world).
Proof. vm_compute. reflexivity. Qed.

(** ** The expander without a credential, and the size of its result *)

(** X8: when neither credential variable holds a non-empty value, the
    expander sends no request: the identifiers are those of the [urls]
    entries alone, and a playlist or channel reference, when given, adds
    the one error that names the two variables. *)
Theorem expand_without_api_key (urls : option (list pyval))
    (playlist_url channel_url : pyval) (limit : Z) (w : world) :
  truthy_opt (_api_key (env w)) = false ->
  expand_inputs_to_video_ids urls playlist_url channel_url limit w
  = Ok ((first_seen (flat_map entry_ids (default [] urls)),
         flat_map entry_errors (default [] urls)
         ++ (if truthy_val playlist_url
             then ["Playlist expansion requires YOUTUBE_API_KEY / YT_API_KEY."]
             else [])
         ++ (if truthy_val channel_url
             then ["Channel expansion requires YOUTUBE_API_KEY / YT_API_KEY."]
             else [])), w).
Proof.
  intros Hk. rewrite expand_inputs_spec.
  unfold merged_expansion, playlist_source, channel_source.
  destruct (truthy_val playlist_url); cbn [negb]; rewrite ?Hk; cbn [negb];
    destruct (truthy_val channel_url); cbn [negb]; rewrite ?Hk; cbn [negb];
    by rewrite ?app_nil_r.
Qed.

Lemma expand_without_api_key_witness :
  expand_inputs_to_video_ids (Some [PyStr "dQw4w9WgXcQ"; PyInt 7])
    sample_playlist_url PyNone 50 (World (Env (Some "") None) sample_pages)
  = Ok ((["dQw4w9WgXcQ"],
         ["Unrecognized URL (not a video/playlist/channel): 7";
          "Playlist expansion requires YOUTUBE_API_KEY / YT_API_KEY."]),
        World (Env (Some "") None) sample_pages).
Proof.
  exact (expand_without_api_key (Some [PyStr "dQw4w9WgXcQ"; PyInt 7])
           sample_playlist_url PyNone 50
           (World (Env (Some "") None) sample_pages) eq_refl).
Defined.

Lemma length_first_seen (l : list string) :
  (length (first_seen l) <= length l)%nat.
Proof.
  induction l as [|x l IH]; [done|].
  change (first_seen (x :: l)) with (x :: filter (λ y, y ≠ x) (first_seen l)).
  simpl. pose proof (length_filter (λ y, y ≠ x) (first_seen l)). lia.
Qed.

Lemma entry_one (u : pyval) :
  (length (entry_ids u) + length (entry_errors u) <= 1)%nat.
Proof.
  unfold entry_ids, entry_errors.
  destruct (parse_video_id u); [simpl; lia|].
  destruct (classified u); simpl; lia.
Qed.

Lemma entries_bound (urls : list pyval) :
  (length (flat_map entry_ids urls) + length (flat_map entry_errors urls)
   <= length urls)%nat.
Proof.
  induction urls as [|u urls IH]; [done|]. simpl.
  rewrite !length_app. pose proof (entry_one u). lia.
Qed.

Lemma expand_playlist_bound (playlist_id : string) (limit : Z) (w : world) :
  1 <= limit ->
  (length (fst (expand_playlist_video_ids playlist_id limit w))
   <= Z.to_nat limit)%nat.
Proof.
  intros Hl. rewrite expand_playlist_spec by done. rewrite length_take. lia.
Qed.

Lemma playlist_source_bound (playlist_url : pyval) (limit : Z) (w : world) :
  1 <= limit ->
  (length (fst (fst (playlist_source playlist_url limit w)))
   + length (snd (fst (playlist_source playlist_url limit w)))
   <= Z.to_nat limit)%nat
  /\ (length (snd (fst (playlist_source playlist_url limit w))) <= 1)%nat.
Proof.
  intros Hl. unfold playlist_source.
  repeat (destruct (negb _); simpl; [lia|]).
  destruct (truthy_opt (found pat_list playlist_url)); simpl; [|lia].
  pose proof (expand_playlist_bound
                (default EmptyString (found pat_list playlist_url)) limit w Hl).
  destruct (expand_playlist_video_ids _ limit w). simpl in *. lia.
Qed.

(** The channel expansion returns nothing, or what the playlist expansion
    returns for the uploads playlist after the lookups. *)
Lemma expand_channel_cases (channel_url : pyval) (limit : Z) (w : world) :
  exists vids w',
    expand_channel_recent_video_ids channel_url limit w = Ok (vids, w')
    /\ (vids = []
        \/ exists up w2, (vids, w') = expand_playlist_video_ids up limit w2).
Proof.
  unfold expand_channel_recent_video_ids.
  rewrite parse_channel_id_found, parse_channel_handle_found. cbn [bind].
  assert (forall cw : option string * world,
    exists vids w',
      (let '(cid, w1) := cw in
       if negb (truthy_opt cid) then Ok ([], w1)
       else
         let '(uploads, w2) :=
           _uploads_playlist_id (default EmptyString cid) w1 in
         if negb (truthy_opt uploads) then Ok ([], w2)
         else Ok (expand_playlist_video_ids (default EmptyString uploads)
                    limit w2)) = Ok (vids, w')
      /\ (vids = []
          \/ exists up w2, (vids, w') = expand_playlist_video_ids up limit w2))
    as H.
  { intros [cid w1]. destruct (negb (truthy_opt cid)); [by eexists _, _; eauto|].
    destruct (_uploads_playlist_id _ w1) as [up w2].
    destruct (negb (truthy_opt up)); [by eexists _, _; eauto|].
    destruct (expand_playlist_video_ids (default EmptyString up) limit w2)
      as [vs w3] eqn:E.
    exists vs, w3. split; [done|]. right. by exists (default EmptyString up), w2. }
  destruct (negb (truthy_opt (found pat_channel channel_url))); cbn [bind];
    [|exact (H (found pat_channel channel_url, w))].
  destruct (truthy_opt (found pat_handle channel_url)); cbn [bind].
  - exact (H (_resolve_channel_id_from_handle
                (default EmptyString (found pat_handle channel_url)) w)).
  - exact (H (found pat_channel channel_url, w)).
Qed.

Lemma channel_source_bound (channel_url : pyval) (limit : Z) (w : world) :
  1 <= limit ->
  (length (fst (fst (channel_source channel_url limit w)))
   + length (snd (fst (channel_source channel_url limit w)))
   <= Z.to_nat limit)%nat
  /\ (length (snd (fst (channel_source channel_url limit w))) <= 1)%nat.
Proof.
  intros Hl. unfold channel_source.
  repeat (destruct (negb _); simpl; [lia|]).
  destruct (expand_channel_cases channel_url limit w)
    as (vids & w' & -> & [->|(up & w2 & E)]); simpl; [lia|].
  pose proof (expand_playlist_bound up limit w2 Hl) as Hb.
  rewrite <- E in Hb. simpl in Hb. destruct vids; simpl in *; lia.
Qed.

(** X9: the limit bounds the playlist and the channel separately and does
    not bound the [urls] entries: for a limit of at least one the
    identifiers and the errors together number at most the entries of
    [urls] plus twice the limit, and the errors at most the entries plus
    two. *)
Theorem expansion_size_bound (urls : option (list pyval))
    (playlist_url channel_url : pyval) (limit : Z) (w : world) :
  1 <= limit ->
  exists ids errs w',
    expand_inputs_to_video_ids urls playlist_url channel_url limit w
    = Ok ((ids, errs), w')
    /\ (length ids + length errs
        <= length (default [] urls) + 2 * Z.to_nat limit)%nat
    /\ (length errs <= length (default [] urls) + 2)%nat.
Proof.
  intros Hl. rewrite expand_inputs_spec. unfold merged_expansion.
  destruct (playlist_source_bound playlist_url limit w Hl) as [Hp Hp1].
  destruct (playlist_source playlist_url limit w) as [[vp ep] w1].
  destruct (channel_source_bound channel_url limit w1 Hl) as [Hc Hc1].
  destruct (channel_source channel_url limit w1) as [[vc ec] w2].
  simpl in *. eexists _, _, _. split; [reflexivity|].
  pose proof (length_first_seen
                (flat_map entry_ids (default [] urls) ++ vp ++ vc)) as Hf.
  pose proof (entries_bound (default [] urls)) as He.
  rewrite !length_app in *. lia.
Qed.

Lemma expansion_size_bound_witness :
  exists ids errs w',
    expand_inputs_to_video_ids (Some [PyStr "dQw4w9WgXcQ"; PyInt 7])
      sample_playlist_url PyNone 2 sample_world
    = Ok ((ids, errs), w')
    /\ (length ids + length errs
        <= length (default [] (Some [PyStr "dQw4w9WgXcQ"; PyInt 7]))
           + 2 * Z.to_nat 2)%nat
    /\ (length errs
        <= length (default [] (Some [PyStr "dQw4w9WgXcQ"; PyInt 7])) + 2)%nat.
Proof.
  apply (expansion_size_bound (Some [PyStr "dQw4w9WgXcQ"; PyInt 7])
           sample_playlist_url PyNone 2 sample_world). lia.
Defined.

(** ** Channel expansion *)

Lemma found_channel_truthy (v : pyval) (cid : string) :
  found pat_channel v = Some cid -> str_nonempty cid = true.
Proof.
  destruct v as [| | |s|]; try done. unfold found, re_search. intros E.
  by apply search_sound in E as (t1 & t2 & -> & -> & _).
Qed.

Lemma found_handle_truthy (v : pyval) (h : string) :
  found pat_handle v = Some h -> str_nonempty h = true.
Proof.
  destruct v as [| | |s|]; try done. unfold found, re_search. intros E.
  apply search_sound in E as [Hn _]. by destruct h.
Qed.

Lemma yt_api_get_no_key (endpoint : string) (w : world) :
  truthy_opt (_api_key (env w)) = false -> _yt_api_get endpoint w = (None, w).
Proof. intros H. unfold _yt_api_get. by rewrite H. Qed.

(** X10: [expand_channel_recent_video_ids] always returns. For a limit of
    at least one it returns at most [limit] identifiers, each one listed by
    the provider. A value with neither a channel id nor a handle, and any
    value when no credential is set, gives the empty list without a
    request. A channel id in the URL is used as it is: the uploads playlist
    is looked up at once, with no search for a handle, also when the URL
    holds a handle as well. A handle alone is resolved by one search, and
    a search that gives no channel id ends the expansion with no further
    request. *)
Theorem expand_channel_lookup (channel_url : pyval) (limit : Z) (w : world) :
  exists vids w',
    expand_channel_recent_video_ids channel_url limit w = Ok (vids, w')
    /\ later_world w w'
    /\ (forall id, id ∈ vids -> provider_vid w id)
    /\ (1 <= limit -> (length vids <= Z.to_nat limit)%nat)
    /\ (found pat_channel channel_url = None ->
        found pat_handle channel_url = None -> vids = [] /\ w' = w)
    /\ (truthy_opt (_api_key (env w)) = false -> vids = [] /\ w' = w)
    /\ (forall cid, found pat_channel channel_url = Some cid ->
        (vids, w')
        = let '(up, w1) := _uploads_playlist_id cid w in
          if truthy_opt up
          then expand_playlist_video_ids (default EmptyString up) limit w1
          else ([], w1))
    /\ (forall handle,
          found pat_channel channel_url = None ->
          found pat_handle channel_url = Some handle ->
          (vids, w')
          = let '(cid, w1) := _resolve_channel_id_from_handle handle w in
            if truthy_opt cid then
              let '(up, w2) :=
                _uploads_playlist_id (default EmptyString cid) w1 in
              if truthy_opt up
              then expand_playlist_video_ids (default EmptyString up) limit w2
              else ([], w2)
            else ([], w1)).
Proof.
  destruct (expand_channel_cases channel_url limit w) as (vids & w' & E & Hc).
  exists vids, w'. split; [exact E|].
  destruct (expand_channel_later _ _ _ _ _ E) as [Hl Hp].
  do 2 (split; [done|]). split.
  { intros Hlim. destruct Hc as [->|(up & w2 & Hc)]; [simpl; lia|].
    pose proof (expand_playlist_bound up limit w2 Hlim) as Hb.
    by rewrite <- Hc in Hb. }
  clear Hc Hl Hp. revert E. unfold expand_channel_recent_video_ids.
  rewrite parse_channel_id_found, parse_channel_handle_found. cbn [bind].
  intros E. split; [|split; [|split]].
  - intros H1 H2. rewrite H1, H2 in E. simpl in E. by injection E as <- <-.
  - intros Hk. unfold _resolve_channel_id_from_handle, _uploads_playlist_id in E.
    destruct (negb (truthy_opt (found pat_channel channel_url))) eqn:E1;
      cbn [bind] in E.
    + destruct (truthy_opt (found pat_handle channel_url)); cbn [bind] in E.
      * rewrite yt_api_get_no_key in E by done. simpl in E.
        by injection E as <- <-.
      * rewrite E1 in E. by injection E as <- <-.
    + rewrite E1, yt_api_get_no_key in E by done. simpl in E.
      by injection E as <- <-.
  - intros cid Hcid. pose proof (found_channel_truthy _ _ Hcid) as Ht.
    rewrite Hcid in E. simpl in E. rewrite !Ht in E. simpl in E.
    destruct (_uploads_playlist_id cid w) as [up w1].
    destruct (truthy_opt up); simpl in E; rewrite ?Ht in E; simpl in E;
      congruence.
  - intros handle H1 H2. pose proof (found_handle_truthy _ _ H2) as Ht.
    rewrite H1, H2 in E. simpl in E. rewrite Ht in E. cbn [bind] in E.
    destruct (_resolve_channel_id_from_handle handle w) as [cid w1].
    destruct (truthy_opt cid); cbn [negb] in E; [|congruence].
    destruct (_uploads_playlist_id _ w1) as [up w2].
    destruct (truthy_opt up); cbn [negb] in E; congruence.
Qed.

(** ** Normaliser: composition *)

Lemma code_lines_app (ts : bool) (a b : list segment) :
  code_lines ts (a ++ b) = code_lines ts a ++ code_lines ts b.
Proof. unfold code_lines. by rewrite List.filter_app, map_app. Qed.

Lemma str_join_app (sep : string) (l1 l2 : list string) :
  l1 <> [] -> l2 <> [] ->
  str_join sep (l1 ++ l2) = str_join sep l1 +:+ sep +:+ str_join sep l2.
Proof.
  intros H1 H2. induction l1 as [|x l1 IH]; [done|].
  destruct l1 as [|y l1].
  - destruct l2; [done|]. reflexivity.
  - change (str_join sep ((x :: y :: l1) ++ l2))
      with (x +:+ sep +:+ str_join sep ((y :: l1) ++ l2)).
    rewrite IH by done.
    change (str_join sep (x :: y :: l1))
      with (x +:+ sep +:+ str_join sep (y :: l1)).
    by rewrite !app_assoc_s.
Qed.

Lemma join_lines_nonempty (ts : bool) (segs : list segment) :
  str_nonempty (str_join newline (code_lines ts segs))
  = match code_lines ts segs with [] => false | _ :: _ => true end.
Proof.
  pose proof (code_lines_tight ts segs) as Ht.
  destruct (code_lines ts segs) as [|l ls] eqn:E; [done|].
  destruct (join_tight (l :: ls)) as [Hn _]; [done | done |].
  by destruct (str_join newline (l :: ls)).
Qed.

(** X11: normalising a concatenation of segment lists gives the two
    normalised texts joined by one newline, an empty text adding nothing;
    and the normalised text is empty exactly when every segment has a
    blank or missing text. *)
Theorem normalize_transcript_app :
  (forall segs1 segs2 ts,
     normalize_transcript (segs1 ++ segs2) ts
     = join_texts (normalize_transcript segs1 ts)
         (normalize_transcript segs2 ts))
  /\ (forall segs ts,
        normalize_transcript segs ts = EmptyString
        <-> Forall (λ seg, strip (default EmptyString (seg_text seg))
                           = EmptyString) segs).
Proof.
  split.
  - intros segs1 segs2 ts. unfold join_texts.
    rewrite !normalize_transcript_code, !join_lines_nonempty, code_lines_app.
    destruct (code_lines ts segs1) as [|l1 ls1] eqn:E1; [done|].
    destruct (code_lines ts segs2) as [|l2 ls2] eqn:E2;
      [by rewrite app_nil_r|].
    cbn [negb]. by apply str_join_app.
  - intros segs ts. rewrite normalize_transcript_code.
    rewrite <- str_nonempty_false, join_lines_nonempty.
    unfold code_lines, spec_kept, spec_text.
    induction segs as [|seg segs IH]; [done|]. cbn [List.filter].
    rewrite Forall_cons, <- IH, <- str_nonempty_false.
    destruct (str_nonempty (strip (default EmptyString (seg_text seg))));
      simpl; [split; [done | by intros [? _]] | tauto].
Qed.

(** ** Playlist, channel and handle parsers: what they extract *)

Lemma star_cls_cons {A} (cs : list class_item) (c : ascii) (s : string)
    (k : string -> option A) :
  star_cls cs (String c s) k
  = if in_class cs c then
      match star_cls cs s k with
      | Some a => Some a
      | None => k (String c s)
      end
    else k (String c s).
Proof. reflexivity. Qed.

(** A greedy run takes the whole of a text of class characters that is
    followed by a stop, when what follows the run can then be matched. *)
Lemma star_cls_greedy {A} (cs : list class_item) (t tail : string)
    (k : string -> option A) (a : A) :
  all_chars (in_class cs) t = true -> stops cs tail = true ->
  k tail = Some a -> star_cls cs (t +:+ tail) k = Some a.
Proof.
  intros Ht Hs Hk. induction t as [|c t IH]; simpl in *.
  - destruct tail as [|d tail]; [done|]. rewrite star_cls_cons.
    simpl in Hs. apply negb_true_iff in Hs. by rewrite Hs.
  - apply andb_prop in Ht as [Hc Ht]. rewrite star_cls_cons, Hc.
    by rewrite IH.
Qed.

Lemma plus_cls_hit {A} (cs : list class_item) (bol : bool) (t tail : string)
    (k : bool -> string -> option A) (a : A) :
  t <> EmptyString -> all_chars (in_class cs) t = true ->
  stops cs tail = true -> k false tail = Some a ->
  rmatch (ClsPlus cs) bol (t +:+ tail) k = Some a.
Proof.
  intros Hne Ht Hs Hk. destruct t as [|c t]; [done|]. simpl in *.
  apply andb_prop in Ht as [-> Ht]. by apply star_cls_greedy.
Qed.

(** The search passes over a prefix at none of whose positions the pattern
    matches. *)
Lemma search_after (p : pattern) (Q : string -> Prop) (rest g : string) :
  (forall c s, Q (String c s) -> Q s) ->
  (forall c s bol, Q (String c s) ->
                   match_here p bol (String c (s +:+ rest)) = None) ->
  (forall bol, match_here p bol rest = Some g) ->
  forall ps bol, Q ps -> search_from p bol (ps +:+ rest) = Some g.
Proof.
  intros Htl Hmiss Hhit ps. induction ps as [|c ps IH]; intros bol HQ.
  - apply search_hit, Hhit.
  - change (String c ps +:+ rest) with (String c (ps +:+ rest)).
    rewrite search_skip by by apply Hmiss.
    apply IH. by eapply Htl.
Qed.

(** A literal cannot start inside [p] and run over a character it does
    not hold. *)
Lemma strip_prefix_blocked (m p : string) (c : ascii) (x r : string) :
  has_char c m = false ->
  strip_prefix m (p +:+ String c x) = Some r -> exists p', p = m +:+ p'.
Proof.
  revert p. induction m as [|a m IH]; intros p Hc H; [by exists p|].
  simpl in Hc. apply orb_false_iff in Hc as [Hac Hc].
  apply strip_prefix_spec in H. destruct p as [|b p]; simpl in H.
  - injection H as -> _. by rewrite code_eqb_refl in Hac.
  - injection H as -> H. apply strip_prefix_spec in H.
    destruct (IH p Hc H) as [p' ->]. by exists p'.
Qed.

Lemma match_list_hit (bol : bool) (sep : ascii) (tok tail : string) :
  in_class [One "?"; One "&"] sep = true ->
  tok <> EmptyString -> all_chars (in_class id_class) tok = true ->
  stops id_class tail = true ->
  match_here pat_list bol (String sep ("list=" +:+ tok +:+ tail)) = Some tok.
Proof.
  intros Hsep Hne Ht Hs. unfold match_here, pat_list. cbn [pre grp post rmatch].
  rewrite Hsep, strip_prefix_app.
  refine (plus_cls_hit id_class false tok tail
            (λ _ s2, Some (consumed (tok +:+ tail) s2)) tok Hne Ht Hs _).
  by rewrite consumed_app.
Qed.

Lemma match_list_miss (bol : bool) (c sep : ascii) (s x : string) :
  in_class [One "?"; One "&"] sep = true ->
  contains "list=" (String c s) = false ->
  match_here pat_list bol (String c (s +:+ String sep x)) = None.
Proof.
  intros Hsep Hc. unfold match_here, pat_list. cbn [pre grp post rmatch].
  destruct (in_class [One "?"; One "&"] c); [|done].
  destruct (strip_prefix "list=" (s +:+ String sep x)) as [r|] eqn:E; [|done].
  apply strip_prefix_blocked in E as [p' ->].
  - apply contains_tail in Hc. by rewrite contains_prefix in Hc.
  - revert Hsep. unfold in_class. cbn [existsb item_has].
    rewrite orb_false_r, orb_true_iff, !code_eqb_eq. by intros [->| ->].
Qed.

(** X12: [parse_playlist_id] returns the whole value of the first [list]
    parameter: for a text in which [list=] does not occur before a [?list=]
    or [&list=] that is followed by a non-empty run of id characters ending
    at the end of the text or at another character, the result is that
    run. *)
Theorem parse_playlist_id_extracts (pre : string) (sep : ascii)
    (tok tail : string) :
  sep = "?"%char \/ sep = "&"%char ->
  contains "list=" pre = false ->
  tok <> EmptyString -> all_chars (in_class id_class) tok = true ->
  stops id_class tail = true ->
  parse_playlist_id (PyStr (pre +:+ String sep ("list=" +:+ tok +:+ tail)))
  = Ok (Some tok).
Proof.
  intros Hsep Hpre Hne Ht Hs. rewrite parse_playlist_id_found.
  unfold found, re_search. f_equal.
  assert (in_class [One "?"; One "&"] sep = true) as Hin
    by (by destruct Hsep as [-> | ->]).
  apply (search_after pat_list (λ s, contains "list=" s = false)); try done.
  - intros c s. apply contains_tail.
  - intros c s bol Hc. by apply match_list_miss.
  - intros bol. by apply match_list_hit.
Qed.

Lemma parse_playlist_id_extracts_witness :
  parse_playlist_id
    (PyStr ("https://www.youtube.com/watch?v=dQw4w9WgXcQ"
            +:+ String "&" ("list=" +:+ "PL123_-x" +:+ "&index=2")))
  = Ok (Some "PL123_-x").
Proof.
  apply parse_playlist_id_extracts; try done. by right.
Defined.

Lemma borderless_handle : borderless "/@".
Proof.
  intros a e e' H1 H2 Ha.
  destruct a as [|c1 [|c2 [|c3 a]]]; [done|..];
    simpl in H1; injection H1; intros; subst; done.
Qed.

Lemma match_handle_hit (bol : bool) (h tail : string) :
  h <> EmptyString -> all_chars (in_class handle_class) h = true ->
  stops handle_class tail = true ->
  match_here pat_handle bol ("/@" +:+ h +:+ tail) = Some h.
Proof.
  intros Hne Ht Hs. unfold match_here, pat_handle. cbn [pre grp post rmatch].
  rewrite strip_prefix_app.
  refine (plus_cls_hit handle_class false h tail
            (λ _ s2, Some (consumed (h +:+ tail) s2)) h Hne Ht Hs _).
  by rewrite consumed_app.
Qed.

Lemma match_handle_miss (bol : bool) (c : ascii) (s x : string) :
  contains "/@" (String c s) = false ->
  match_here pat_handle bol (String c (s +:+ "/@" +:+ x)) = None.
Proof.
  intros Hc. unfold match_here, pat_handle. cbn [pre grp post rmatch].
  pose proof (no_straddle "/@" (String c s) x borderless_handle
                ltac:(done) Hc) as Hn.
  change (String c s +:+ "/@" +:+ x) with (String c (s +:+ "/@" +:+ x)) in Hn.
  by rewrite Hn.
Qed.

(** X13: [parse_channel_handle] returns the handle that follows the first
    [/@] of a text, when it is a non-empty run of handle characters ending
    at the end of the text or at another character. *)
Theorem parse_channel_handle_extracts (pre h tail : string) :
  contains "/@" pre = false ->
  h <> EmptyString -> all_chars (in_class handle_class) h = true ->
  stops handle_class tail = true ->
  parse_channel_handle (PyStr (pre +:+ "/@" +:+ h +:+ tail)) = Ok (Some h).
Proof.
  intros Hpre Hne Ht Hs. rewrite parse_channel_handle_found.
  unfold found, re_search. f_equal.
  apply (search_after pat_handle (λ s, contains "/@" s = false)); try done.
  - intros c s. apply contains_tail.
  - intros c s bol Hc. by apply match_handle_miss.
  - intros bol. by apply match_handle_hit.
Qed.

Lemma parse_channel_handle_extracts_witness :
  parse_channel_handle
    (PyStr ("https://www.youtube.com" +:+ "/@" +:+ "some.name" +:+ "/videos"))
  = Ok (Some "some.name").
Proof. by apply parse_channel_handle_extracts. Defined.

Lemma match_channel_hit (bol : bool) (t tail : string) :
  String.length t = 22%nat -> all_chars (in_class id_class) t = true ->
  match_here pat_channel bol ("/channel/" +:+ "UC" +:+ t +:+ tail)
  = Some ("UC" +:+ t).
Proof.
  intros Hl Ht. unfold match_here, pat_channel. cbn [pre grp post rmatch].
  rewrite !strip_prefix_app. rewrite rep_cls_app by done.
  by rewrite <- (app_assoc_s "UC" t tail), consumed_app.
Qed.

(** The marker [/channel/] can overlap itself only in its last slash. *)
Lemma channel_straddle (ps x r : string) :
  ps <> EmptyString -> contains "/channel/" ps = false ->
  strip_prefix "/channel/" (ps +:+ "/channel/" +:+ x) = Some r ->
  r = "channel/" +:+ x.
Proof.
  intros Hne Hc H. apply strip_prefix_spec in H.
  destruct ps as [|c1 [|c2 [|c3 [|c4 [|c5 [|c6 [|c7 [|c8 [|c9 ps]]]]]]]]];
    [done|..]; simpl in H; injection H; intros; subst; done.
Qed.

Lemma match_channel_miss (bol : bool) (c : ascii) (s x : string) :
  contains "/channel/" (String c s) = false ->
  match_here pat_channel bol (String c (s +:+ "/channel/" +:+ x)) = None.
Proof.
  intros Hc. unfold match_here, pat_channel. cbn [pre grp post rmatch].
  destruct (strip_prefix "/channel/" (String c (s +:+ "/channel/" +:+ x)))
    as [r|] eqn:E; [|done].
  apply (channel_straddle (String c s) x r) in E; [|done..].
  by subst r.
Qed.

(** X14: [parse_channel_id] returns "UC" and the 22 id characters that
    follow the first [/channel/] of a text, whatever comes after them:
    a longer run of id characters is cut after the 24th. *)
Theorem parse_channel_id_extracts (pre t tail : string) :
  contains "/channel/" pre = false ->
  String.length t = 22%nat -> all_chars (in_class id_class) t = true ->
  parse_channel_id (PyStr (pre +:+ "/channel/" +:+ "UC" +:+ t +:+ tail))
  = Ok (Some ("UC" +:+ t)).
Proof.
  intros Hpre Hl Ht. rewrite parse_channel_id_found.
  unfold found, re_search. f_equal.
  apply (search_after pat_channel (λ s, contains "/channel/" s = false));
    try done.
  - intros c s. apply contains_tail.
  - intros c s bol Hc. by apply match_channel_miss.
  - intros bol. by apply match_channel_hit.
Qed.

Lemma parse_channel_id_extracts_witness :
  parse_channel_id
    (PyStr ("https://www.youtube.com" +:+ "/channel/" +:+ "UC"
            +:+ "abcdefghijklmnopqrstuv" +:+ "wxyz/videos"))
  = Ok (Some ("UC" +:+ "abcdefghijklmnopqrstuv")).
Proof. by apply parse_channel_id_extracts. Defined.

(** ** Title lookup *)

Lemma title_text_clean (v : pyval) (t : string) :
  title_text v = Ok (Some t) -> t <> EmptyString /\ strip t = t.
Proof.
  unfold title_text.
  destruct (py_strip (if truthy_val v then v else PyStr EmptyString))
    as [s|e] eqn:E; [|done]. cbn [bind].
  destruct (str_nonempty s) eqn:Hs; [|done]. intros [= <-].
  split; [by destruct s|].
  destruct (if truthy_val v then v else PyStr EmptyString); try done.
  injection E as <-. apply strip_idem.
Qed.

Lemma title_text_str (v : pyval) :
  truthy_val v = false \/ is_str v = true ->
  exists t, title_text v = Ok t.
Proof.
  unfold title_text. intros [->|H].
  - by eexists.
  - destruct v; try done. destruct (truthy_val (PyStr s)); by eexists.
Qed.

(** X15: a title that [fetch_video_title] returns is never empty and has no
    whitespace at either end, a blank title being given as [None]; and the
    lookup raises only when the oEmbed answer holds a title that is neither
    a string nor a false value. *)
Theorem fetch_video_title_clean (video_id : string) (tw : title_world) :
  (forall t, fst (fetch_video_title video_id tw) = Ok (Some t) ->
             t <> EmptyString /\ strip t = t)
  /\ (forall e, fst (fetch_video_title video_id tw) = Raise e ->
        exists v, oembed_answer tw = Some v
                  /\ truthy_val v = true /\ is_str v = false).
Proof.
  unfold fetch_video_title, title_from_api. split.
  - intros t.
    destruct (truthy_opt (_api_key (t_env tw)));
      [destruct (videos_answer tw) as [[|[v|] ?]|];
       try destruct (title_text v) as [t'|] eqn:E|]; cbn [fst];
      try (destruct (oembed_answer tw) as [v'|]; [apply title_text_clean|done]).
    intros [= ->]. by apply (title_text_clean v).
  - intros e He.
    assert (match oembed_answer tw with
            | Some v => title_text v
            | None => Ok None
            end = Raise e) as H.
    { destruct (truthy_opt (_api_key (t_env tw)));
        [destruct (videos_answer tw) as [[|[v|] ?]|];
         try destruct (title_text v) as [t'|] eqn:E|]; cbn [fst] in He;
        done. }
    destruct (oembed_answer tw) as [v|]; [|done]. exists v. split; [done|].
    destruct (truthy_val v) eqn:Ht, (is_str v) eqn:Hs; try done;
      destruct (title_text_str v) as [t Et]; try (by left); try (by right);
      by rewrite Et in H.
Qed.

(** X16: which requests the title lookup sends. Without a credential it
    asks oEmbed only. With one it asks the Data API first, and asks oEmbed
    after that exactly when the answer gave no usable title entry: the
    request failed, there was no item, or the title of the first item was
    missing or neither a string nor a false value. A first item whose title
    is blank or null ends the lookup with [None], without an oEmbed
    request. *)
Theorem fetch_video_title_requests (video_id : string) (tw : title_world) :
  (truthy_opt (_api_key (t_env tw)) = false ->
   snd (fetch_video_title video_id tw) = [OembedRequest])
  /\ (truthy_opt (_api_key (t_env tw)) = true ->
      match videos_answer tw with
      | Some (Some v :: _) =>
          if negb (truthy_val v) || is_str v
          then snd (fetch_video_title video_id tw) = [VideosRequest]
               /\ (truthy_val v = false ->
                   fetch_video_title video_id tw = (Ok None, [VideosRequest]))
               /\ (forall s, v = PyStr s -> strip s = EmptyString ->
                   fetch_video_title video_id tw = (Ok None, [VideosRequest]))
          else snd (fetch_video_title video_id tw)
               = [VideosRequest; OembedRequest]
      | _ => snd (fetch_video_title video_id tw)
             = [VideosRequest; OembedRequest]
      end).
Proof.
  unfold fetch_video_title, title_from_api. split; intros ->.
  { by destruct (oembed_answer tw). }
  destruct (videos_answer tw) as [[|[v|] ?]|]; try done.
  destruct v as [|b|z|s|n tr r]; unfold title_text; simpl; try done.
  - by destruct b.
  - by destruct (z =? 0).
  - assert ((if str_nonempty s then PyStr s else PyStr EmptyString) = PyStr s)
      as -> by (by destruct s).
    rewrite orb_true_r. simpl.
    destruct (str_nonempty (strip s)) eqn:E; simpl.
    + split; [done|]. split; [by destruct s|]. intros s' [= <-] Hs.
      by rewrite Hs in E.
    + done.
  - by destruct tr.
Qed.

(** ** Available languages *)

Lemma str_leb_refl (a : string) : str_leb a a = true.
Proof. induction a as [|x a IH]; simpl; [done|]. by rewrite N.ltb_irrefl. Qed.

Lemma str_leb_total (a b : string) : str_leb a b = false -> str_leb b a = true.
Proof.
  revert b. induction a as [|x a IH]; intros [|y b]; simpl; try done.
  destruct (N.ltb_spec (code x) (code y)), (N.ltb_spec (code y) (code x));
    try done; try lia. apply IH.
Qed.

Lemma str_leb_trans (a b c : string) :
  str_leb a b = true -> str_leb b c = true -> str_leb a c = true.
Proof.
  revert b c. induction a as [|x a IH]; intros [|y b] [|z c]; simpl;
    try done.
  destruct (N.ltb_spec (code x) (code y)), (N.ltb_spec (code y) (code x)),
    (N.ltb_spec (code y) (code z)), (N.ltb_spec (code z) (code y)),
    (N.ltb_spec (code x) (code z)), (N.ltb_spec (code z) (code x));
    try done; try lia. apply IH.
Qed.

Section SortedFacts.
Context {A : Type}.
Variable key : A -> string.

Lemma insert_by_perm (x : A) (l : list A) : insert_by key x l ≡ₚ x :: l.
Proof.
  induction l as [|y l IH]; simpl; [done|].
  destruct (str_leb (key x) (key y)); [done|].
  rewrite IH. apply Permutation_swap.
Qed.

Lemma py_sorted_perm (l : list A) : py_sorted key l ≡ₚ l.
Proof.
  induction l as [|x l IH]; simpl; [done|]. by rewrite insert_by_perm, IH.
Qed.

Lemma insert_by_sorted (x : A) (l : list A) :
  StronglySorted (λ a b, str_leb (key a) (key b) = true) l ->
  StronglySorted (λ a b, str_leb (key a) (key b) = true) (insert_by key x l).
Proof.
  induction 1 as [|y l Hs IH Hy]; simpl; [by repeat constructor|].
  destruct (str_leb (key x) (key y)) eqn:E.
  - constructor; [by constructor|]. constructor; [done|].
    eapply Forall_impl; [exact Hy|]. intros z Hz. simpl in Hz.
    by eapply str_leb_trans.
  - constructor; [done|]. rewrite insert_by_perm.
    constructor; [by apply str_leb_total | done].
Qed.

Lemma py_sorted_sorted (l : list A) :
  StronglySorted (λ a b, str_leb (key a) (key b) = true) (py_sorted key l).
Proof.
  induction l as [|x l IH]; simpl; [constructor | by apply insert_by_sorted].
Qed.

Lemma insert_by_stable (k : string) (x : A) (l : list A) :
  filter (λ a, key a = k) (insert_by key x l)
  = filter (λ a, key a = k) (x :: l).
Proof.
  induction l as [|y l IH]; simpl; [done|].
  destruct (str_leb (key x) (key y)) eqn:E; [done|].
  rewrite filter_cons, IH, !filter_cons.
  destruct (decide (key y = k)) as [Hy|Hy], (decide (key x = k)) as [Hx|Hx];
    try done.
  rewrite Hx, <- Hy, str_leb_refl in E. done.
Qed.

Lemma py_sorted_stable (k : string) (l : list A) :
  filter (λ a, key a = k) (py_sorted key l) = filter (λ a, key a = k) l.
Proof.
  induction l as [|x l IH]; simpl; [done|].
  by rewrite insert_by_stable, !filter_cons, IH.
Qed.
End SortedFacts.

(** X17: [get_available_transcripts] returns the tracks that the provider
    lists, each one once, ordered by language name in code-point order,
    tracks of the same name keeping the order of the listing; when the
    listing raises a [YouTubeTranscriptApiException] it returns the empty
    list, and any other exception of the listing leaves the function. *)
Theorem get_available_transcripts_sorted
    (list_transcripts : string -> Provider.attempt (list track))
    (video_id : string) :
  match list_transcripts video_id with
  | Provider.Fails e =>
      get_available_transcripts list_transcripts video_id
      = (if Provider.is_YouTubeTranscriptApiException e
         then Provider.Done [] else Provider.Fails e)
  | Provider.Done transcript_list =>
      exists langs,
        get_available_transcripts list_transcripts video_id
        = Provider.Done langs
        /\ langs ≡ₚ transcript_list
        /\ StronglySorted (λ a b, str_leb (language a) (language b) = true)
             langs
        /\ forall name,
             filter (λ t, language t = name) langs
             = filter (λ t, language t = name) transcript_list
  end.
Proof.
  unfold get_available_transcripts.
  destruct (list_transcripts video_id) as [l|e]; [|done].
  exists (py_sorted language l). split; [done|].
  split; [apply py_sorted_perm|]. split; [apply py_sorted_sorted|].
  intros name. apply py_sorted_stable.
Qed.

Example get_available_transcripts_example :
  get_available_transcripts
    (λ _, Provider.Done
            [Track "German" "de" false; Track "English" "en" true;
             Track "English" "en" false; Track "Arabic" "ar" false])
    "dQw4w9WgXcQ"
  = Provider.Done
      [Track "Arabic" "ar" false; Track "English" "en" true;
       Track "English" "en" false; Track "German" "de" false].
Proof. reflexivity. Qed.

Example get_available_transcripts_raises :
  get_available_transcripts
    (λ _, Provider.Fails (Provider.Exc false false true true "disabled"))
    "dQw4w9WgXcQ"
  = Provider.Done []
  /\ get_available_transcripts
       (λ _, Provider.Fails (Provider.Exc false false false false "timed out"))
       "dQw4w9WgXcQ"
     = Provider.Fails (Provider.Exc false false false false "timed out").
Proof. split; reflexivity. Qed.

(** ** Single-video endpoint *)

(** X18: the single-video endpoint answers 400 exactly when the URL text is
    blank or matches no extraction rule; the detail is then the message of
    the parser, which ends with the trimmed URL when that is not blank, and
    the answer is the same whatever the transcript provider, the listing,
    the title sources and the other request fields are. Otherwise the id
    found is a valid one and the languages are listed first: an exception
    of the listing other than a [YouTubeTranscriptApiException] ends the
    request, uncaught, before any transcript is fetched. When the listing
    returns, or raises a [YouTubeTranscriptApiException] (no languages
    then), the answer follows the transcript fetch: 404 with the message of
    a [ValueError], any other exception uncaught, and the normalised
    transcript with the sorted language list and the title when the fetch
    succeeds and the title lookup returns. *)
Theorem transcript_endpoint_outcome
    (provider_fetch : string -> option string -> result (list segment * string))
    (list_transcripts : string -> Provider.attempt (list track))
    (titles : string -> title_world)
    (url : string) (language : option string) (include_timestamps : option bool) :
  match parse_video_id (PyStr url) with
  | Raise _ =>
      invalid_input (PyStr url)
      /\ exists detail,
           detail = (if str_nonempty (strip url)
                     then "Could not extract a valid YouTube video ID from: "
                            +:+ strip url
                     else empty_input_msg)
           /\ forall provider_fetch' list_transcripts' titles' language'
                     include_timestamps',
                transcript_endpoint provider_fetch' list_transcripts' titles'
                  url language' include_timestamps'
                = Answers (HTTPException 400 detail)
  | Ok video_id =>
      valid_id video_id = true
      /\ ~ invalid_input (PyStr url)
      /\ match list_transcripts video_id with
         | Provider.Fails e =>
             Provider.is_YouTubeTranscriptApiException e = false ->
             forall provider_fetch' titles' language' include_timestamps',
               transcript_endpoint provider_fetch' list_transcripts titles'
                 url language' include_timestamps'
               = UncaughtLibrary e
         | Provider.Done _ => True
         end
      /\ forall languages,
           get_available_transcripts list_transcripts video_id
           = Provider.Done languages ->
           languages = listed_languages (list_transcripts video_id)
           /\ match provider_fetch video_id language with
              | Raise (ValueError ex) =>
                  transcript_endpoint provider_fetch list_transcripts titles
                    url language include_timestamps
                  = Answers (HTTPException 404 ex)
              | Raise e =>
                  transcript_endpoint provider_fetch list_transcripts titles
                    url language include_timestamps
                  = Uncaught e
              | Ok (raw_segments, used_language) =>
                  match fst (fetch_video_title video_id (titles video_id)) with
                  | Ok title =>
                      transcript_endpoint provider_fetch list_transcripts
                        titles url language include_timestamps
                      = Answers
                          (TranscriptResponse
                             (normalize_transcript raw_segments
                                (default false include_timestamps))
                             used_language languages title)
                  | Raise e =>
                      transcript_endpoint provider_fetch list_transcripts
                        titles url language include_timestamps
                      = Uncaught e
                  end
              end
  end.
Proof.
  unfold transcript_endpoint.
  pose proof (parse_video_id_valid (PyStr url)) as Hv.
  assert (invalid_input (PyStr url)
          <-> str_nonempty (strip url) = false
              \/ first_match patterns (strip url) = None) as Hi.
  { unfold invalid_input. by rewrite first_match_none, str_nonempty_false. }
  rewrite parse_video_id_str in *.
  destruct (str_nonempty (strip url)); cbn [negb] in *.
  - destruct (first_match patterns (strip url)) as [g|].
    + split; [by apply Hv|]. split; [rewrite Hi; by intros [?|?]|].
      unfold get_available_transcripts. split.
      * destruct (list_transcripts g) as [l|e]; [done|]. by intros ->.
      * intros languages Hl. split.
        { destruct (list_transcripts g) as [l|e]; [by injection Hl as <-|].
          destruct (Provider.is_YouTubeTranscriptApiException e);
            [by injection Hl as <- | done]. }
        rewrite Hl. unfold fetch_transcript.
        destruct (provider_fetch g language) as [[segs used]|[]]; try done.
        by destruct (fst (fetch_video_title g (titles g))).
    + split; [apply Hi; by right|]. by eexists.
  - split; [apply Hi; by left|]. by eexists.
Qed.

(** A listing that raises an exception of another kind: the request ends
    with it, though the transcript could have been fetched. *)
Example transcript_endpoint_listing_raises :
  transcript_endpoint sample_fetch
    (λ _, Provider.Fails (Provider.Exc false false false false "timed out"))
    (λ _, TitleWorld (Env None None) None None)
    "https://youtu.be/dQw4w9WgXcQ" None None
  = UncaughtLibrary (Provider.Exc false false false false "timed out").
Proof. reflexivity. Qed.

(** ** Round trips *)

(** X19: an identifier that [parse_video_id] returns is parsed to itself. *)
Theorem parse_video_id_idempotent (u : pyval) (g : string) :
  parse_video_id u = Ok g -> parse_video_id (PyStr g) = Ok g.
Proof. intros H. by apply parse_bare_id, (parse_video_id_valid u). Qed.

Lemma parse_video_id_idempotent_witness :
  parse_video_id (PyStr "dQw4w9WgXcQ") = Ok "dQw4w9WgXcQ".
Proof.
  apply (parse_video_id_idempotent
           (PyStr "https://youtu.be/dQw4w9WgXcQ?t=42")).
  reflexivity.
Defined.

Lemma entry_ids_bare (ids : list string) :
  Forall (λ id, valid_id id = true) ids ->
  flat_map entry_ids (map PyStr ids) = ids
  /\ flat_map entry_errors (map PyStr ids) = [].
Proof.
  induction 1 as [|id ids Hid _ [IH1 IH2]]; [done|]. simpl.
  unfold entry_ids at 1, entry_errors at 1. rewrite parse_bare_id by done.
  simpl. by rewrite IH1, IH2.
Qed.

Lemma expand_bare_ids (ids : list string) (limit : Z) (w : world) :
  Forall (λ id, valid_id id = true) ids -> NoDup ids ->
  expand_inputs_to_video_ids (Some (map PyStr ids)) PyNone PyNone limit w
  = Ok ((ids, []), w).
Proof.
  intros Hv Hn. rewrite expand_inputs_spec.
  unfold merged_expansion, playlist_source, channel_source. simpl.
  destruct (entry_ids_bare ids Hv) as [-> ->].
  by rewrite !app_nil_r, first_seen_NoDup.
Qed.

(** X20: a list of valid identifiers without duplicates, given as the
    [urls] of a request with no playlist and no channel, is returned as it
    is, with no error and no request; so the identifiers that such a
    request returns, given again, are returned unchanged. *)
Theorem expand_urls_fixed_point :
  (forall ids limit w,
     Forall (λ id, valid_id id = true) ids -> NoDup ids ->
     expand_inputs_to_video_ids (Some (map PyStr ids)) PyNone PyNone limit w
     = Ok ((ids, []), w))
  /\ (forall urls limit w,
        exists ids errs,
          expand_inputs_to_video_ids urls PyNone PyNone limit w
          = Ok ((ids, errs), w)
          /\ expand_inputs_to_video_ids (Some (map PyStr ids)) PyNone PyNone
               limit w
             = Ok ((ids, []), w)).
Proof.
  split; [exact expand_bare_ids|]. intros urls limit w.
  rewrite expand_inputs_spec.
  unfold merged_expansion, playlist_source, channel_source. simpl.
  eexists _, _. split; [reflexivity|]. rewrite !app_nil_r.
  apply expand_bare_ids; [|apply NoDup_first_seen].
  apply Forall_forall. intros id Hid.
  apply (proj1 (elem_of_first_seen _ _)) in Hid.
  apply list_elem_of_In, in_flat_map in Hid as (u & _ & Hu).
  apply list_elem_of_In in Hu. by eapply entry_ids_valid.
Qed.

(** ** Errors of the playlist and the channel reference *)

Lemma first_seen_nil_inv (l : list string) : first_seen l = [] -> l = [].
Proof. by destruct l. Qed.

(** X21: with a credential set, a playlist reference adds an error exactly
    when no playlist id can be read from it, so a playlist that yields no
    video is passed over in silence; a channel reference adds its error
    exactly when it yields no video. *)
Theorem reference_errors (limit : Z) (w : world) :
  truthy_opt (_api_key (env w)) = true ->
  (forall playlist_url, truthy_val playlist_url = true ->
     exists ids w',
       expand_inputs_to_video_ids None playlist_url PyNone limit w
       = Ok ((ids,
              if truthy_opt (found pat_list playlist_url) then []
              else ["Could not extract playlist ID from playlist_url."]), w'))
  /\ (forall channel_url, truthy_val channel_url = true ->
        exists ids w',
          expand_inputs_to_video_ids None PyNone channel_url limit w
          = Ok ((ids,
                 match ids with
                 | [] => ["Could not resolve channel videos from channel_url."]
                 | _ :: _ => []
                 end), w')).
Proof.
  intros Hk. split.
  - intros playlist_url Ht. rewrite expand_inputs_spec.
    unfold merged_expansion, playlist_source, channel_source.
    rewrite Ht, Hk. simpl.
    destruct (truthy_opt (found pat_list playlist_url)); [|by eexists _, _].
    destruct (expand_playlist_video_ids _ limit w) as [vids w'].
    simpl. rewrite !app_nil_r. by eexists _, _.
  - intros channel_url Ht. rewrite expand_inputs_spec.
    unfold merged_expansion, playlist_source, channel_source.
    rewrite Ht, Hk. simpl.
    destruct (expand_channel_ok channel_url limit w) as (vids & w' & ->).
    simpl. rewrite Hk. simpl. exists (first_seen vids), w'.
    destruct vids as [|v vids]; [done|].
    by destruct (first_seen (v :: vids)) eqn:E;
      [apply first_seen_nil_inv in E|].
Qed.

Lemma reference_errors_witness :
  exists ids w',
    expand_inputs_to_video_ids None
      (PyStr "https://www.youtube.com/playlist?list=PL123") PyNone 50
      (World sample_env [Some (Data [] None)])
    = Ok ((ids, []), w').
Proof.
  destruct (reference_errors 50 (World sample_env [Some (Data [] None)])
              eq_refl) as [H _].
  exact (H (PyStr "https://www.youtube.com/playlist?list=PL123") eq_refl).
Defined.

(** ** Transcript retrieval *)

Lemma handlers_raises {A : Type} (e e' : Provider.exc) :
  @Provider.handlers A e = Provider.Raises e' ->
  e' = e
  /\ Provider.is_InvalidVideoId e = false
  /\ Provider.is_VideoUnavailable e = false
  /\ Provider.is_CouldNotRetrieveTranscript e = false
  /\ Provider.is_YouTubeTranscriptApiException e = false.
Proof.
  unfold Provider.handlers.
  destruct (Provider.is_InvalidVideoId e); [done|].
  destruct (Provider.is_VideoUnavailable e); [done|].
  destruct (Provider.is_CouldNotRetrieveTranscript e); [done|].
  destruct (Provider.is_YouTubeTranscriptApiException e); [done|].
  by intros [= <-].
Qed.

(** X22: no exception of the transcript library leaves [fetch_transcript]
    as it is: an exception passes through only when it is an instance of
    none of the four classes the function handles, and every other failure
    is a [ValueError], whose message is one of the two fixed texts for an
    invalid or unavailable video, the text "No transcripts available for
    this video.", or the text of the exception raised. *)
Theorem fetch_transcript_raises (api : Provider.api_t) (video_id : string)
    (language_code : option string) (include_timestamps : bool) :
  (forall e,
     Provider.fetch_transcript api video_id language_code include_timestamps
     = Provider.Raises e ->
     Provider.is_InvalidVideoId e = false
     /\ Provider.is_VideoUnavailable e = false
     /\ Provider.is_CouldNotRetrieveTranscript e = false
     /\ Provider.is_YouTubeTranscriptApiException e = false)
  /\ (forall msg,
        Provider.fetch_transcript api video_id language_code include_timestamps
        = Provider.RaisesValueError msg ->
        msg = "Invalid video ID provided; could not fetch transcript."
        \/ msg = "The requested video is unavailable or private."
        \/ msg = "No transcripts available for this video."
        \/ exists e,
             msg = Provider.exc_text e
             /\ (Provider.is_CouldNotRetrieveTranscript e = true
                 \/ Provider.is_YouTubeTranscriptApiException e = true)).
Proof.
  unfold Provider.fetch_transcript. split.
  - intros e.
    destruct (Provider.try_body api video_id language_code)
      as [[fetched used]|msg|e0]; try done.
    by intros (-> & H)%handlers_raises.
  - intros msg.
    destruct (Provider.try_body api video_id language_code)
      as [[fetched used]|msg0|e0] eqn:E; try done.
    + intros [= <-]. right; right; left. revert E. unfold Provider.try_body.
      repeat case_match; try done. by intros [= <-].
    + unfold Provider.handlers.
      destruct (Provider.is_InvalidVideoId e0); [intros [= <-]; by left|].
      destruct (Provider.is_VideoUnavailable e0);
        [intros [= <-]; right; by left|].
      destruct (Provider.is_CouldNotRetrieveTranscript e0) eqn:E1;
        [intros [= <-]; do 3 right; exists e0; split; [done | by left]|].
      destruct (Provider.is_YouTubeTranscriptApiException e0) eqn:E2; [|done].
      intros [= <-]. do 3 right. exists e0. split; [done | by right].
Qed.

(** X23: what [fetch_transcript] returns. Without a requested language it
    makes the one default fetch and reports the language of the fetched
    transcript, the empty string when it has none. With a requested
    language the text is always the normalised form of some fetched
    transcript, and the language reported is the one of the first fetch
    (the requested code when it has none), or the requested code after a
    translation, or the own language of a listed transcript, and that only
    when the first fetch failed with a retrieval error and the translation
    of the transcript failed as well. *)
Theorem fetch_transcript_returns (api : Provider.api_t) (video_id : string)
    (language_code : option string) (include_timestamps : bool)
    (text used_language : string) :
  Provider.fetch_transcript api video_id language_code include_timestamps
  = Provider.Returns (text, used_language) ->
  exists fetched,
    text = normalize_transcript (Provider.raw_segments fetched)
             include_timestamps
    /\ if truthy_opt language_code then
         let code := default EmptyString language_code in
         (Provider.api_fetch api video_id (Some code) = Provider.Done fetched
          /\ used_language
             = default code (Provider.fetched_language_code fetched))
         \/ exists e tlist c,
              Provider.api_fetch api video_id (Some code) = Provider.Fails e
              /\ Provider.is_CouldNotRetrieveTranscript e = true
              /\ Provider.api_list api video_id = Provider.Done tlist
              /\ (Provider.find_manually_created_transcript tlist code
                  = Provider.Done c
                  \/ (exists e',
                        Provider.find_manually_created_transcript tlist code
                        = Provider.Fails e')
                     /\ head (Provider.transcripts tlist) = Some c)
              /\ ((Provider.t_translate_fetch c code = Provider.Done fetched
                   /\ used_language = code)
                  \/ ((exists e', Provider.t_translate_fetch c code
                                  = Provider.Fails e')
                      /\ Provider.t_fetch c = Provider.Done fetched
                      /\ used_language = Provider.t_language_code c))
       else
         Provider.api_fetch api video_id None = Provider.Done fetched
         /\ used_language
            = default EmptyString (Provider.fetched_language_code fetched).
Proof.
  unfold Provider.fetch_transcript.
  destruct (Provider.try_body api video_id language_code)
    as [[fetched used]|msg|e0] eqn:E.
  - intros [= <- <-]. exists fetched. split; [done|].
    revert E. unfold Provider.try_body.
    destruct (truthy_opt language_code).
    + cbv zeta.
      destruct (Provider.api_fetch api video_id _) as [f|e] eqn:E1.
      { intros [= <- <-]. by left. }
      destruct (Provider.is_CouldNotRetrieveTranscript e) eqn:E2; [|done].
      destruct (Provider.api_list api video_id) as [tlist|e'] eqn:E3; [|done].
      intros H. right. exists e, tlist.
      destruct (Provider.find_manually_created_transcript tlist _)
        as [c|e'] eqn:E4.
      * exists c. do 3 (split; [done|]). split; [by left|].
        destruct (Provider.t_translate_fetch c _) as [f|e''] eqn:E5.
        { injection H as <- <-. by left. }
        destruct (Provider.t_fetch c) as [f|e'''] eqn:E6; [|done].
        injection H as <- <-. right. split; [by eexists | done].
      * destruct (head (Provider.transcripts tlist)) as [c|] eqn:E5; [|done].
        exists c. do 3 (split; [done|]).
        split; [right; split; [by eexists | done]|].
        destruct (Provider.t_translate_fetch c _) as [f|e''] eqn:E6.
        { injection H as <- <-. by left. }
        destruct (Provider.t_fetch c) as [f|e'''] eqn:E7; [|done].
        injection H as <- <-. right. split; [by eexists | done].
    + destruct (Provider.api_fetch api video_id None) as [f|e]; [|done].
      by intros [= <- <-].
  - done.
  - unfold Provider.handlers. by repeat case_match.
Qed.

Lemma fetch_transcript_returns_witness :
  exists fetched,
    "Hello world"
    = normalize_transcript (Provider.raw_segments fetched) false
    /\ ((Provider.api_fetch sample_api "dQw4w9WgXcQ" (Some "de")
         = Provider.Done fetched
         /\ "en" = default "de" (Provider.fetched_language_code fetched))
        \/ exists e tlist c,
             Provider.api_fetch sample_api "dQw4w9WgXcQ" (Some "de")
             = Provider.Fails e
             /\ Provider.is_CouldNotRetrieveTranscript e = true
             /\ Provider.api_list sample_api "dQw4w9WgXcQ" = Provider.Done tlist
             /\ (Provider.find_manually_created_transcript tlist "de"
                 = Provider.Done c
                 \/ (exists e',
                       Provider.find_manually_created_transcript tlist "de"
                       = Provider.Fails e')
                    /\ head (Provider.transcripts tlist) = Some c)
             /\ ((Provider.t_translate_fetch c "de" = Provider.Done fetched
                  /\ "en" = "de")
                 \/ ((exists e', Provider.t_translate_fetch c "de"
                                 = Provider.Fails e')
                     /\ Provider.t_fetch c = Provider.Done fetched
                     /\ "en" = Provider.t_language_code c))).
Proof.
  exact (fetch_transcript_returns sample_api "dQw4w9WgXcQ" (Some "de") false
           "Hello world" "en" eq_refl).
Defined.

(** ** Playlist paging below the limit of one *)

Lemma collect_items_low (limit : Z) (its : list yt_item) :
  limit <= 0 ->
  collect_items limit its []
  = (take 1 (item_vids its),
     match item_vids its with [] => false | _ :: _ => true end).
Proof.
  intros Hl. induction its as [|it its IH]; [done|].
  cbn [collect_items item_vids flat_map].
  destruct (truthy_opt (videoId it)); [|exact IH].
  cbn [app length].
  replace (Z.of_nat 1 >=? limit) with true
    by (symmetry; apply Z.geb_le; lia).
  done.
Qed.

Lemma page_pass_low (limit : Z) (d : yt_data) :
  limit <= 0 -> page_pass limit d [] = (take 1 (page_vids d), false).
Proof.
  intros Hl. unfold page_pass, page_vids. rewrite collect_items_low by done.
  destruct (item_vids (items d)) as [|v vs]; [|done]. cbn [take length].
  replace (Z.of_nat 0 >=? limit) with true
    by (symmetry; apply Z.geb_le; lia).
  by rewrite orb_true_r.
Qed.

(** X24: for a limit below one, [expand_playlist_video_ids] requests the
    first page only and returns the first video id of that page, or nothing
    when the page holds none: at most one identifier, whatever the limit
    is. *)
Theorem expand_playlist_low_limit (playlist_id : string) (limit : Z)
    (w : world) :
  limit <= 0 ->
  (length (fst (expand_playlist_video_ids playlist_id limit w)) <= 1)%nat
  /\ (forall d queue,
        truthy_opt (_api_key (env w)) = true ->
        responses w = Some d :: queue ->
        expand_playlist_video_ids playlist_id limit w
        = (take 1 (page_vids d), World (env w) queue)).
Proof.
  intros Hl.
  assert (forall d queue,
            playlist_loop limit d [] queue = (take 1 (page_vids d), queue))
    as Hloop.
  { intros d queue. destruct queue; simpl; by rewrite page_pass_low. }
  split.
  - unfold expand_playlist_video_ids, _yt_api_get.
    destruct (negb (truthy_opt (_api_key (env w)))); [simpl; lia|].
    destruct (responses w) as [|[d|] queue]; simpl; try lia.
    rewrite Hloop. simpl. rewrite length_take. lia.
  - intros d queue Hk Hq. unfold expand_playlist_video_ids, _yt_api_get.
    rewrite Hk, Hq. simpl. by rewrite Hloop.
Qed.

Lemma expand_playlist_low_limit_witness :
  (length (fst (expand_playlist_video_ids "PLx" (-3) sample_world)) <= 1)%nat.
Proof.
  destruct (expand_playlist_low_limit "PLx" (-3) sample_world) as [H _];
    [lia | exact H].
Defined.
